(** * videojs-contrib-eme 3.4.1: the DRM session orchestrator

    A shallow embedding of [src/fairplay.js] (the bundled plugin: the
    standard EME path, the FairPlay path, the PlayReady path and the plugin
    glue) and the properties of its session registry, pending queue,
    media-keys creation guard, key-status handling, licence notifications,
    FairPlay payload layout and configuration checks.

    Part I holds the definitions, Part II the lemmas and theorems. *)

From Stdlib.Strings Require Import String Byte.
From Stdlib Require Import ZArith List Lia Bool Arith.
Import ListNotations.

Open Scope Z_scope.

(* ================================================================== *)
(** * Part I: the embedding                                            *)
(* ================================================================== *)

(** ** JavaScript exceptions

    A call either returns a value or throws.  Only the exceptions this
    code can meet are named: [TypeError] (a property read on [null] or
    [undefined], [new DataView] on something that is no ArrayBuffer),
    [RangeError] (a typed-array view that does not fit or is misaligned)
    and [Error msg] ([throw new Error(msg)]). *)

Inductive JsError : Type :=
| TypeError
| RangeError
| Error (msg : string).

Inductive Result (A : Type) : Type :=
| Ok (a : A)
| Throw (e : JsError).

Arguments Ok {A} a.
Arguments Throw {A} e.

Definition bind {A B : Type} (r : Result A) (k : A -> Result B) : Result B :=
  match r with
  | Ok a => k a
  | Throw e => Throw e
  end.

Notation "x <- r ;; k" := (bind r (fun x => k))
  (at level 61, r at next level, right associativity).

Definition throws {A : Type} (r : Result A) : bool :=
  match r with
  | Ok _ => false
  | Throw _ => true
  end.

(** ** Bytes, 16-bit and 32-bit stores

    A byte is [Byte.byte].  The integers the code stores are [Z] with the
    wrap-around of the store written out. *)

Definition byteOfZ (z : Z) : byte :=
  match Byte.of_N (Z.to_N (z mod 256)) with
  | Some b => b
  | None => x00
  end.

Definition byteToZ (b : byte) : Z := Z.of_N (Byte.to_N b).

(** [ToUint16] and [ToUint32] of the typed-array and DataView stores. *)
Definition toUint16 (v : Z) : Z := v mod 65536.
Definition toUint32 (v : Z) : Z := v mod 4294967296.

(** The two bytes of a [Uint16Array] element.  Typed arrays use the byte
    order of the platform, which is little-endian on every platform the
    plugin runs on. *)
Definition u16le (v : Z) : list byte :=
  let u := toUint16 v in
  [byteOfZ u; byteOfZ (Z.shiftr u 8)].

(** The four bytes [DataView.prototype.setUint32(_, v, true)] writes. *)
Definition u32le (v : Z) : list byte :=
  let u := toUint32 v in
  [byteOfZ u; byteOfZ (Z.shiftr u 8); byteOfZ (Z.shiftr u 16);
   byteOfZ (Z.shiftr u 24)].

(** A JavaScript string is a sequence of UTF-16 code units;
    [charCodeAt] returns them as integers in [0, 65535]. *)
Definition JsString : Type := list Z.

Definition codeUnit (c : Z) : Prop := 0 <= c < 65536.

(** The elements of a [Uint16Array], and its [byteLength]. *)
Definition Uint16Elements : Type := list Z.

Definition byteLength16 (a : Uint16Elements) : nat := (2 * length a)%nat.

(** [stringToUint16Array]: a buffer of [2 * string.length] bytes seen as a
    [Uint16Array], with [array[i] = string.charCodeAt(i)]. *)
Definition stringToUint16Array (s : JsString) : Uint16Elements :=
  map toUint16 s.

(** ** An ArrayBuffer under construction

    [concatInitDataIdAndCertificate] allocates one zero-filled buffer and
    writes into it through three typed-array views and a DataView.  The
    buffer is threaded through the writes. *)

Definition newArrayBuffer (n : nat) : list byte := repeat x00 n.

(** Overwrite [length data] bytes of [buf] from byte [off] on. *)
Definition blit (buf : list byte) (off : nat) (data : list byte) : list byte :=
  firstn off buf ++ data ++ skipn (off + length data) buf.

(** A typed-array view on the buffer: where it starts and how many
    elements it has. *)
Record View : Type := mkView { byteOffset : nat; viewLength : nat }.

(** [new Uint8Array(buffer, byteOffset, length)]: a RangeError when the
    view does not fit the buffer. *)
Definition newUint8Array (buf : list byte) (off len : nat) : Result View :=
  if (off + len <=? length buf)%nat then Ok (mkView off len)
  else Throw RangeError.

(** [new Uint16Array(buffer, byteOffset, length)]: a RangeError when
    [byteOffset] is not a multiple of the element size 2, or when the
    view does not fit the buffer. *)
Definition newUint16Array (buf : list byte) (off len : nat) : Result View :=
  if negb (Nat.even off) then Throw RangeError
  else if (off + 2 * len <=? length buf)%nat then Ok (mkView off len)
  else Throw RangeError.

(** [view.set(source)] for a [Uint8Array] view and a byte source. *)
Definition set8 (buf : list byte) (v : View) (src : list byte)
  : Result (list byte) :=
  if (length src <=? viewLength v)%nat then Ok (blit buf (byteOffset v) src)
  else Throw RangeError.

(** [view.set(source)] for a [Uint16Array] view. *)
Definition set16 (buf : list byte) (v : View) (src : Uint16Elements)
  : Result (list byte) :=
  if (length src <=? viewLength v)%nat
  then Ok (blit buf (byteOffset v) (flat_map u16le src))
  else Throw RangeError.

(** [dataView.setUint32(byteOffset, value, true)]. *)
Definition setUint32 (buf : list byte) (off : nat) (value : Z)
  : Result (list byte) :=
  if (off + 4 <=? length buf)%nat then Ok (blit buf off (u32le value))
  else Throw RangeError.

(** ** The FairPlay payload *)

(** The [id] argument: a string, or an [Uint16Array] already. *)
Inductive ContentId : Type :=
| IdString (s : JsString)
| IdUint16Array (a : Uint16Elements).

(** [concatInitDataIdAndCertificate({initData, id, cert})], with
    [initData] and [cert] the elements of two [Uint8Array]s. *)
Definition concatInitDataIdAndCertificate
  (initData : list byte) (id : ContentId) (cert : list byte)
  : Result (list byte) :=
  let id := match id with
            | IdString s => stringToUint16Array s
            | IdUint16Array a => a
            end in
  let offset := 0%nat in
  let buffer :=
    newArrayBuffer
      (length initData + 4 + byteLength16 id + 4 + length cert)%nat in
  initDataArray <- newUint8Array buffer offset (length initData) ;;
  buffer <- set8 buffer initDataArray initData ;;
  let offset := (offset + length initData)%nat in
  buffer <- setUint32 buffer offset (Z.of_nat (byteLength16 id)) ;;
  let offset := (offset + 4)%nat in
  idArray <- newUint16Array buffer offset (length id) ;;
  buffer <- set16 buffer idArray id ;;
  let offset := (offset + 2 * viewLength idArray)%nat in
  buffer <- setUint32 buffer offset (Z.of_nat (length cert)) ;;
  let offset := (offset + 4)%nat in
  certArray <- newUint8Array buffer offset (length cert) ;;
  buffer <- set8 buffer certArray cert ;;
  Ok buffer.

(** The layout the comment in the function and the specification give:
    [initData], the id's byte length on four little-endian bytes, the id
    as UTF-16 code units, the certificate's byte length on four
    little-endian bytes, the certificate. *)
Definition payloadLayout
  (initData : list byte) (id : JsString) (cert : list byte) : list byte :=
  initData
    ++ u32le (Z.of_nat (2 * length id))
    ++ flat_map u16le id
    ++ u32le (Z.of_nat (length cert))
    ++ cert.

(** *** Reading the layout back

    The source has no decoder; this one follows the layout of the
    specification.  The layout carries no length for [initData], so the
    reader is told it. *)

Definition getUint32 (bs : list byte) : option Z :=
  match bs with
  | b0 :: b1 :: b2 :: b3 :: _ =>
      Some (byteToZ b0 + 256 * byteToZ b1 + 65536 * byteToZ b2
            + 16777216 * byteToZ b3)
  | _ => None
  end.

Fixpoint codeUnitsOf (bs : list byte) : option (list Z) :=
  match bs with
  | [] => Some []
  | lo :: hi :: rest =>
      match codeUnitsOf rest with
      | Some cs => Some ((byteToZ lo + 256 * byteToZ hi) :: cs)
      | None => None
      end
  | _ => None
  end.

Definition decodePayload (initDataLength : nat) (payload : list byte)
  : option (list byte * JsString * list byte) :=
  if (length payload <? initDataLength)%nat then None
  else
    let initData := firstn initDataLength payload in
    let afterInit := skipn initDataLength payload in
    match getUint32 afterInit with
    | None => None
    | Some idByteLength =>
        let n := Z.to_nat idByteLength in
        let afterIdLength := skipn 4 afterInit in
        if (length afterIdLength <? n)%nat then None
        else
          match codeUnitsOf (firstn n afterIdLength) with
          | None => None
          | Some id =>
              let afterId := skipn n afterIdLength in
              match getUint32 afterId with
              | None => None
              | Some certByteLength =>
                  let cert := skipn 4 afterId in
                  if (length cert =? Z.to_nat certByteLength)%nat
                  then Some (initData, id, cert)
                  else None
              end
          end
    end.

Close Scope Z_scope.

(** ** Initialization data and the buffers behind it

    Initialization data reaches the plugin as a JavaScript value: an
    ArrayBuffer (what the EME specification prescribes), a [Uint8Array] or
    [Uint16Array] view of one (what some browsers deliver, and what a
    [pssh] option may hold), or [null] / [undefined].  Objects have an
    identity (their reference); the bytes of each ArrayBuffer are held by
    a heap, which this code only reads. *)

Definition ref : Type := nat.

Definition Heap : Type := ref -> list byte.

Inductive InitData : Type :=
| Undefined
| Null
| ArrayBuffer (r : ref)
| Uint8Array (self buffer : ref) (byteOffset length : nat)
| Uint16Array (self buffer : ref) (byteOffset length : nat).

(** [!!v]: [null] and [undefined] are falsy, every object is truthy. *)
Definition truthy (v : InitData) : bool :=
  match v with
  | Undefined | Null => false
  | _ => true
  end.

(** [a === b]: reference identity on objects.  Two values denote the
    same object when they have the same reference, and then they have
    the same fields. *)
Definition strictEq (a b : InitData) : bool :=
  match a, b with
  | Undefined, Undefined => true
  | Null, Null => true
  | ArrayBuffer r1, ArrayBuffer r2 => (r1 =? r2)%nat
  | Uint8Array s1 b1 o1 n1, Uint8Array s2 b2 o2 n2 =>
      (s1 =? s2)%nat && (b1 =? b2)%nat && (o1 =? o2)%nat && (n1 =? n2)%nat
  | Uint16Array s1 b1 o1 n1, Uint16Array s2 b2 o2 n2 =>
      (s1 =? s2)%nat && (b1 =? b2)%nat && (o1 =? o2)%nat && (n1 =? n2)%nat
  | _, _ => false
  end.

(** [v.byteLength]: a TypeError on [null] and [undefined]. *)
Definition byteLengthOf (h : Heap) (v : InitData) : Result nat :=
  match v with
  | Undefined | Null => Throw TypeError
  | ArrayBuffer r => Ok (length (h r))
  | Uint8Array _ _ _ n => Ok n
  | Uint16Array _ _ _ n => Ok (2 * n)%nat
  end.

(** [new DataView(v)]: the bytes it reads; a TypeError unless [v] is an
    ArrayBuffer. *)
Definition newDataView (h : Heap) (v : InitData) : Result (list byte) :=
  match v with
  | ArrayBuffer r => Ok (h r)
  | _ => Throw TypeError
  end.

(** The loop of [arrayBuffersEqual]:
    [for (i = 0; i < dataView1.byteLength; i++)] comparing
    [getUint8(i)] of both views; [n] counts the iterations left.  Both
    views have the same length, so [i] stays in range of both. *)
Fixpoint bytesEqualFrom (d1 d2 : list byte) (i n : nat) : bool :=
  match n with
  | O => true
  | S n' =>
      if Byte.eqb (nth i d1 x00) (nth i d2 x00)
      then bytesEqualFrom d1 d2 (S i) n'
      else false
  end.

(** [arrayBuffersEqual(arrayBuffer1, arrayBuffer2)]. *)
Definition arrayBuffersEqual (h : Heap) (arrayBuffer1 arrayBuffer2 : InitData)
  : Result bool :=
  if strictEq arrayBuffer1 arrayBuffer2 then Ok true
  else
    n1 <- byteLengthOf h arrayBuffer1 ;;
    n2 <- byteLengthOf h arrayBuffer2 ;;
    if negb (n1 =? n2)%nat then Ok false
    else
      dataView1 <- newDataView h arrayBuffer1 ;;
      dataView2 <- newDataView h arrayBuffer2 ;;
      Ok (bytesEqualFrom dataView1 dataView2 0 (length dataView1)).

(** [arrayBufferFrom(bufferOrTypedArray)]: the [.buffer] of a
    [Uint8Array] or [Uint16Array], the value itself otherwise. *)
Definition arrayBufferFrom (bufferOrTypedArray : InitData) : InitData :=
  match bufferOrTypedArray with
  | Uint8Array _ buffer _ _ => ArrayBuffer buffer
  | Uint16Array _ buffer _ _ => ArrayBuffer buffer
  | v => v
  end.

(** ** The session registry ([player.eme.sessions]) *)

(** An entry: [{initData}] from the standard path,
    [{playready: true, initData}] from the PlayReady path. *)
Record Session : Type := mkSession {
  playready : bool;
  initData : InitData
}.

(** [hasSession(sessions, initData)]. *)
Fixpoint hasSession (h : Heap) (sessions : list Session) (v : InitData)
  : Result bool :=
  match sessions with
  | [] => Ok false
  | s :: rest =>
      if negb (truthy (initData s)) then hasSession h rest v
      else
        let sessionBuffer := arrayBufferFrom (initData s) in
        let initDataBuffer := arrayBufferFrom v in
        eq <- arrayBuffersEqual h sessionBuffer initDataBuffer ;;
        if eq then Ok true else hasSession h rest v
  end.

(** [removeSession(sessions, initData)]: [splice] out the first entry
    whose [initData] is the argument itself, and return. *)
Fixpoint removeSession (sessions : list Session) (v : InitData)
  : list Session :=
  match sessions with
  | [] => []
  | s :: rest =>
      if strictEq (initData s) v then rest
      else s :: removeSession rest v
  end.

(** ** Configuration *)

(** The licence functions a configuration can end up holding: the
    caller's own, or one of the two defaults built from a URL. *)
Inductive LicenseFn : Type :=
| CustomGetLicense (f : nat)
| DefaultGetLicense (url : string)
| DefaultPlayreadyGetLicense (url : string).

(** The fields the code reads from a key system's options object; [None]
    is an absent (or otherwise falsy) field. *)
Record KeySystemOptions : Type := mkOptions {
  url : option string;
  getLicense : option LicenseFn;
  getCertificate : option nat;
  getKey : option nat;
  pssh : InitData;
  audioContentType : option string;
  videoContentType : option string
}.

(** A key system's configuration is an options object, or a plain string. *)
Inductive KeySystemConfig : Type :=
| CfgString (s : string)
| CfgObject (o : KeySystemOptions).

(** [{url: s}]. *)
Definition urlOnly (s : string) : KeySystemOptions :=
  mkOptions (Some s) None None None Undefined None None.

(** Truthiness of a string-valued field: absent and the empty string are
    falsy. *)
Definition truthyString (s : option string) : bool :=
  match s with
  | Some EmptyString => false
  | Some _ => true
  | None => false
  end.

Definition isSome {A : Type} (o : option A) : bool :=
  match o with
  | Some _ => true
  | None => false
  end.

Definition PLAYREADY_KEY_SYSTEM : string := "com.microsoft.playready".

Definition noLicenseSource : string :=
  "Neither URL nor getLicense function provided to get license".

(** [standardizeKeySystemOptions(keySystem, keySystemOptions)]. *)
Definition standardizeKeySystemOptions (keySystem : string)
  (keySystemOptions : KeySystemConfig) : Result KeySystemOptions :=
  let o := match keySystemOptions with
           | CfgString s => urlOnly s
           | CfgObject o => o
           end in
  if negb (truthyString (url o)) && negb (isSome (getLicense o))
  then Throw (Error noLicenseSource)
  else if truthyString (url o) && negb (isSome (getLicense o))
  then
    let u := match url o with Some u => u | None => EmptyString end in
    Ok (mkOptions (url o)
          (Some (if String.eqb keySystem PLAYREADY_KEY_SYSTEM
                 then DefaultPlayreadyGetLicense u
                 else DefaultGetLicense u))
          (getCertificate o) (getKey o) (pssh o)
          (audioContentType o) (videoContentType o))
  else Ok o.

(** [options.keySystems]: an object from key-system names to
    configurations, in the order of its keys. *)
Definition KeySystems : Type := list (string * KeySystemConfig).

Fixpoint lookupKeySystem (keySystems : KeySystems) (k : string)
  : option KeySystemConfig :=
  match keySystems with
  | [] => None
  | (k', c) :: rest =>
      if String.eqb k' k then Some c else lookupKeySystem rest k
  end.

(** [options]: [keySystems] may be missing. *)
Record Options : Type := mkEmeOptions { keySystems : option KeySystems }.

(** [getSupportedKeySystem(keySystems)]: [requestMediaKeySystemAccess] is
    asked for the first key, and for the next one each time the platform
    rejects.  [supported] is the platform's answer for a key system.
    The result is [None] when no key is listed (no promise is built),
    [Some (Some k)] when the promise resolves with the access for [k],
    [Some None] when it is rejected. *)
Fixpoint firstSupported (supported : string -> bool) (ks : KeySystems)
  : option string :=
  match ks with
  | [] => None
  | (k, _) :: rest =>
      if supported k then Some k else firstSupported supported rest
  end.

Definition getSupportedKeySystem (supported : string -> bool)
  (ks : KeySystems) : option (option string) :=
  match ks with
  | [] => None
  | _ => Some (firstSupported supported ks)
  end.

(** ** Platform calls and notifications

    What the code asks of the platform, the event bus and the log, in the
    order it asks.  Promise settlements of the promises the code builds
    itself are part of the same record. *)

Inductive MediaKeyStatus : Type :=
| usable
| expired
| released
| output_restricted
| output_downscaled
| status_pending
| internal_error.

Inductive BusEvent : Type :=
| licenserequestattempted
| keystatuschange (keyId : nat) (status : MediaKeyStatus).

Inductive Effect : Type :=
| RequestAccess (keySystem : string)
| GetCertificate (f : nat)
| CreateMediaKeys
| SetServerCertificate (mediaKeys : nat) (certificate : list byte)
| VideoSetMediaKeys (mediaKeys : nat)
| CreateSession (mediaKeys : nat)
| GenerateRequest (initDataType : string) (v : InitData)
| Trigger (e : BusEvent)
| LogError (msg : string)
| LogWarn (msg : string)
| SessionUpdate (license : option (list byte))
| SessionClose
| Resolve (license : option (list byte))
| Reject (err : string)
| CallGetLicense (f : LicenseFn)
| CallGetKey (f : nat) (destinationURL : string)
| PostLicenseRequest (uri : string).

Definition isAttempted (e : Effect) : bool :=
  match e with
  | Trigger licenserequestattempted => true
  | _ => false
  end.

(** An effect through which the outcome of a licence exchange reaches
    the one who asked: the promise settles, the session is updated, or
    the failure is logged. *)
Definition isOutcome (e : Effect) : bool :=
  match e with
  | Resolve _ | Reject _ | SessionUpdate _ | LogError _ => true
  | _ => false
  end.

(** ** The standard path: one playback surface *)

(** [video.mediaKeysObject]: never set, [null] while the MediaKeys object
    is being created, the MediaKeys object afterwards. *)
Inductive MediaKeysObject : Type :=
| MKUndefined
| MKNull
| MKObject (mediaKeys : nat).

Record PendingData : Type := mkPending {
  pd_initDataType : string;
  pd_initData : InitData
}.

(** The fields the plugin keeps on the video element.
    [pendingSessionData] is [None] until the plugin first assigns it. *)
Record Video : Type := mkVideo {
  mediaKeysObject : MediaKeysObject;
  pendingSessionData : option (list PendingData);
  keySystem : option string
}.

Definition newVideo : Video := mkVideo MKUndefined None None.

(** [promisifyGetLicense(getLicenseFn, eventBus)]: the wrapped function
    and the bus it notifies. *)
Record Promisified : Type := mkPromisified {
  pl_getLicenseFn : option LicenseFn;
  pl_eventBus : option nat
}.

(** What [makeNewRequest] closes over.  [ks_removeSession] names the
    registry array the [removeSession] callback is bound to. *)
Record KeySession : Type := mkKeySession {
  ks_mediaKeys : nat;
  ks_initDataType : string;
  ks_initData : InitData;
  ks_getLicense : option Promisified;
  ks_removeSession : nat;
  ks_eventBus : option nat
}.

(** The state of one playback surface on the standard path: the video
    element's fields, the key sessions [makeNewRequest] made (oldest
    first) and the platform calls made (oldest first). *)
Record Surface : Type := mkSurface {
  video : Video;
  keySessions : list KeySession;
  effects : list Effect
}.

(** [makeNewRequest({mediaKeys, initDataType, initData, options,
    getLicense, removeSession, eventBus})]: a session is created on the
    MediaKeys object, its two listeners are attached, and the licence
    request is generated.  The platform calls return normally (a
    rejected [generateRequest] is logged by its [.catch]). *)
Definition makeNewRequest (mediaKeys : nat) (initDataType : string)
  (v : InitData) (getLicenseP : option Promisified)
  (removeSessionOf : nat) (eventBus : option nat) (s : Surface) : Surface :=
  mkSurface (video s)
    (keySessions s
       ++ [mkKeySession mediaKeys initDataType v getLicenseP
             removeSessionOf eventBus])
    (effects s ++ [CreateSession mediaKeys; GenerateRequest initDataType v]).

(** [addSession({video, initDataType, initData, options, getLicense,
    removeSession, eventBus})]: the surface afterwards, and the exception
    if the call threw.  [push] on a [pendingSessionData] that was never
    assigned is a TypeError. *)
Definition addSession (initDataType : string) (v : InitData)
  (getLicenseP : option Promisified) (removeSessionOf : nat)
  (eventBus : option nat) (s : Surface) : Surface * option JsError :=
  match mediaKeysObject (video s) with
  | MKObject mk =>
      (makeNewRequest mk initDataType v getLicenseP removeSessionOf
         eventBus s, None)
  | _ =>
      match pendingSessionData (video s) with
      | None => (s, Some TypeError)
      | Some q =>
          (mkSurface
             (mkVideo (mediaKeysObject (video s))
                (Some (q ++ [mkPending initDataType v]))
                (keySystem (video s)))
             (keySessions s) (effects s), None)
      end
  end.

(** The loop of [setMediaKeys] over [video.pendingSessionData]. *)
Fixpoint drainPending (mk : nat) (getLicenseP : option Promisified)
  (removeSessionOf : nat) (eventBus : option nat)
  (pending : list PendingData) (s : Surface) : Surface :=
  match pending with
  | [] => s
  | data :: rest =>
      drainPending mk getLicenseP removeSessionOf eventBus rest
        (makeNewRequest mk (pd_initDataType data) (pd_initData data)
           getLicenseP removeSessionOf eventBus s)
  end.

(** [setMediaKeys({video, certificate, createdMediaKeys, options,
    getLicense, removeSession, eventBus})]: the surface afterwards, and
    the exception if the call threw.  Reading [.length] of a
    [pendingSessionData] that was never assigned is a TypeError. *)
Definition setMediaKeys (certificate : option (list byte))
  (createdMediaKeys : nat) (getLicenseP : option Promisified)
  (removeSessionOf : nat) (eventBus : option nat) (s : Surface)
  : Surface * option JsError :=
  let s1 :=
    mkSurface
      (mkVideo (MKObject createdMediaKeys) (pendingSessionData (video s))
         (keySystem (video s)))
      (keySessions s)
      (effects s
         ++ match certificate with
            | Some c => [SetServerCertificate createdMediaKeys c]
            | None => []
            end) in
  match pendingSessionData (video s1) with
  | None => (s1, Some TypeError)
  | Some pending =>
      let s2 :=
        drainPending createdMediaKeys getLicenseP removeSessionOf eventBus
          pending s1 in
      (mkSurface
         (mkVideo (mediaKeysObject (video s2)) (Some [])
            (keySystem (video s2)))
         (keySessions s2)
         (effects s2 ++ [VideoSetMediaKeys createdMediaKeys]), None)
  end.

(** *** [standard5July2016] and the promise chain it builds

    The function returns at once; what it started continues in later
    turns of the event loop.  The machine below holds the surface, the
    stage of the one creation chain (negotiation, certificate, MediaKeys
    creation, attachment) and the [.then(addSession)] continuations that
    have not run yet.  A label is one turn: a call of the function, or
    the platform settling what the chain waits for (with the reactions
    of the chain that this settlement triggers), or a continuation
    running, or a session receiving a [message] event.  Turns may follow
    one another in any order the stage of the chain allows. *)

(** The arguments of one call; [c_removeSession] names the registry
    array the [removeSession] callback is bound to. *)
Record Call : Type := mkCall {
  c_initDataType : string;
  c_initData : InitData;
  c_keySystems : KeySystems;
  c_removeSession : nat;
  c_eventBus : option nat
}.

Inductive Chain : Type :=
| NotStarted
| AwaitAccess (c : Call)
| AwaitCertificate (c : Call) (keySystemOptions : KeySystemOptions)
| AwaitMediaKeys (c : Call) (keySystemOptions : KeySystemOptions)
    (certificate : option (list byte))
| AwaitAttach
| Settled.

(** A [keySystemPromise.then(function () { addSession(...) })] not yet
    run; [t_afterChain] tells whether [keySystemPromise] is the creation
    chain (the first call) or [Promise.resolve()] (every other call). *)
Record Tail : Type := mkTail {
  t_call : Call;
  t_afterChain : bool
}.

Record Machine : Type := mkMachine {
  surface : Surface;
  chain : Chain;
  tails : list Tail
}.

Definition newMachine : Machine :=
  mkMachine (mkSurface newVideo [] []) NotStarted [].

Definition logError (msg : string) (s : Surface) : Surface :=
  mkSurface (video s) (keySessions s) (effects s ++ [LogError msg]).

Definition perform (e : Effect) (s : Surface) : Surface :=
  mkSurface (video s) (keySessions s) (effects s ++ [e]).

Definition creationFailed : string :=
  "Failed to create and initialize a MediaKeys object".

(** The [.catch] that ends the creation chain: the rejection is logged
    and the chain is settled. *)
Definition failChain (m : Machine) : Machine :=
  mkMachine (logError creationFailed (surface m)) Settled (tails m).

(** The synchronous part of [standard5July2016].  On an unmarked
    surface [getSupportedKeySystem] asks the platform for the first key
    of [options.keySystems] at once; a request for a key after it is
    made later, in the [catch] of the request before it (the turn
    [AccessDenied]). *)
Definition standard5July2016 (c : Call) (m : Machine) : Machine :=
  let s := surface m in
  match mediaKeysObject (video s) with
  | MKUndefined =>
      (* Prevent entering this path again. *)
      let s1 :=
        mkSurface (mkVideo MKNull (Some []) (keySystem (video s)))
          (keySessions s) (effects s) in
      match c_keySystems c with
      | [] =>
          mkMachine (logError "No supported key system found" s1)
            (chain m) (tails m)
      | (k, _) :: _ =>
          mkMachine (perform (RequestAccess k) s1) (AwaitAccess c)
            (tails m ++ [mkTail c true])
      end
  | _ => mkMachine s (chain m) (tails m ++ [mkTail c false])
  end.

(** The first [.then] of the chain, run when the platform grants access
    to [keySystemAccess.keySystem = k], followed (when no certificate is
    to be fetched) by the [.then] that calls [createMediaKeys()]. *)
Definition onKeySystemAccess (c : Call) (k : string) (m : Machine) : Machine :=
  let s := surface m in
  let s1 :=
    mkSurface
      (mkVideo (mediaKeysObject (video s)) (pendingSessionData (video s))
         (Some k))
      (keySessions s) (effects s) in
  let m1 := mkMachine s1 (chain m) (tails m) in
  match lookupKeySystem (c_keySystems c) k with
  | None => failChain m1
  | Some cfg =>
      match standardizeKeySystemOptions k cfg with
      | Throw _ => failChain m1
      | Ok keySystemOptions =>
          match getCertificate keySystemOptions with
          | None =>
              mkMachine (perform CreateMediaKeys s1)
                (AwaitMediaKeys c keySystemOptions None) (tails m)
          | Some f =>
              mkMachine (perform (GetCertificate f) s1)
                (AwaitCertificate c keySystemOptions) (tails m)
          end
      end
  end.

(** The [.then] that receives the created MediaKeys object and calls
    [setMediaKeys]. *)
Definition onMediaKeys (c : Call) (keySystemOptions : KeySystemOptions)
  (certificate : option (list byte)) (createdMediaKeys : nat) (m : Machine)
  : Machine :=
  let getLicenseP :=
    Some (mkPromisified (getLicense keySystemOptions) (c_eventBus c)) in
  match setMediaKeys certificate createdMediaKeys getLicenseP
          (c_removeSession c) (c_eventBus c) (surface m) with
  | (s', None) => mkMachine s' AwaitAttach (tails m)
  | (s', Some _) => failChain (mkMachine s' (chain m) (tails m))
  end.

(** A [.then(function () { addSession(...) })] running.  When
    [video.keySystem] is set the options are standardized again, which
    may throw; then nothing is added. *)
Definition runTail (c : Call) (m : Machine) : Machine :=
  let s := surface m in
  match keySystem (video s) with
  | None =>
      mkMachine
        (fst (addSession (c_initDataType c) (c_initData c) None
                (c_removeSession c) (c_eventBus c) s))
        (chain m) (tails m)
  | Some k =>
      match lookupKeySystem (c_keySystems c) k with
      | None => m
      | Some cfg =>
          match standardizeKeySystemOptions k cfg with
          | Throw _ => m
          | Ok o =>
              mkMachine
                (fst (addSession (c_initDataType c) (c_initData c)
                        (Some (mkPromisified (getLicense o) (c_eventBus c)))
                        (c_removeSession c) (c_eventBus c) s))
                (chain m) (tails m)
          end
      end
  end.

(** *** The negotiation of [getSupportedKeySystem]

    [standard5July2016] calls [getSupportedKeySystem(options.keySystems)],
    which asks the platform for the first key of the object at once and
    for every further key in the [catch] of the request before it: a key
    is asked for when every key before it was rejected.  The first
    request is part of the call; the others are made, one by one, while
    the chain waits for the negotiation to end. *)

(** The keys access was requested for, in the order of the requests. *)
Definition requestedKey (e : Effect) : list string :=
  match e with
  | RequestAccess k => [k]
  | _ => []
  end.

Definition requestedKeys (effs : list Effect) : list string :=
  flat_map requestedKey effs.

(** The key system of the request that is pending: the last one made. *)
Definition askedKeySystem (s : Surface) : option string :=
  match rev (requestedKeys (effects s)) with
  | k :: _ => Some k
  | [] => None
  end.

(** The key system the [catch] of the pending request asks for.  The
    requests made so far are for the first keys of the object, one each,
    so the next key is at the position their number gives; there is none
    when every key was asked for. *)
Definition nextKeySystem (c : Call) (s : Surface) : option string :=
  match nth_error (c_keySystems c) (length (requestedKeys (effects s))) with
  | Some (k, _) => Some k
  | None => None
  end.

(** Several platform calls and notifications, in order. *)
Definition performAll (effs : list Effect) (s : Surface) : Surface :=
  mkSurface (video s) (keySessions s) (effects s ++ effs).

Fixpoint removeNth {A : Type} (i : nat) (l : list A) : list A :=
  match l, i with
  | [], _ => []
  | _ :: rest, O => rest
  | x :: rest, S i' => x :: removeNth i' rest
  end.

Definition chainSettled (ch : Chain) : bool :=
  match ch with
  | Settled => true
  | _ => false
  end.

(** The [message] listener of a key session: the licence function is
    called (when there is one to call). *)
Definition onMessage (ks : KeySession) : list Effect :=
  match ks_getLicense ks with
  | Some p =>
      match pl_getLicenseFn p with
      | Some f => [CallGetLicense f]
      | None => []
      end
  | None => []
  end.

(** The turns.  [AccessGranted k] is the platform granting the pending
    request, which is for [k]: the negotiation ends.  [AccessDenied] is
    the platform rejecting the pending request: the [catch] of that
    request asks for the next key of the object, and when there is none
    the rejection reaches the [.catch] that ends the chain. *)
Inductive Label : Type :=
| Invoke (c : Call)
| AccessGranted (k : string)
| AccessDenied
| CertificateFetched (certificate : option (list byte))
| CertificateFailed
| MediaKeysCreated (mediaKeys : nat)
| MediaKeysFailed
| AttachSettled (ok : bool)
| RunTail (i : nat)
| Message (i : nat).

Definition ready (t : Tail) (m : Machine) : bool :=
  negb (t_afterChain t) || chainSettled (chain m).

(** One turn; [None] when the label is not enabled in the state. *)
Definition step (m : Machine) (l : Label) : option Machine :=
  match l with
  | Invoke c => Some (standard5July2016 c m)
  | AccessGranted k =>
      match chain m with
      | AwaitAccess c =>
          match askedKeySystem (surface m) with
          | Some asked =>
              if String.eqb asked k then Some (onKeySystemAccess c k m)
              else None
          | None => None
          end
      | _ => None
      end
  | AccessDenied =>
      match chain m with
      | AwaitAccess c =>
          match nextKeySystem c (surface m) with
          | Some k =>
              Some (mkMachine (perform (RequestAccess k) (surface m))
                      (chain m) (tails m))
          | None => Some (failChain m)
          end
      | _ => None
      end
  | CertificateFetched certificate =>
      match chain m with
      | AwaitCertificate c o =>
          Some (mkMachine (perform CreateMediaKeys (surface m))
                  (AwaitMediaKeys c o certificate) (tails m))
      | _ => None
      end
  | CertificateFailed =>
      match chain m with
      | AwaitCertificate _ _ => Some (failChain m)
      | _ => None
      end
  | MediaKeysCreated mk =>
      match chain m with
      | AwaitMediaKeys c o certificate =>
          Some (onMediaKeys c o certificate mk m)
      | _ => None
      end
  | MediaKeysFailed =>
      match chain m with
      | AwaitMediaKeys _ _ _ => Some (failChain m)
      | _ => None
      end
  | AttachSettled ok =>
      match chain m with
      | AwaitAttach =>
          if ok then Some (mkMachine (surface m) Settled (tails m))
          else Some (failChain m)
      | _ => None
      end
  | RunTail i =>
      match nth_error (tails m) i with
      | Some t =>
          if ready t m
          then Some (runTail (t_call t)
                       (mkMachine (surface m) (chain m)
                          (removeNth i (tails m))))
          else None
      | None => None
      end
  | Message i =>
      match nth_error (keySessions (surface m)) i with
      | Some ks =>
          Some (mkMachine
                  (mkSurface (video (surface m)) (keySessions (surface m))
                     (effects (surface m) ++ onMessage ks))
                  (chain m) (tails m))
      | None => None
      end
  end.

Fixpoint run (m : Machine) (ls : list Label) : option Machine :=
  match ls with
  | [] => Some m
  | l :: rest =>
      match step m l with
      | Some m' => run m' rest
      | None => None
      end
  end.

(** ** Key-status changes of a standard session *)

(** The [forEach] over [keySession.keyStatuses]: every key is reported
    on the bus, [expired] is remembered, [internal-error] is logged.
    Calling [trigger] on a missing bus is a TypeError, which ends the
    listener. *)
Fixpoint reportStatuses (eventBus : option nat)
  (keyStatuses : list (nat * MediaKeyStatus)) (expiredSoFar : bool)
  : list Effect * Result bool :=
  match keyStatuses with
  | [] => ([], Ok expiredSoFar)
  | (keyId, status) :: rest =>
      match eventBus with
      | None => ([], Throw TypeError)
      | Some _ =>
          let here :=
            match status with
            | internal_error =>
                [LogWarn "Key status reported as internal-error."]
            | _ => []
            end in
          let expired' :=
            match status with
            | expired => true
            | _ => expiredSoFar
            end in
          let (later, r) := reportStatuses eventBus rest expired' in
          (Trigger (keystatuschange keyId status) :: here ++ later, r)
      end
  end.

(** The [keystatuseschange] listener of [makeNewRequest]: the effects,
    and whether [keySession.close()] was called with
    [removeSession(initData)] waiting for it. *)
Definition onKeyStatusesChange (ks : KeySession)
  (keyStatuses : list (nat * MediaKeyStatus)) : list Effect * bool :=
  match reportStatuses (ks_eventBus ks) keyStatuses false with
  | (effs, Ok true) => (effs ++ [SessionClose], true)
  | (effs, _) => (effs, false)
  end.

(** The continuation of [keySession.close()], run on the registry array
    the callback is bound to. *)
Definition onSessionClosed (ks : KeySession) (sessions : list Session)
  : list Session :=
  removeSession sessions (ks_initData ks).

(** A key-status change followed by the platform completing the close,
    if one was asked for. *)
Definition expireSession (ks : KeySession)
  (keyStatuses : list (nat * MediaKeyStatus)) (sessions : list Session)
  : list Session :=
  if snd (onKeyStatusesChange ks keyStatuses)
  then onSessionClosed ks sessions
  else sessions.

(** ** Licence exchange: the three callbacks

    A licence hook is handed a callback [(err, license)]; what the hook
    passes to it is the reply. *)

Record Reply : Type := mkReply {
  r_err : option string;
  r_license : option (list byte)
}.

Definition notifyAttempt (eventBus : option nat) : list Effect :=
  match eventBus with
  | Some _ => [Trigger licenserequestattempted]
  | None => []
  end.

(** The callback [promisifyGetLicense] passes to [getLicenseFn]:
    [reject(err)] is not followed by a [return], so [resolve(license)]
    is called as well (on a promise that is settled already). *)
Definition promisifyGetLicenseCallback (eventBus : option nat) (r : Reply)
  : list Effect :=
  notifyAttempt eventBus
    ++ match r_err r with
       | Some e => [Reject e]
       | None => []
       end
    ++ [Resolve (r_license r)].

(** [promisifyGetLicense(getLicenseFn, eventBus)(emeOptions, keyMessage)]:
    the call of the hook, and the callback it is given. *)
Definition promisifyGetLicense (getLicenseFn : LicenseFn)
  (eventBus : option nat) : list Effect * (Reply -> list Effect) :=
  ([CallGetLicense getLicenseFn], promisifyGetLicenseCallback eventBus).

(** The callback the [webkitkeymessage] listener of [addKey] passes to
    [getLicense] (FairPlay). *)
Definition addKeyCallback (eventBus : option nat) (r : Reply) : list Effect :=
  notifyAttempt eventBus
    ++ match r_err r with
       | Some e => [Reject e]
       | None => [SessionUpdate (r_license r)]
       end.

Definition addKeyOnMessage (getLicenseFn : LicenseFn) (eventBus : option nat)
  : list Effect * (Reply -> list Effect) :=
  ([CallGetLicense getLicenseFn], addKeyCallback eventBus).

(** The [mskeymessage] event. *)
Record KeyMessage : Type := mkKeyMessage {
  destinationURL : string;
  message : list byte
}.

(** One licence exchange from the call of the hook to the end of its
    callback. *)
Definition exchange (call : list Effect * (Reply -> list Effect))
  (r : Reply) : list Effect :=
  fst call ++ snd call r.

(** The number of [licenserequestattempted] notifications in a record of
    effects, and whether every one of them comes before any outcome. *)
Definition attempts (effs : list Effect) : nat :=
  length (filter isAttempted effs).

Fixpoint attemptBeforeOutcome (effs : list Effect) : bool :=
  match effs with
  | [] => true
  | e :: rest =>
      if isOutcome e then negb (existsb isAttempted rest)
      else attemptBeforeOutcome rest
  end.

(** ** [handleEncryptedEvent] *)

Record EncryptedEvent : Type := mkEvent {
  ev_initDataType : string;
  ev_initData : InitData
}.

(** "Use existing init data from options if provided". *)
Definition resolveInitData (ks : KeySystems) (k : string)
  (eventInitData : InitData) : InitData :=
  match lookupKeySystem ks k with
  | Some (CfgObject o) => if truthy (pssh o) then pssh o else eventInitData
  | _ => eventInitData
  end.

(** How the callback ends: it returns nothing (the promise resolves), it
    returns the promise of [standard5July2016] called with [c], or it
    throws (the promise is rejected). *)
Inductive CallbackOutcome : Type :=
| Ignored
| Acquire (c : Call)
| Raised (e : JsError).

(** The [.then] callback of [handleEncryptedEvent], run with the key
    system the platform granted, on the registry array as it then is.
    [registry] names that array (for [removeSession.bind(null,
    sessions)]). *)
Definition encryptedCallback (h : Heap) (event : EncryptedEvent)
  (ks : KeySystems) (eventBus : option nat) (registry : nat)
  (sessions : list Session) (k : string) : list Session * CallbackOutcome :=
  let v := resolveInitData ks k (ev_initData event) in
  match hasSession h sessions v with
  | Throw e => (sessions, Raised e)
  | Ok found =>
      if found || negb (truthy v) then (sessions, Ignored)
      else
        (sessions ++ [mkSession false v],
         Acquire (mkCall (ev_initDataType event) v ks registry eventBus))
  end.

(** How a call of [handleEncryptedEvent] ends. *)
Inductive Handled : Type :=
| Silent
| ThrownAtOnce (e : JsError)
| AccessRejected
| Called (o : CallbackOutcome).

(** [handleEncryptedEvent(event, options, sessions, eventBus)] with its
    callback: [Promise.resolve()] when there is nothing configured, a
    TypeError at once when [getSupportedKeySystem] built no promise
    ([undefined.then]), a rejected promise when the platform grants no
    key system, the callback otherwise. *)
Definition handleEncryptedEvent (supported : string -> bool) (h : Heap)
  (event : EncryptedEvent) (options : option Options)
  (eventBus : option nat) (registry : nat) (sessions : list Session)
  : list Session * Handled :=
  match options with
  | None => (sessions, Silent)
  | Some o =>
      match keySystems o with
      | None => (sessions, Silent)
      | Some ks =>
          match getSupportedKeySystem supported ks with
          | None => (sessions, ThrownAtOnce TypeError)
          | Some None => (sessions, AccessRejected)
          | Some (Some k) =>
              let (sessions', out) :=
                encryptedCallback h event ks eventBus registry sessions k in
              (sessions', Called out)
          end
      end
  end.

(** The returned promise resolves without an error. *)
Definition resolvesQuietly (r : Handled) : bool :=
  match r with
  | Silent => true
  | Called Ignored => true
  | _ => false
  end.


(** *** The registry under a sequence of signals

    What can change one registry array: the callback of an encrypted
    event running, and the [removeSession] callback of an expired and
    closed session. *)
Inductive RegistryOp : Type :=
| Encrypted (event : EncryptedEvent) (ks : KeySystems)
    (eventBus : option nat) (registry : nat) (k : string)
| Closed (v : InitData).

Definition applyOp (h : Heap) (sessions : list Session) (op : RegistryOp)
  : list Session :=
  match op with
  | Encrypted event ks eventBus registry k =>
      fst (encryptedCallback h event ks eventBus registry sessions k)
  | Closed v => removeSession sessions v
  end.

Definition applyOps (h : Heap) (sessions : list Session)
  (ops : list RegistryOp) : list Session :=
  fold_left (applyOp h) ops sessions.

Definition isEncrypted (op : RegistryOp) : bool :=
  match op with
  | Encrypted _ _ _ _ _ => true
  | Closed _ => false
  end.

(** The bytes the registry compares for a value: those of the
    ArrayBuffer it is or views. *)
Definition bufferBytes (h : Heap) (v : InitData) : option (list byte) :=
  match arrayBufferFrom v with
  | ArrayBuffer r => Some (h r)
  | _ => None
  end.

(** The bytes a value stands for: the content of an ArrayBuffer, the
    part of its buffer that a view covers. *)
Definition viewedBytes (h : Heap) (v : InitData) : option (list byte) :=
  match v with
  | ArrayBuffer r => Some (h r)
  | Uint8Array _ b off n => Some (firstn n (skipn off (h b)))
  | Uint16Array _ b off n => Some (firstn (2 * n) (skipn off (h b)))
  | _ => None
  end.

(** A view that covers the whole of its buffer (every ArrayBuffer does). *)
Definition wholeBuffer (h : Heap) (v : InitData) : bool :=
  match v with
  | Uint8Array _ b off n => (off =? 0) && (n =? length (h b))
  | Uint16Array _ b off n => (off =? 0) && (2 * n =? length (h b))
  | _ => true
  end.

(** Byte-wise content equality: the same length and the same byte at
    every index. *)
Definition sameBytes (a b : list byte) : bool :=
  if list_eq_dec Byte.byte_eq_dec a b then true else false.

(** The byte contents of the entries that carry initialization data, in
    registry order. *)
Fixpoint fingerprints (h : Heap) (sessions : list Session)
  : list (list byte) :=
  match sessions with
  | [] => []
  | s :: rest =>
      match bufferBytes h (initData s) with
      | Some bs => bs :: fingerprints h rest
      | None => fingerprints h rest
      end
  end.

(** The bytes the entries themselves stand for, in registry order. *)
Fixpoint viewedFingerprints (h : Heap) (sessions : list Session)
  : list (list byte) :=
  match sessions with
  | [] => []
  | s :: rest =>
      match viewedBytes h (initData s) with
      | Some bs => bs :: viewedFingerprints h rest
      | None => viewedFingerprints h rest
      end
  end.

(** Every entry is an ArrayBuffer or a view of a whole buffer. *)
Definition wholeBuffers (h : Heap) (sessions : list Session) : bool :=
  forallb (fun s => wholeBuffer h (initData s)) sessions.

(** ** The player: [setupSessions] *)

(** [player.src()], [player.eme.activeSrc], [player.eme.sessions] and
    the fields the plugin keeps on the video element
    ([player.tech_.el_]). *)
Record Player : Type := mkPlayer {
  src : string;
  eme_activeSrc : option string;
  eme_sessions : list Session;
  el : Video
}.

(** [src !== player.eme.activeSrc]. *)
Definition differsFrom (s : string) (active : option string) : bool :=
  match active with
  | Some a => negb (String.eqb s a)
  | None => true
  end.

(** [setupSessions(player)]. *)
Definition setupSessions (p : Player) : Player :=
  if differsFrom (src p) (eme_activeSrc p)
  then mkPlayer (src p) (Some (src p)) [] (el p)
  else p.

(** ** Sequences of [addSession] calls *)

Record AddSessionCall : Type := mkAddSessionCall {
  as_initDataType : string;
  as_initData : InitData;
  as_getLicense : option Promisified;
  as_removeSession : nat;
  as_eventBus : option nat
}.

Definition addSessionCall (s : Surface) (a : AddSessionCall) : Surface :=
  fst (addSession (as_initDataType a) (as_initData a) (as_getLicense a)
         (as_removeSession a) (as_eventBus a) s).

Definition addSessions (calls : list AddSessionCall) (s : Surface) : Surface :=
  fold_left addSessionCall calls s.

Definition queuedPair (a : AddSessionCall) : PendingData :=
  mkPending (as_initDataType a) (as_initData a).

(** The key session [makeNewRequest] makes for a queued pair. *)
Definition sessionFor (mk : nat) (getLicenseP : option Promisified)
  (removeSessionOf : nat) (eventBus : option nat) (data : PendingData)
  : KeySession :=
  mkKeySession mk (pd_initDataType data) (pd_initData data) getLicenseP
    removeSessionOf eventBus.

(** The platform calls [makeNewRequest] makes for a queued pair. *)
Definition requestEffects (mk : nat) (data : PendingData) : list Effect :=
  [CreateSession mk; GenerateRequest (pd_initDataType data) (pd_initData data)].

Definition certificateEffects (mk : nat) (certificate : option (list byte))
  : list Effect :=
  match certificate with
  | Some c => [SetServerCertificate mk c]
  | None => []
  end.

(** [video.mediaKeysObject] is falsy: never set, or [null]. *)
Definition unsetKeys (v : Video) : bool :=
  match mediaKeysObject v with
  | MKObject _ => false
  | _ => true
  end.

(** ** Counting platform calls *)

Definition isRequestAccess (e : Effect) : bool :=
  match e with RequestAccess _ => true | _ => false end.

Definition isCreateMediaKeys (e : Effect) : bool :=
  match e with CreateMediaKeys => true | _ => false end.

Definition isVideoSetMediaKeys (e : Effect) : bool :=
  match e with VideoSetMediaKeys _ => true | _ => false end.

Definition isSessionClose (e : Effect) : bool :=
  match e with SessionClose => true | _ => false end.

(** Certificate and licence traffic. *)
Definition isNetwork (e : Effect) : bool :=
  match e with
  | GetCertificate _ | CallGetLicense _ | CallGetKey _ _
  | PostLicenseRequest _ => true
  | _ => false
  end.

Definition count (p : Effect -> bool) (effs : list Effect) : nat :=
  length (filter p effs).

Definition isExpired (ks : nat * MediaKeyStatus) : bool :=
  match snd ks with
  | expired => true
  | _ => false
  end.

Definition isInvoke (l : Label) : bool :=
  match l with Invoke _ => true | _ => false end.

(** ** What a configuration supplies *)



(** A predicate that holds of no call [makeNewRequest] makes. *)
Definition ignoresRequests (p : Effect -> bool) : Prop :=
  (forall mk, p (CreateSession mk) = false)
  /\ (forall t v, p (GenerateRequest t v) = false).

(** ** Invariants of the machine *)

(** How many times access was requested, MediaKeys creation was asked
    for, and a MediaKeys object was attached to the video. *)
Definition tally (effs : list Effect) : nat * nat * nat :=
  (count isRequestAccess effs, count isCreateMediaKeys effs,
   count isVideoSetMediaKeys effs).

Definition isGetCertificate (e : Effect) : bool :=
  match e with GetCertificate _ => true | _ => false end.

Definition isSetServerCertificate (e : Effect) : bool :=
  match e with SetServerCertificate _ _ => true | _ => false end.

(** What holds at each stage of the creation chain: how many times a
    certificate was asked for, MediaKeys creation was asked for and a
    MediaKeys object was attached to the video. *)
Definition creationInvariant (m : Machine) : Prop :=
  let s := surface m in
  let certificates := count isGetCertificate (effects s) in
  let created := count isCreateMediaKeys (effects s) in
  let attached := count isVideoSetMediaKeys (effects s) in
  match chain m with
  | NotStarted =>
      tally (effects s) = (0, 0, 0) /\ unsetKeys (video s) = true
      /\ keySessions s = [] /\ count isNetwork (effects s) = 0
  | AwaitAccess _ =>
      (created = 0 /\ attached = 0) /\ mediaKeysObject (video s) = MKNull
      /\ keySessions s = [] /\ count isNetwork (effects s) = 0
  | AwaitCertificate _ _ =>
      (certificates = 1 /\ created = 0 /\ attached = 0)
      /\ mediaKeysObject (video s) = MKNull
  | AwaitMediaKeys _ _ _ =>
      (certificates <= 1 /\ created = 1 /\ attached = 0)
      /\ mediaKeysObject (video s) = MKNull
  | AwaitAttach =>
      (certificates <= 1 /\ created = 1 /\ attached = 1)
      /\ mediaKeysObject (video s) <> MKUndefined
  | Settled =>
      certificates <= 1 /\ created <= 1 /\ attached <= 1
      /\ mediaKeysObject (video s) <> MKUndefined
  end.

(** The negotiation of a surface that was marked by a call with
    [keySystems]: the keys requested are the first keys of that object,
    in its order, and at least one of them while the chain waits for the
    platform to answer. *)
Definition negotiation (keySystems : KeySystems) (m : Machine) : Prop :=
  mediaKeysObject (video (surface m)) <> MKUndefined
  /\ match chain m with
     | AwaitAccess c =>
         c_keySystems c = keySystems
         /\ exists n,
              S n <= length keySystems
              /\ requestedKeys (effects (surface m))
                 = firstn (S n) (map fst keySystems)
     | _ =>
         exists n,
           requestedKeys (effects (surface m))
           = firstn n (map fst keySystems)
     end.

(** The configuration of the first call of a run. *)
Fixpoint firstInvoked (ls : list Label) : KeySystems :=
  match ls with
  | [] => []
  | Invoke c :: _ => c_keySystems c
  | _ :: rest => firstInvoked rest
  end.

(** How many calls of a run take the creation path, that is, find
    [video.mediaKeysObject] undefined. *)
Fixpoint creationEntries (m : Machine) (ls : list Label) : nat :=
  match ls with
  | [] => 0
  | l :: rest =>
      match step m l with
      | Some m' =>
          match l, mediaKeysObject (video (surface m)) with
          | Invoke _, MKUndefined => 1
          | _, _ => 0
          end + creationEntries m' rest
      | None => 0
      end
  end.

(** [standardizeKeySystemOptions(video.keySystem,
    options.keySystems[video.keySystem])] returns for the call [c]: the
    key system is listed and its configuration names a licence source. *)
Definition acceptedFor (c : Call) (k : string) : bool :=
  match lookupKeySystem (c_keySystems c) k with
  | Some cfg => negb (throws (standardizeKeySystemOptions k cfg))
  | None => false
  end.

(** The [getLicense] argument the continuation of [c] passes to
    [addSession]: [null] while [video.keySystem] is not set. *)
Definition getLicenseFor (c : Call) (v : Video) : option Promisified :=
  match keySystem v with
  | None => None
  | Some k =>
      match lookupKeySystem (c_keySystems c) k with
      | Some cfg =>
          match standardizeKeySystemOptions k cfg with
          | Ok o => Some (mkPromisified (getLicense o) (c_eventBus c))
          | Throw _ => None
          end
      | None => None
      end
  end.

(** The continuation of [c] reaches [addSession]: building the argument
    does not throw. *)
Definition reachesAddSession (c : Call) (v : Video) : bool :=
  match keySystem v with
  | None => true
  | Some k => acceptedFor c k
  end.

(** Once the surface is marked, [video.pendingSessionData] is an array. *)
Definition queueReady (m : Machine) : Prop :=
  mediaKeysObject (video (surface m)) <> MKUndefined ->
  exists q, pendingSessionData (video (surface m)) = Some q.


(** ** Sample data

    Three buffers, the first two with the same content, used by the
    examples of Part II. *)

Definition sampleHeap : Heap :=
  fun r =>
    match r with
    | 1%nat => [x01; x02]
    | 2%nat => [x01; x02]
    | _ => [x03]
    end.

Definition sampleKeySystems : KeySystems :=
  [("com.widevine.alpha"%string,
    CfgString "https://license.example/widevine")].

Definition sampleEvent (r : ref) : EncryptedEvent :=
  mkEvent "cenc" (ArrayBuffer r).

Definition sampleSignal (r : ref) : RegistryOp :=
  Encrypted (sampleEvent r) sampleKeySystems (Some 0%nat) 0%nat
    "com.widevine.alpha".

Definition sampleCall (r : ref) : Call :=
  mkCall "cenc" (ArrayBuffer r) sampleKeySystems 0%nat (Some 0%nat).

Definition sampleAdd (r : ref) : AddSessionCall :=
  mkAddSessionCall "cenc" (ArrayBuffer r) None 0%nat (Some 0%nat).

(** A surface whose MediaKeys object is being created. *)
Definition creatingSurface : Surface :=
  mkSurface (mkVideo MKNull (Some []) None) [] [].

(** A first signal, a second one queued while the MediaKeys object is
    created, the creation completing, the first signal's continuation,
    and a third signal afterwards. *)
Definition sampleRun : list Label :=
  [Invoke (sampleCall 1); Invoke (sampleCall 3); RunTail 1;
   AccessGranted "com.widevine.alpha"; MediaKeysCreated 7;
   AttachSettled true; RunTail 0; Invoke (sampleCall 2); RunTail 0].

(** Two buffers that begin with the same two bytes, and a signal whose
    initialization data is a [Uint8Array] over the first two bytes of
    buffer [buffer]. *)
Definition viewHeap : Heap :=
  fun r =>
    match r with
    | 1%nat => [x01; x02; x09]
    | 2%nat => [x01; x02; x07]
    | _ => []
    end.

Definition viewSignal (self buffer : ref) : RegistryOp :=
  Encrypted (mkEvent "cenc" (Uint8Array self buffer 0 2)) sampleKeySystems
    (Some 0%nat) 0%nat "com.widevine.alpha".

(** A configuration that lists two key systems. *)
Definition twoKeySystems : KeySystems :=
  [("com.microsoft.playready"%string,
    CfgString "https://license.example/playready");
   ("com.widevine.alpha"%string,
    CfgString "https://license.example/widevine")].

(** A first signal whose negotiation goes through both key systems (the
    first is rejected, the second granted), a second signal queued
    meanwhile, the creation completing and the continuation of the first
    signal. *)
Definition negotiatedRun : list Label :=
  [Invoke (mkCall "cenc" (ArrayBuffer 1) twoKeySystems 0%nat (Some 0%nat));
   Invoke (sampleCall 3); RunTail 1; AccessDenied;
   AccessGranted "com.widevine.alpha"; MediaKeysCreated 7;
   AttachSettled true; RunTail 0].

(** A configuration with neither a URL nor a licence function, but with
    a certificate function. *)
Definition noLicenseConfig : KeySystemConfig :=
  CfgObject (mkOptions None None (Some 5%nat) None Undefined None None).

Definition rejectedCall : Call :=
  mkCall "cenc" (ArrayBuffer 1)
    [("com.widevine.alpha"%string, noLicenseConfig)] 0%nat (Some 0%nat).

(* ================================================================== *)
(** * Part I, continued: the rest of the plugin                        *)
(* ================================================================== *)

(** ** Key-system negotiation: the requests made *)

(** [systemOptions]: [audioCapabilities] and [videoCapabilities] are set
    from the content types of the key system's configuration that are
    truthy; a configuration that is a string has none. *)
Record SystemOptions : Type := mkSystemOptions {
  audioCapabilities : option string;
  videoCapabilities : option string
}.

Definition capability (contentType : option string) : option string :=
  if truthyString contentType then contentType else None.

Definition systemOptionsOf (cfg : KeySystemConfig) : SystemOptions :=
  match cfg with
  | CfgString _ => mkSystemOptions None None
  | CfgObject o =>
      mkSystemOptions (capability (audioContentType o))
        (capability (videoContentType o))
  end.

(** [requestMediaKeySystemAccess(keySystem, [systemOptions])] for one
    entry of [keySystems]. *)
Definition accessRequest (entry : string * KeySystemConfig)
  : string * SystemOptions :=
  (fst entry, systemOptionsOf (snd entry)).

(** The calls of [requestMediaKeySystemAccess] made by the promise that
    [getSupportedKeySystem] builds, in order: the first key is asked at
    once, each next key in the [.catch] of the promise before it, which
    runs only when that promise was rejected. *)
Fixpoint accessRequests (supported : string -> bool) (ks : KeySystems)
  : list (string * SystemOptions) :=
  match ks with
  | [] => []
  | (k, cfg) :: rest =>
      accessRequest (k, cfg)
        :: (if supported k then [] else accessRequests supported rest)
  end.

(** The answers of a platform to the requests of a negotiation, in
    order: a rejection for every key before the first one it supports,
    then the grant. *)
Fixpoint platformAnswers (supported : string -> bool) (ks : KeySystems)
  : list Label :=
  match ks with
  | [] => []
  | (k, _) :: rest =>
      if supported k then [AccessGranted k]
      else AccessDenied :: platformAnswers supported rest
  end.

(** ** Configuration: what [standardizeKeySystemOptions] starts from *)

(** The options object of a configuration ([{url: s}] for a string). *)
Definition optionsObject (cfg : KeySystemConfig) : KeySystemOptions :=
  match cfg with
  | CfgString s => urlOnly s
  | CfgObject o => o
  end.

(** The licence function built from a URL for a key system. *)
Definition defaultLicenseFn (k u : string) : LicenseFn :=
  if String.eqb k PLAYREADY_KEY_SYSTEM
  then DefaultPlayreadyGetLicense u
  else DefaultGetLicense u.

(** ** Buffers *)

(** [v instanceof ArrayBuffer]. *)
Definition isArrayBuffer (v : InitData) : bool :=
  match v with
  | ArrayBuffer _ => true
  | _ => false
  end.

(** ** Strings from buffers *)

(** [new Uint16Array(buffer)] on an ArrayBuffer: a RangeError unless the
    byte length is a multiple of 2; the elements are read in platform
    (little-endian) order. *)
Definition uint16ArrayOf (buffer : list byte) : Result Uint16Elements :=
  match codeUnitsOf buffer with
  | Some elements => Ok elements
  | None => Throw RangeError
  end.

(** [String.fromCharCode.apply(null, elements)]: every element is an
    argument of the one call, and the engine throws a RangeError when it
    is handed more arguments than it accepts.  [maxArguments] is that
    bound; it depends on the engine and on the stack that is left. *)
Definition fromCharCodes (maxArguments : nat) (elements : Uint16Elements)
  : Result JsString :=
  if length elements <=? maxArguments then Ok elements else Throw RangeError.

(** [uint8ArrayToString(array)], with [buffer] the bytes of
    [array.buffer]: [String.fromCharCode] of the elements of the
    [Uint16Array] made over the whole buffer. *)
Definition uint8ArrayToString (maxArguments : nat) (buffer : list byte)
  : Result JsString :=
  elements <- uint16ArrayOf buffer ;;
  fromCharCodes maxArguments elements.

(** The bytes of the buffer behind [stringToUint16Array(string)]. *)
Definition bufferOf (a : Uint16Elements) : list byte := flat_map u16le a.

(** ** The PlayReady path *)

(** [!!options.keySystems[k]]: a missing entry and the empty string are
    falsy. *)
Definition truthyConfig (c : option KeySystemConfig) : bool :=
  match c with
  | None => false
  | Some (CfgString s) => truthyString (Some s)
  | Some (CfgObject _) => true
  end.

(** [options.keySystems[k].pssh] of an entry that is there. *)
Definition configPssh (c : option KeySystemConfig) : InitData :=
  match c with
  | Some (CfgObject o) => pssh o
  | _ => Undefined
  end.

(** What the platform does when [msPrefixed] runs: whether [video.msKeys]
    is set beforehand, the exception (its [message]) thrown inside the
    [try] block if any, and whether [createSession] returns a session. *)
Record MsPlatform : Type := mkMsPlatform {
  ms_hasKeys : bool;
  ms_setKeysError : option string;
  ms_session : bool
}.

Inductive MsEffect : Type :=
| DeleteMsKeys
| MsSetMediaKeys
| MsCreateSession (v : InitData)
| MsAddEventListener (type : string)
| MsLogError (msg : string).

(** [createSession(video, initData, options, eventBus)]. *)
Definition createSession (v : InitData) (platform : MsPlatform)
  : list MsEffect :=
  MsCreateSession v
    :: (if ms_session platform
        then [MsAddEventListener "mskeymessage";
              MsAddEventListener "mskeyerror"]
        else [MsLogError "Could not create key session."]).

(** [msPrefixed({video, initData, options, eventBus})]. *)
Definition msPrefixed (v : InitData) (platform : MsPlatform)
  : list MsEffect :=
  (if ms_hasKeys platform then [DeleteMsKeys] else [])
    ++ match ms_setKeysError platform with
       | Some msg =>
           [MsLogError
              (String.append
                 "Unable to create media keys for PlayReady key system. Error: "
                 msg)]
       | None => MsSetMediaKeys :: createSession v platform
       end.

(** [sessions.reduce(function (acc, session) { return acc ||
    session.playready; }, false)], as a truth value. *)
Definition anyPlayready (sessions : list Session) : bool :=
  fold_left (fun acc session => acc || playready session) sessions false.

(** [handleMsNeedKeyEvent(event, options, sessions, eventBus)]: the
    registry afterwards, and what [msPrefixed] did if it was called. *)
Definition handleMsNeedKeyEvent (eventInitData : InitData)
  (options : Options) (sessions : list Session) (platform : MsPlatform)
  : list Session * option (list MsEffect) :=
  match keySystems options with
  | None => (sessions, None)
  | Some ks =>
      let playreadyConfig := lookupKeySystem ks PLAYREADY_KEY_SYSTEM in
      if negb (truthyConfig playreadyConfig) then (sessions, None)
      else if anyPlayready sessions then (sessions, None)
      else
        let v :=
          if truthy (configPssh playreadyConfig)
          then configPssh playreadyConfig
          else eventInitData in
        if negb (truthy v) then (sessions, None)
        else (sessions ++ [mkSession true v], Some (msPrefixed v platform))
  end.

(** What can change one registry array on a platform that delivers
    [msneedkey] events: such an event, or one of the changes of the
    standard path. *)
Inductive PlayerOp : Type :=
| MsNeedKey (eventInitData : InitData) (options : Options)
    (platform : MsPlatform)
| Standard (op : RegistryOp).

(** The registry, and the runs of [msPrefixed] so far (oldest first). *)
Definition applyPlayerOp (h : Heap)
  (st : list Session * list (list MsEffect)) (op : PlayerOp)
  : list Session * list (list MsEffect) :=
  match op with
  | MsNeedKey eventInitData options platform =>
      match handleMsNeedKeyEvent eventInitData options (fst st) platform with
      | (sessions', Some effs) => (sessions', snd st ++ [effs])
      | (sessions', None) => (sessions', snd st)
      end
  | Standard op' => (applyOp h (fst st) op', snd st)
  end.

Definition applyPlayerOps (h : Heap)
  (st : list Session * list (list MsEffect)) (ops : list PlayerOp)
  : list Session * list (list MsEffect) :=
  fold_left (applyPlayerOp h) ops st.

Definition playreadyEntries (sessions : list Session) : nat :=
  length (filter playready sessions).

Definition isClosed (op : PlayerOp) : bool :=
  match op with
  | Standard (Closed _) => true
  | _ => false
  end.

(** At most one PlayReady entry, and every PlayReady entry carries
    initialization data. *)
Definition playreadyInvariant (sessions : list Session) : Prop :=
  playreadyEntries sessions <= 1
  /\ forall s, In s sessions -> playready s = true ->
               truthy (initData s) = true.

(** A PlayReady configuration given as a URL. *)
Definition samplePlayready : Options :=
  mkEmeOptions
    (Some [(PLAYREADY_KEY_SYSTEM,
            CfgString "https://license.example/playready")]).


(** ** The FairPlay path *)

Definition FAIRPLAY_KEY_SYSTEM : string := "com.apple.fps.1_0".

(** The fields [fairplay] reads from
    [options.keySystems[FAIRPLAY_KEY_SYSTEM]]; [None] is an absent (or
    otherwise falsy) field. *)
Record FairplayOptions : Type := mkFairplayOptions {
  fo_getCertificate : option nat;
  fo_certificateUri : option string;
  fo_getContentId : option nat;
  fo_getLicense : option nat;
  fo_licenseUri : option string
}.




(** The [Uint8Array] a [webkitneedkey] event carries: the elements it
    covers, and all the bytes of its [buffer]. *)
Record Uint8View : Type := mkUint8View {
  u8_elements : list byte;
  u8_buffer : list byte
}.

(** What [getCertificate] passes to its callback: [(err, cert)]. *)
Record CertificateReply : Type := mkCertificateReply {
  cr_err : option string;
  cr_cert : option (list byte)
}.

(** What a promise of the FairPlay path is rejected with: a value passed
    to [reject], or an exception thrown in a callback. *)
Inductive Rejection : Type :=
| RejectedWith (reason : string)
| RejectedBy (e : JsError).

Inductive FpEffect : Type :=
| FpGetCertificate (hook : option nat) (certificateUri : option string)
| FpGetContentId (hook : nat)
| WebKitSetMediaKeys
| WebKitCreateSession (payload : list byte)
| WebKitAddEventListener (type : string)
| FpLogError (r : Rejection).

(** What the hooks and the platform answer during one run of
    [fairplay]: the reply of [getCertificate], the value of a custom
    [getContentId], the hostname of a URI ([getHostnameFromUri] asks the
    document), whether [video.webkitKeys] is set beforehand, whether it
    is set once [webkitSetMediaKeys] has been called, whether
    [createSession] returns a session, and how many arguments the engine
    accepts in one call. *)
Record FairplayPlatform : Type := mkFairplayPlatform {
  fw_certificate : CertificateReply;
  fw_customContentId : ContentId;
  fw_hostname : JsString -> JsString;
  fw_hasKeys : bool;
  fw_keysSet : bool;
  fw_session : bool;
  fw_maxArguments : nat
}.

(** [defaultGetContentId(emeOptions, initData)]. *)
Definition defaultGetContentId (maxArguments : nat)
  (hostname : JsString -> JsString) (v : Uint8View) : Result JsString :=
  uri <- uint8ArrayToString maxArguments (u8_buffer v) ;;
  Ok (hostname uri).

Inductive AddKeyState : Type :=
| AddKeyRejected (r : Rejection)
| AddKeyListening.

(** The executor of the promise [addKey] returns: the platform calls it
    makes, and whether it ends rejected or with a key session that its
    three listeners wait on.  A certificate that is [undefined] makes
    [concatInitDataIdAndCertificate] throw on [cert.byteLength]. *)
Definition addKey (w : FairplayPlatform) (contentId : ContentId)
  (v : Uint8View) (cert : option (list byte))
  : list FpEffect * AddKeyState :=
  let setKeys := if fw_hasKeys w then [] else [WebKitSetMediaKeys] in
  if negb (fw_hasKeys w || fw_keysSet w)
  then (setKeys, AddKeyRejected (RejectedWith "Could not create MediaKeys"))
  else
    match cert with
    | None => (setKeys, AddKeyRejected (RejectedBy TypeError))
    | Some c =>
        match concatInitDataIdAndCertificate (u8_elements v) contentId c with
        | Throw e => (setKeys, AddKeyRejected (RejectedBy e))
        | Ok payload =>
            if fw_session w
            then (setKeys
                    ++ [WebKitCreateSession payload;
                        WebKitAddEventListener "webkitkeymessage";
                        WebKitAddEventListener "webkitkeyadded";
                        WebKitAddEventListener "webkitkeyerror"],
                  AddKeyListening)
            else (setKeys ++ [WebKitCreateSession payload],
                  AddKeyRejected
                    (RejectedWith "Could not create key session"))
        end
    end.

(** The content id [fairplay] passes to [addKey]: a custom
    [getContentId]'s value, or the default one. *)
Definition contentIdFor (o : FairplayOptions) (w : FairplayPlatform)
  (v : Uint8View) : list FpEffect * Result ContentId :=
  match fo_getContentId o with
  | Some f => ([FpGetContentId f], Ok (fw_customContentId w))
  | None =>
      ([],
       uri <- defaultGetContentId (fw_maxArguments w) (fw_hostname w) v ;;
       Ok (IdString uri))
  end.

(** [fairplay({video, initData, options, eventBus})] up to the point
    where the promise is rejected (and the [.catch] logs the rejection)
    or a key session waits for its events. *)
Definition fairplay (o : FairplayOptions) (w : FairplayPlatform)
  (v : Uint8View) : list FpEffect * AddKeyState :=
  let fetch := FpGetCertificate (fo_getCertificate o) (fo_certificateUri o) in
  match cr_err (fw_certificate w) with
  | Some err =>
      ([fetch; FpLogError (RejectedWith err)],
       AddKeyRejected (RejectedWith err))
  | None =>
      let (idEffects, contentId) := contentIdFor o w v in
      match contentId with
      | Throw e =>
          (fetch :: idEffects ++ [FpLogError (RejectedBy e)],
           AddKeyRejected (RejectedBy e))
      | Ok id =>
          match addKey w id v (cr_cert (fw_certificate w)) with
          | (effs, AddKeyRejected r) =>
              (fetch :: idEffects ++ effs ++ [FpLogError r], AddKeyRejected r)
          | (effs, AddKeyListening) =>
              (fetch :: idEffects ++ effs, AddKeyListening)
          end
      end
  end.




(** ** The PlayReady licence request: the key message *)

(** A node of the parsed key message: character data, or an element with
    its child nodes. *)
#[warnings="-register-all"]
Inductive XmlNode : Type :=
| XmlText (nodeValue : string)
| XmlElement (tagName : string) (childNodes : list XmlNode).

(** The elements below a node, in document order. *)
Fixpoint descendantElements (n : XmlNode) : list XmlNode :=
  match n with
  | XmlText _ => []
  | XmlElement _ children =>
      flat_map
        (fun c =>
           match c with
           | XmlText _ => []
           | XmlElement _ _ => c :: descendantElements c
           end)
        children
  end.

Definition hasTagName (name : string) (n : XmlNode) : bool :=
  match n with
  | XmlElement t _ => String.eqb t name
  | XmlText _ => false
  end.

(** [node.getElementsByTagName(name)]. *)
Definition getElementsByTagName (name : string) (n : XmlNode)
  : list XmlNode :=
  filter (hasTagName name) (descendantElements n).

(** [element.childNodes[0].nodeValue]: a TypeError when there is no
    child node; [null] ([None]) when the first child is an element. *)
Definition firstChildValue (n : XmlNode) : Result (option string) :=
  match n with
  | XmlElement _ (XmlText v :: _) => Ok (Some v)
  | XmlElement _ (XmlElement _ _ :: _) => Ok None
  | _ => Throw TypeError
  end.

(** A value used as a property key or handed to [atob]: [null] becomes
    the string [null]. *)
Definition toStringValue (v : option string) : string :=
  match v with
  | Some s => s
  | None => "null"
  end.

(** The [headers] object: its properties in the order they were first
    set. *)
Definition Headers : Type := list (string * option string).

(** [headers[k] = v]. *)
Fixpoint setProperty (k : string) (v : option string) (headers : Headers)
  : Headers :=
  match headers with
  | [] => [(k, v)]
  | (k', v') :: rest =>
      if String.eqb k' k then (k, v) :: rest
      else (k', v') :: setProperty k v rest
  end.

(** [headers[k]], if the property is there. *)
Fixpoint getProperty (k : string) (headers : Headers)
  : option (option string) :=
  match headers with
  | [] => None
  | (k', v') :: rest =>
      if String.eqb k' k then Some v' else getProperty k rest
  end.

(** The loop of [getMessageContents] over [headerNames], with
    [headerNames] and [headerValues] from index [i] on: reading
    [headerValues[i].childNodes] past the end of [headerValues] is a
    TypeError. *)
Fixpoint headerLoop (headerNames headerValues : list XmlNode)
  (headers : Headers) : Result Headers :=
  match headerNames with
  | [] => Ok headers
  | name :: laterNames =>
      k <- firstChildValue name ;;
      match headerValues with
      | [] => Throw TypeError
      | value :: laterValues =>
          v <- firstChildValue value ;;
          headerLoop laterNames laterValues
            (setProperty (toStringValue k) v headers)
      end
  end.

Record MessageContents : Type := mkMessageContents {
  mc_headers : Headers;
  mc_message : option string
}.

(** [getMessageContents(message)], with [message] the bytes of the
    ArrayBuffer.  [maxArguments] is the number of arguments the engine
    accepts in the call of [String.fromCharCode.apply], [parseXml] is
    [DOMParser.parseFromString(_, 'application/xml')], giving the
    document node, and [atob] is [window.atob]. *)
Definition getMessageContents (maxArguments : nat)
  (parseXml : JsString -> XmlNode) (atob : string -> Result string)
  (messageBytes : list byte) : Result MessageContents :=
  elements <- uint16ArrayOf messageBytes ;;
  text <- fromCharCodes maxArguments elements ;;
  let xml := parseXml text in
  headers <-
    match getElementsByTagName "HttpHeaders" xml with
    | headersElement :: _ =>
        headerLoop (getElementsByTagName "name" headersElement)
          (getElementsByTagName "value" headersElement) []
    | [] => Ok []
    end ;;
  challenge <-
    match getElementsByTagName "Challenge" xml with
    | challengeElement :: _ =>
        v <- firstChildValue challengeElement ;;
        decoded <- atob (toStringValue v) ;;
        Ok (Some decoded)
    | [] => Ok None
    end ;;
  Ok (mkMessageContents headers challenge).

(** The request [requestPlayreadyLicense] hands to [videojs.xhr]
    (always a POST asking for an arraybuffer). *)
Record XhrRequest : Type := mkXhrRequest {
  xhr_uri : string;
  xhr_headers : Headers;
  xhr_body : option string
}.

(** [requestPlayreadyLicense(url, messageBuffer, callback)]: the request
    made, unless [getMessageContents] throws. *)
Definition requestPlayreadyLicense (maxArguments : nat)
  (parseXml : JsString -> XmlNode) (atob : string -> Result string)
  (uri : string) (messageBuffer : list byte) : Result XhrRequest :=
  contents <- getMessageContents maxArguments parseXml atob messageBuffer ;;
  Ok (mkXhrRequest uri (mc_headers contents) (mc_message contents)).

(** ** The PlayReady licence exchange *)

(** [playreadyOptions.url || event.destinationURL]. *)
Definition playreadyUrl (o : KeySystemOptions) (event : KeyMessage) : string :=
  if truthyString (url o)
  then match url o with Some u => u | None => EmptyString end
  else destinationURL event.

(** [addKeyToSession(options, session, event, eventBus)] (PlayReady),
    with [playreadyOptions = options.keySystems[PLAYREADY_KEY_SYSTEM]]
    and [message event] the bytes of [event.message.buffer]: the call
    made and the callback given to it, or the exception that ends the
    listener.  With a [getKey] function the hook is called and the
    function returns.  Otherwise [requestPlayreadyLicense] reads the key
    message first, and [videojs.xhr] is handed the request with the
    callback only if [getMessageContents] returns. *)
Definition addKeyToSession (maxArguments : nat)
  (parseXml : JsString -> XmlNode) (atob : string -> Result string)
  (playreadyOptions : KeySystemConfig) (event : KeyMessage)
  (eventBus : option nat)
  : Result (list Effect * (Reply -> list Effect)) :=
  let viaUrl (o : KeySystemOptions) :=
    let target := playreadyUrl o event in
    request <-
      requestPlayreadyLicense maxArguments parseXml atob target
        (message event) ;;
    Ok ([PostLicenseRequest (xhr_uri request)],
        fun r : Reply =>
          notifyAttempt eventBus
            ++ match r_err r with
               | Some _ =>
                   [LogError
                      (String.append "Unable to request key from url: "
                         target)]
               | None => [SessionUpdate (r_license r)]
               end) in
  match playreadyOptions with
  | CfgObject o =>
      match getKey o with
      | Some f =>
          Ok ([CallGetKey f (destinationURL event)],
              fun r : Reply =>
                match r_err r with
                | Some e => [LogError (String.append "Unable to get key: " e)]
                | None => [SessionUpdate (r_license r)]
                end)
      | None => viaUrl o
      end
  | CfgString s => viaUrl (urlOnly s)
  end.

(** The options object a PlayReady configuration stands for once a
    string has been turned into [{url: string}]. *)
Definition playreadyOptionsOf (cfg : KeySystemConfig) : KeySystemOptions :=
  match cfg with
  | CfgObject o => o
  | CfgString s => urlOnly s
  end.

(** The value the last of the pairs with key [k] gives to [k]. *)
Fixpoint lastValue (k : string) (pairs : list (string * option string))
  : option (option string) :=
  match pairs with
  | [] => None
  | (k', v) :: rest =>
      match lastValue k rest with
      | Some w => Some w
      | None => if String.eqb k' k then Some v else None
      end
  end.

(** The text of the first child of an element ([null] when there is no
    text there). *)
Definition childText (n : XmlNode) : option string :=
  match firstChildValue n with
  | Ok v => v
  | Throw _ => None
  end.

Definition hasChild (n : XmlNode) : bool :=
  match n with
  | XmlElement _ (_ :: _) => true
  | _ => false
  end.

(** ** The machine: further invariants *)

(** Every key session lives on the MediaKeys object that is attached to
    the video. *)
Definition sessionsOnAttached (m : Machine) : Prop :=
  forall ks, In ks (keySessions (surface m)) ->
             mediaKeysObject (video (surface m)) = MKObject (ks_mediaKeys ks).

Definition queueLength (v : Video) : nat :=
  match pendingSessionData v with
  | Some q => length q
  | None => 0
  end.

(** The signals the surface holds: as key sessions, in the pending
    queue, or as continuations that have not run yet. *)
Definition held (m : Machine) : nat :=
  length (keySessions (surface m)) + queueLength (video (surface m))
  + length (tails m).

Definition invocations (ls : list Label) : nat :=
  length (filter isInvoke ls).

(** The creation chain has ended without a MediaKeys object. *)
Definition creationHalted (m : Machine) : Prop :=
  chain m = Settled
  /\ mediaKeysObject (video (surface m)) = MKNull
  /\ keySessions (surface m) = [].

Definition isCreateSessionEffect (e : Effect) : bool :=
  match e with
  | CreateSession _ => true
  | _ => false
  end.

(** The property key a [name] element gives. *)
Definition headerKey (n : XmlNode) : string := toStringValue (childText n).

(** A PlayReady key message as the platform parses it: a challenge and
    two headers, the second of which repeats the name of the first. *)
Definition sampleKeyMessage : XmlNode :=
  XmlElement "#document"
    [XmlElement "PlayReadyKeyMessage"
       [XmlElement "LicenseAcquisition"
          [XmlElement "Challenge" [XmlText "Y2hhbGxlbmdl"];
           XmlElement "HttpHeaders"
             [XmlElement "HttpHeader"
                [XmlElement "name" [XmlText "Content-Type"];
                 XmlElement "value" [XmlText "text/plain"]];
              XmlElement "HttpHeader"
                [XmlElement "name" [XmlText "SOAPAction"];
                 XmlElement "value" [XmlText "AcquireLicense"]];
              XmlElement "HttpHeader"
                [XmlElement "name" [XmlText "Content-Type"];
                 XmlElement "value" [XmlText "text/xml"]]]]]].

(** Key sessions and the MediaKeys object they were made on: every key
    session, and every [createSession] call, is on the object kept in
    [video.mediaKeysObject], and each key session stands for one
    [createSession] call. *)
Definition surfaceInvariant (s : Surface) : Prop :=
  (forall ks, In ks (keySessions s) ->
              mediaKeysObject (video s) = MKObject (ks_mediaKeys ks))
  /\ (forall mk, In (CreateSession mk) (effects s) ->
                 mediaKeysObject (video s) = MKObject mk)
  /\ count isCreateSessionEffect (effects s) = length (keySessions s).

(** A run in which the platform denies access: two signals, the second
    one arriving after the denial. *)
Definition deniedRun : list Label :=
  [Invoke (sampleCall 1); AccessDenied; RunTail 0; Invoke (sampleCall 3);
   RunTail 0].

(** ** The plugin API: [initializeMediaKeys] *)

(** What the video element offers: [setMediaKeys], else
    [msSetMediaKeys], else neither. *)
Inductive ElementKind : Type :=
| HasSetMediaKeys
| HasMsSetMediaKeys
| HasNeither.

(** What happens to the [callback] of [initializeMediaKeys]: it is never
    called; the call throws before it could be; it is called without an
    argument; it is called with the platform's rejection; it is called
    with an exception thrown in the callback of [handleEncryptedEvent];
    or it is called once the promise of [standard5July2016] for [c]
    settles. *)
Inductive CallbackFate : Type :=
| NeverCalled
| CallThrows (e : JsError)
| CalledPlainly
| CalledWithRejection
| CalledWithError (e : JsError)
| CalledAfter (c : Call).

(** [mockEncryptedEvent]. *)
Definition mockEncryptedEvent : EncryptedEvent := mkEvent "cenc" Null.

(** [player.eme.initializeMediaKeys(emeOptions, callback)], with
    [mergedEmeOptions] the merged options: the player afterwards, what
    [msPrefixed] did if it ran, and the fate of the callback.
    [registry] names the array [player.eme.sessions] is after
    [setupSessions]. *)
Definition initializeMediaKeys (supported : string -> bool) (h : Heap)
  (kind : ElementKind) (mergedEmeOptions : Options) (eventBus : nat)
  (registry : nat) (platform : MsPlatform) (p : Player)
  : Player * option (list MsEffect) * CallbackFate :=
  let p1 := setupSessions p in
  match kind with
  | HasSetMediaKeys =>
      let (sessions', handled) :=
        handleEncryptedEvent supported h mockEncryptedEvent
          (Some mergedEmeOptions) (Some eventBus) registry
          (eme_sessions p1) in
      (mkPlayer (src p1) (eme_activeSrc p1) sessions' (el p1), None,
       match handled with
       | Silent => CalledPlainly
       | ThrownAtOnce e => CallThrows e
       | AccessRejected => CalledWithRejection
       | Called Ignored => CalledPlainly
       | Called (Acquire c) => CalledAfter c
       | Called (Raised e) => CalledWithError e
       end)
  | HasMsSetMediaKeys =>
      let (sessions', ran) :=
        handleMsNeedKeyEvent (ev_initData mockEncryptedEvent)
          mergedEmeOptions (eme_sessions p1) platform in
      (mkPlayer (src p1) (eme_activeSrc p1) sessions' (el p1), ran,
       CalledPlainly)
  | HasNeither => (p1, None, NeverCalled)
  end.

(** No key system of the configuration carries a [pssh]. *)
Definition withoutPssh (ks : KeySystems) : bool :=
  forallb (fun entry => negb (truthy (configPssh (Some (snd entry))))) ks.

(** ** The plugin glue: registries by identity

    [setupSessions] does not empty the registry array, it makes a new
    one: a callback that was handed the old array keeps writing to the
    old array.  Here the arrays are told apart: [rg_arrays] holds every
    array made so far, array [n] being the [n]-th, and [rg_sessions]
    names the one [player.eme.sessions] is ([None] before the first
    [setupSessions]). *)
Record Registries : Type := mkRegistries {
  rg_activeSrc : option string;
  rg_sessions : option nat;
  rg_arrays : list (list Session)
}.

Definition newRegistries : Registries := mkRegistries None None [].

Definition registryAt (r : Registries) (a : nat) : list Session :=
  nth a (rg_arrays r) [].

(** The content of [player.eme.sessions]. *)
Definition currentRegistry (r : Registries) : list Session :=
  match rg_sessions r with
  | Some a => registryAt r a
  | None => []
  end.

(** [setupSessions(player)], with [currentSrc] the value of
    [player.src()]. *)
Definition setupSessionsByName (currentSrc : string) (r : Registries)
  : Registries :=
  if differsFrom currentSrc (rg_activeSrc r)
  then mkRegistries (Some currentSrc) (Some (length (rg_arrays r)))
         (rg_arrays r ++ [[]])
  else r.

(** Array [a] changed in place. *)
Fixpoint setNth {A : Type} (a : nat) (x : A) (l : list A) : list A :=
  match l, a with
  | [], _ => []
  | _ :: rest, O => x :: rest
  | y :: rest, S a' => y :: setNth a' x rest
  end.

Definition writeRegistry (r : Registries) (a : nat)
  (sessions : list Session) : Registries :=
  mkRegistries (rg_activeSrc r) (rg_sessions r) (setNth a sessions (rg_arrays r)).

(** A [.then] callback of [handleEncryptedEvent] that waits for the
    platform's answer, with what it closes over: the event, the
    configuration, the registry array it was handed and the event bus. *)
Record Waiting : Type := mkWaiting {
  wt_event : EncryptedEvent;
  wt_keySystems : KeySystems;
  wt_array : nat;
  wt_eventBus : option nat
}.

(** The registries, the callbacks that wait, and the calls of
    [standard5July2016] made so far. *)
Record Glue : Type := mkGlue {
  registries : Registries;
  waiting : list Waiting;
  acquisitions : list Call
}.

Definition newGlue : Glue := mkGlue newRegistries [] [].

(** The [encrypted] listener of [onPlayerReady]: [setupSessions], then
    [handleEncryptedEvent] with the array [player.eme.sessions] then is.
    Without [keySystems] nothing waits; with no key system listed the
    call throws. *)
Definition encryptedListener (currentSrc : string) (event : EncryptedEvent)
  (options : Options) (eventBus : option nat) (g : Glue) : Glue :=
  let r := setupSessionsByName currentSrc (registries g) in
  match keySystems options, rg_sessions r with
  | Some (entry :: rest), Some a =>
      mkGlue r (waiting g ++ [mkWaiting event (entry :: rest) a eventBus])
        (acquisitions g)
  | _, _ => mkGlue r (waiting g) (acquisitions g)
  end.

(** The platform answers the negotiation the [i]-th waiting callback
    depends on: the callback runs on its array when a key system is
    granted, and is dropped when none is. *)
Definition accessSettles (h : Heap) (i : nat) (supported : string -> bool)
  (g : Glue) : Glue :=
  match nth_error (waiting g) i with
  | None => g
  | Some w =>
      match firstSupported supported (wt_keySystems w) with
      | None => mkGlue (registries g) (removeNth i (waiting g)) (acquisitions g)
      | Some k =>
          let (sessions', out) :=
            encryptedCallback h (wt_event w) (wt_keySystems w)
              (wt_eventBus w) (wt_array w)
              (registryAt (registries g) (wt_array w)) k in
          mkGlue (writeRegistry (registries g) (wt_array w) sessions')
            (removeNth i (waiting g))
            (acquisitions g
               ++ match out with
                  | Acquire c => [c]
                  | _ => []
                  end)
      end
  end.

(** The [removeSession] callback bound to array [a] runs for [v]. *)
Definition sessionCloses (a : nat) (v : InitData) (g : Glue) : Glue :=
  mkGlue
    (writeRegistry (registries g) a
       (removeSession (registryAt (registries g) a) v))
    (waiting g) (acquisitions g).

Inductive GlueEvent : Type :=
| EncryptedArrives (currentSrc : string) (event : EncryptedEvent)
    (options : Options) (eventBus : option nat)
| AccessSettles (i : nat) (supported : string -> bool)
| SessionCloses (a : nat) (v : InitData).

Definition glueStep (h : Heap) (g : Glue) (e : GlueEvent) : Glue :=
  match e with
  | EncryptedArrives currentSrc event options eventBus =>
      encryptedListener currentSrc event options eventBus g
  | AccessSettles i supported => accessSettles h i supported g
  | SessionCloses a v => sessionCloses a v g
  end.

Definition glueRun (h : Heap) (g : Glue) (events : list GlueEvent) : Glue :=
  fold_left (glueStep h) events g.

(** [player.eme.sessions] is an array that was made, and is set as soon
    as [player.eme.activeSrc] is. *)
Definition registriesNamed (r : Registries) : Prop :=
  match rg_sessions r with
  | Some a => a < length (rg_arrays r)
  | None => rg_activeSrc r = None
  end.

(** Every array named is one that was made, and no array holds two
    entries with the same bytes. *)
Definition glueInvariant (h : Heap) (g : Glue) : Prop :=
  registriesNamed (registries g)
  /\ (forall w, In w (waiting g) ->
                wt_array w < length (rg_arrays (registries g)))
  /\ (forall sessions, In sessions (rg_arrays (registries g)) ->
                       NoDup (fingerprints h sessions))
  /\ (forall c, In c (acquisitions g) ->
                c_removeSession c < length (rg_arrays (registries g))).

(** Two events of one source whose callbacks still wait. *)
Definition sampleGlueEvents : list GlueEvent :=
  [EncryptedArrives "a.mpd" (sampleEvent 1)
     (mkEmeOptions (Some sampleKeySystems)) (Some 0);
   EncryptedArrives "a.mpd" (sampleEvent 3)
     (mkEmeOptions (Some sampleKeySystems)) (Some 0);
   AccessSettles 0 (fun _ => true)].

(** ** The plugin: the registries and the surface together

    The callback of an encrypted event calls [standard5July2016] on the
    video element of the player, with [removeSession] bound to the
    registry array the callback was handed; a key session that reports
    an expired key is closed, and then calls the [removeSession] it was
    made with.  Here the registries (by identity) and the one playback
    surface of the player evolve together. *)
Record Plugin : Type := mkPlugin {
  pg_glue : Glue;
  pg_machine : Machine
}.

Definition newPlugin : Plugin := mkPlugin newGlue newMachine.

(** What happens to a player: an encrypted event arrives; the platform
    answers the negotiation a callback of [handleEncryptedEvent] waits
    for; the surface takes a turn of its own (anything but a call, which
    only the callbacks make); the [i]-th key session receives a
    [keystatuseschange] event and, if it closes the session, the platform
    completes the close. *)
Inductive PluginEvent : Type :=
| Arrives (currentSrc : string) (event : EncryptedEvent) (options : Options)
    (eventBus : option nat)
| Settles (i : nat) (supported : string -> bool)
| Turn (l : Label)
| StatusesChange (i : nat) (keyStatuses : list (nat * MediaKeyStatus)).

Definition pluginStep (h : Heap) (p : Plugin) (e : PluginEvent) : Plugin :=
  match e with
  | Arrives currentSrc event options eventBus =>
      mkPlugin (encryptedListener currentSrc event options eventBus (pg_glue p))
        (pg_machine p)
  | Settles i supported =>
      let g' := accessSettles h i supported (pg_glue p) in
      let calls :=
        skipn (length (acquisitions (pg_glue p))) (acquisitions g') in
      mkPlugin g'
        (fold_left (fun m c => standard5July2016 c m) calls (pg_machine p))
  | Turn l =>
      match l with
      | Invoke _ => p
      | _ =>
          match step (pg_machine p) l with
          | Some m' => mkPlugin (pg_glue p) m'
          | None => p
          end
      end
  | StatusesChange i keyStatuses =>
      match nth_error (keySessions (surface (pg_machine p))) i with
      | None => p
      | Some ks =>
          let (effs, closes) := onKeyStatusesChange ks keyStatuses in
          mkPlugin
            (if closes
             then sessionCloses (ks_removeSession ks) (ks_initData ks)
                    (pg_glue p)
             else pg_glue p)
            (mkMachine (performAll effs (surface (pg_machine p)))
               (chain (pg_machine p)) (tails (pg_machine p)))
      end
  end.

Definition pluginRun (h : Heap) (p : Plugin) (events : list PluginEvent)
  : Plugin :=
  fold_left (pluginStep h) events p.

(** A source change while the MediaKeys object is being created.  A
    signal of [a.mpd] is registered and starts the creation; the source
    changes; a signal of [b.mpd] is registered in the new registry and
    its pair is queued; the creation completes and the queue is drained;
    the continuation of the first signal runs. *)
Definition sourceChangeRun : list PluginEvent :=
  [Arrives "a.mpd" (sampleEvent 1) (mkEmeOptions (Some sampleKeySystems))
     (Some 0);
   Settles 0 (fun _ => true);
   Arrives "b.mpd" (sampleEvent 3) (mkEmeOptions (Some sampleKeySystems))
     (Some 0);
   Settles 0 (fun _ => true);
   Turn (RunTail 1);
   Turn (AccessGranted "com.widevine.alpha");
   Turn (MediaKeysCreated 7);
   Turn (AttachSettled true);
   Turn (RunTail 0)].

(** Every key session has a licence function to call, notifying the bus
    the session was made with; and the key system is known wherever a
    licence function is needed. *)
Definition licenceInvariant (m : Machine) : Prop :=
  let s := surface m in
  (forall ks, In ks (keySessions s) ->
              exists f, ks_getLicense ks
                        = Some (mkPromisified (Some f) (ks_eventBus ks)))
  /\ match chain m with
     | AwaitCertificate _ o | AwaitMediaKeys _ o _ =>
         keySystem (video s) <> None /\ isSome (getLicense o) = true
     | AwaitAttach => keySystem (video s) <> None
     | _ =>
         forall mk, mediaKeysObject (video s) = MKObject mk ->
                    keySystem (video s) <> None
     end.

(** ** Runs in which no call is turned away

    A continuation is turned away when [video.keySystem] is set and
    [standardizeKeySystemOptions] throws on the configuration of its own
    call; the first call, also when its configuration lists no key
    system. *)

(** The configuration of [c] is accepted for every key system granted
    in the run. *)
Definition acceptedThroughout (ls : list Label) (c : Call) : bool :=
  forallb (fun l => match l with
                    | AccessGranted k => acceptedFor c k
                    | _ => true
                    end) ls.

(** Every call of the run lists a key system and is accepted for every
    key system granted in the run. *)
Definition servable (ls : list Label) : bool :=
  forallb (fun l => match l with
                    | Invoke c =>
                        match c_keySystems c with
                        | [] => false
                        | _ :: _ => acceptedThroughout ls c
                        end
                    | _ => true
                    end) ls.

(** What holds of a marked surface in such a run, [allowed] being the
    calls of the run and [grantable] the key systems granted in it. *)
Definition servingInvariant (allowed : Call -> Prop)
  (grantable : string -> Prop) (m : Machine) : Prop :=
  mediaKeysObject (video (surface m)) <> MKUndefined
  /\ (exists q, pendingSessionData (video (surface m)) = Some q)
  /\ (forall mk, mediaKeysObject (video (surface m)) = MKObject mk ->
                 pendingSessionData (video (surface m)) = Some [])
  /\ (forall t, In t (tails m) -> allowed (t_call t))
  /\ (forall k, keySystem (video (surface m)) = Some k -> grantable k).

Definition labelAllowed (allowed : Call -> Prop) (grantable : string -> Prop)
  (l : Label) : Prop :=
  match l with
  | Invoke c => allowed c
  | AccessGranted k => grantable k
  | _ => True
  end.

(** ** More sample data *)

(** A configuration that carries a [pssh]. *)
Definition psshKeySystems : KeySystems :=
  [("com.widevine.alpha"%string,
    CfgObject
      (mkOptions (Some "https://license.example/widevine"%string) None None
         None (ArrayBuffer 1) None None))].

(** The options [standardizeKeySystemOptions] returns for
    [sampleKeySystems]. *)
Definition sampleStandardized : KeySystemOptions :=
  mkOptions (Some "https://license.example/widevine"%string)
    (Some (DefaultGetLicense "https://license.example/widevine"))
    None None Undefined None None.

(** A FairPlay run in which everything is there. *)
Definition sampleFairplayOptions : FairplayOptions :=
  mkFairplayOptions (Some 1) None (Some 2) None
    (Some "https://license.example/fairplay"%string).

Definition sampleFairplayPlatform : FairplayPlatform :=
  mkFairplayPlatform (mkCertificateReply None (Some [x03]))
    (IdString [97%Z]) (fun uri => uri) false true true 1000.

Definition sampleFairplayInitData : Uint8View :=
  mkUint8View [x01; x02] [x01; x02].

(** ** Signals: what a surface holds, and what it was given *)

(** The pair a call, a key session or a queue entry stands for. *)
Definition signalOf (c : Call) : PendingData :=
  mkPending (c_initDataType c) (c_initData c).

Definition sessionSignal (ks : KeySession) : PendingData :=
  mkPending (ks_initDataType ks) (ks_initData ks).

Definition queueOf (v : Video) : list PendingData :=
  match pendingSessionData v with
  | Some q => q
  | None => []
  end.

(** The signals of the key sessions, of the pending queue and of the
    continuations that have not run yet. *)
Definition heldSignals (m : Machine) : list PendingData :=
  map sessionSignal (keySessions (surface m))
    ++ queueOf (video (surface m))
    ++ map (fun t => signalOf (t_call t)) (tails m).

Definition invokedSignal (l : Label) : list PendingData :=
  match l with
  | Invoke c => [signalOf c]
  | _ => []
  end.

Definition invokedSignals (ls : list Label) : list PendingData :=
  flat_map invokedSignal ls.

Definition InitData_eq_dec (a b : InitData) : {a = b} + {a <> b}.
Proof. decide equality; apply Nat.eq_dec. Defined.

Definition PendingData_eq_dec (a b : PendingData) : {a = b} + {a <> b}.
Proof. decide equality; [apply InitData_eq_dec | apply string_dec]. Defined.

(** How many times a signal occurs in a list. *)
Definition occurrences (x : PendingData) (l : list PendingData) : nat :=
  count_occ PendingData_eq_dec l x.

(** ** Key statuses: what the listener reports *)

Definition statusReport (entry : nat * MediaKeyStatus) : Effect :=
  Trigger (keystatuschange (fst entry) (snd entry)).

Definition isStatusReport (e : Effect) : bool :=
  match e with
  | Trigger (keystatuschange _ _) => true
  | _ => false
  end.

Definition isInternalError (entry : nat * MediaKeyStatus) : bool :=
  match snd entry with
  | internal_error => true
  | _ => false
  end.

Definition isLogWarn (e : Effect) : bool :=
  match e with
  | LogWarn _ => true
  | _ => false
  end.

(** The callbacks of encrypted events that arrive under one
    configuration [ks] and are granted the key system [k]; an arrival is
    the event, the event bus and the name of the registry. *)
Definition callbacksFor (ks : KeySystems) (k : string)
  (arrivals : list (EncryptedEvent * option nat * nat)) : list RegistryOp :=
  map (fun a => Encrypted (fst (fst a)) ks (snd (fst a)) (snd a) k) arrivals.

(* ================================================================== *)
(** * Part II: lemmas and theorems                                     *)
(* ================================================================== *)

Open Scope Z_scope.

(** ** Bytes *)

Lemma byteToZ_byteOfZ (z : Z) : byteToZ (byteOfZ z) = z mod 256.
Proof.
  unfold byteToZ, byteOfZ.
  assert (Hr : 0 <= z mod 256 < 256) by (apply Z.mod_pos_bound; lia).
  destruct (Byte.of_N (Z.to_N (z mod 256))) as [b|] eqn:E.
  - apply Byte.to_of_N in E. rewrite E. lia.
  - apply Byte.of_N_None_iff in E. lia.
Qed.

Lemma toUint16_idem (v : Z) : toUint16 (toUint16 v) = toUint16 v.
Proof. unfold toUint16. apply Z.mod_mod. lia. Qed.

Lemma toUint16_codeUnit (c : Z) : codeUnit c -> toUint16 c = c.
Proof. unfold codeUnit, toUint16. intros H. apply Z.mod_small. lia. Qed.

Lemma length_u32le (v : Z) : length (u32le v) = 4%nat.
Proof. reflexivity. Qed.

Lemma length_units (a : list Z) :
  length (flat_map u16le a) = (2 * length a)%nat.
Proof.
  induction a as [|c a IH]; simpl; [reflexivity | rewrite IH; lia].
Qed.

Lemma units_stringToUint16Array (s : JsString) :
  flat_map u16le (stringToUint16Array s) = flat_map u16le s.
Proof.
  unfold stringToUint16Array.
  induction s as [|c s IH]; simpl; [reflexivity|].
  rewrite IH. f_equal. f_equal. all: now rewrite toUint16_idem.
Qed.

Lemma getUint32_u32le (v : Z) (rest : list byte) :
  getUint32 (u32le v ++ rest) = Some (toUint32 v).
Proof.
  unfold u32le, getUint32. cbn [app].
  rewrite !byteToZ_byteOfZ, !Z.shiftr_div_pow2 by lia.
  f_equal. unfold toUint32.
  assert (Hr : 0 <= v mod 4294967296 < 4294967296)
    by (apply Z.mod_pos_bound; lia).
  set (u := v mod 4294967296) in *.
  change (2 ^ 8) with 256. change (2 ^ 16) with 65536.
  change (2 ^ 24) with 16777216.
  assert (E16 : u / 65536 = u / 256 / 256)
    by (rewrite Z.div_div by lia; reflexivity).
  assert (E24 : u / 16777216 = u / 256 / 256 / 256)
    by (rewrite !Z.div_div by lia; reflexivity).
  rewrite E16, E24.
  pose proof (Z.div_mod u 256 ltac:(lia)).
  pose proof (Z.div_mod (u / 256) 256 ltac:(lia)).
  pose proof (Z.div_mod (u / 256 / 256) 256 ltac:(lia)).
  assert (u / 256 / 256 / 256 < 256).
  { apply Z.div_lt_upper_bound; [lia|].
    apply Z.div_lt_upper_bound; [lia|].
    apply Z.div_lt_upper_bound; lia. }
  assert (0 <= u / 256 / 256 / 256).
  { repeat apply Z.div_pos; lia. }
  rewrite (Z.mod_small (u / 256 / 256 / 256) 256) by lia.
  lia.
Qed.

Lemma codeUnitsOf_units (cs : list Z) :
  codeUnitsOf (flat_map u16le cs) = Some (map toUint16 cs).
Proof.
  induction cs as [|c cs IH]; [reflexivity|].
  cbn [flat_map u16le app codeUnitsOf map]. rewrite IH. f_equal. f_equal.
  rewrite !byteToZ_byteOfZ, Z.shiftr_div_pow2 by lia.
  change (2 ^ 8) with 256.
  assert (Hr : 0 <= toUint16 c < 65536)
    by (apply Z.mod_pos_bound; lia).
  set (u := toUint16 c) in *.
  pose proof (Z.div_mod u 256 ltac:(lia)).
  assert (0 <= u / 256 < 256).
  { split; [apply Z.div_pos; lia | apply Z.div_lt_upper_bound; lia]. }
  rewrite (Z.mod_small (u / 256) 256) by lia. lia.
Qed.

Lemma map_toUint16_codeUnits (cs : list Z) :
  Forall codeUnit cs -> map toUint16 cs = cs.
Proof.
  induction 1 as [|c cs Hc _ IH]; simpl; [reflexivity|].
  now rewrite IH, toUint16_codeUnit.
Qed.

(** ** Writes into the fresh buffer *)

Lemma skipn_repeat_x00 (n k : nat) :
  skipn n (repeat x00 k) = repeat x00 (k - n).
Proof.
  revert k; induction n as [|n IH]; intros k.
  - now rewrite Nat.sub_0_r.
  - destruct k; simpl; [reflexivity | apply IH].
Qed.

(** A write just after the part written so far: the written part grows,
    the zero-filled rest shrinks. *)
Lemma blit_fresh (written data : list byte) (k : nat) :
  blit (written ++ repeat x00 k) (length written) data
  = (written ++ data) ++ repeat x00 (k - length data).
Proof.
  unfold blit.
  rewrite firstn_app, firstn_all, Nat.sub_diag, firstn_O, app_nil_r.
  rewrite skipn_app, skipn_all2 by lia.
  replace (length written + length data - length written)%nat
    with (length data) by lia.
  rewrite skipn_repeat_x00. now rewrite <- app_assoc.
Qed.

(** ** The FairPlay payload *)

Definition idElements (id : ContentId) : Uint16Elements :=
  match id with
  | IdString s => stringToUint16Array s
  | IdUint16Array a => a
  end.

Create Rewrite HintDb buflen.
#[local] Hint Rewrite length_app repeat_length length_units length_u32le
  : buflen.

Ltac leb_holds :=
  match goal with
  | |- context [(?a <=? ?b)%nat] =>
      let H := fresh "Hle" in
      assert (H : (a <=? b)%nat = true)
        by (apply Nat.leb_le; autorewrite with buflen; simpl; lia);
      rewrite H; clear H
  end.

(** What the function returns, for any id: the layout when [initData] has
    an even number of bytes, and a RangeError from the [Uint16Array]
    constructor when it has an odd number. *)
Lemma concat_cases (initData : list byte) (id : ContentId) (cert : list byte) :
  concatInitDataIdAndCertificate initData id cert
  = if Nat.even (length initData)
    then Ok (initData
               ++ u32le (Z.of_nat (2 * length (idElements id)))
               ++ flat_map u16le (idElements id)
               ++ u32le (Z.of_nat (length cert))
               ++ cert)
    else Throw RangeError.
Proof.
  unfold concatInitDataIdAndCertificate. fold (idElements id).
  set (a := idElements id). unfold byteLength16, newArrayBuffer.
  unfold newUint8Array at 1. leb_holds. cbn [bind].
  unfold set8 at 1. cbn [viewLength byteOffset]. leb_holds. cbn [bind].
  match goal with
  | |- context [blit (repeat x00 ?n) 0%nat initData] =>
      change (blit (repeat x00 n) 0%nat initData)
        with (blit ([] ++ repeat x00 n) (length (@nil byte)) initData)
  end.
  rewrite blit_fresh. cbn [app].
  unfold setUint32 at 1. leb_holds. cbn [bind].
  change (0 + length initData)%nat with (length initData).
  rewrite blit_fresh.
  unfold newUint16Array.
  replace (Nat.even (length initData + 4))
    with (Nat.even (length initData))
    by (rewrite Nat.even_add; destruct (Nat.even (length initData));
        reflexivity).
  destruct (Nat.even (length initData)) eqn:Heven; cbn [negb bind];
    [|reflexivity].
  leb_holds. cbn [bind].
  unfold set16. cbn [viewLength byteOffset]. leb_holds. cbn [bind].
  replace (length initData + 4)%nat
    with (length (initData ++ u32le (Z.of_nat (2 * length a))))
    by (autorewrite with buflen; lia).
  rewrite blit_fresh.
  unfold setUint32. 
  replace (length (initData ++ u32le (Z.of_nat (2 * length a)))
           + 2 * length a)%nat
    with (length ((initData ++ u32le (Z.of_nat (2 * length a)))
                    ++ flat_map u16le a))
    by (autorewrite with buflen; lia).
  leb_holds. cbn [bind]. rewrite blit_fresh.
  unfold newUint8Array.
  replace (length ((initData ++ u32le (Z.of_nat (2 * length a)))
                     ++ flat_map u16le a) + 4)%nat
    with (length (((initData ++ u32le (Z.of_nat (2 * length a)))
                     ++ flat_map u16le a)
                    ++ u32le (Z.of_nat (length cert))))
    by (autorewrite with buflen; lia).
  leb_holds. cbn [bind].
  unfold set8. cbn [viewLength byteOffset]. leb_holds. cbn [bind].
  rewrite blit_fresh.
  match goal with
  | |- context [repeat x00 ?n] =>
      replace n with 0%nat by (autorewrite with buflen; simpl; lia)
  end.
  cbn [repeat]. rewrite app_nil_r, <- !app_assoc. reflexivity.
Qed.

Lemma firstn_length_app {A : Type} (l r : list A) :
  firstn (length l) (l ++ r) = l.
Proof.
  rewrite firstn_app, firstn_all, Nat.sub_diag, firstn_O. apply app_nil_r.
Qed.

Lemma skipn_length_app {A : Type} (l r : list A) :
  skipn (length l) (l ++ r) = r.
Proof.
  rewrite skipn_app, skipn_all, Nat.sub_diag. reflexivity.
Qed.

Lemma toUint32_small (n : nat) :
  Z.of_nat n < 4294967296 -> toUint32 (Z.of_nat n) = Z.of_nat n.
Proof. intros H. unfold toUint32. apply Z.mod_small. lia. Qed.

(** Reading the layout back gives the three parts, when the code units
    are code units and the two lengths fit their four bytes. *)
Lemma decodePayload_layout (initData : list byte) (id : JsString)
  (cert : list byte) :
  Forall codeUnit id ->
  Z.of_nat (2 * length id) < 4294967296 ->
  Z.of_nat (length cert) < 4294967296 ->
  decodePayload (length initData) (payloadLayout initData id cert)
  = Some (initData, id, cert).
Proof.
  intros Hid Hidlen Hcertlen.
  unfold decodePayload, payloadLayout.
  assert (Hlt : (length (initData ++ u32le (Z.of_nat (2 * length id))
                          ++ flat_map u16le id
                          ++ u32le (Z.of_nat (length cert)) ++ cert)
                 <? length initData)%nat = false)
    by (apply Nat.ltb_ge; rewrite length_app; lia).
  rewrite Hlt, firstn_length_app, skipn_length_app, getUint32_u32le.
  rewrite toUint32_small by assumption. rewrite Nat2Z.id.
  change (skipn 4 (u32le ?v ++ ?r)) with r.
  assert (Hlt2 : (length (flat_map u16le id
                           ++ u32le (Z.of_nat (length cert)) ++ cert)
                  <? 2 * length id)%nat = false)
    by (apply Nat.ltb_ge; rewrite length_app, length_units; lia).
  rewrite Hlt2, <- (length_units id).
  rewrite firstn_length_app, skipn_length_app.
  rewrite codeUnitsOf_units, map_toUint16_codeUnits by assumption.
  rewrite getUint32_u32le, toUint32_small by assumption.
  change (skipn 4 (u32le ?v ++ ?r)) with r.
  rewrite Nat2Z.id, Nat.eqb_refl. reflexivity.
Qed.




(** C8 (amended).  For initialization data of an even number of bytes,
    any content-identifier string and any certificate, the function
    returns the layout: the initialization data, the id's byte length on
    four little-endian bytes, the id as UTF-16 code units, the
    certificate's byte length on four little-endian bytes, the
    certificate; and reading that layout back, when both byte lengths
    fit their four bytes, gives back the three parts. *)
Theorem concatInitDataIdAndCertificate_layout_roundtrip
  (initData : list byte) (id : JsString) (cert : list byte) :
  Nat.even (length initData) = true ->
  Forall codeUnit id ->
  Z.of_nat (2 * length id) < 4294967296 ->
  Z.of_nat (length cert) < 4294967296 ->
  concatInitDataIdAndCertificate initData (IdString id) cert
  = Ok (payloadLayout initData id cert)
  /\ decodePayload (length initData) (payloadLayout initData id cert)
     = Some (initData, id, cert).
Proof.
  intros Heven Hid Hidlen Hcertlen. split.
  - rewrite concat_cases, Heven. cbn [idElements]. unfold payloadLayout.
    rewrite units_stringToUint16Array. unfold stringToUint16Array.
    now rewrite length_map.
  - now apply decodePayload_layout.
Qed.

(** A two-unit id, a one-unit id and the empty id. *)
Lemma concatInitDataIdAndCertificate_layout_roundtrip_witness :
  (concatInitDataIdAndCertificate [x01; x02] (IdString [97; 98]) [x03]
   = Ok (payloadLayout [x01; x02] [97; 98] [x03])
   /\ decodePayload 2%nat (payloadLayout [x01; x02] [97; 98] [x03])
      = Some ([x01; x02], [97; 98], [x03]))
  /\ (concatInitDataIdAndCertificate [x01; x02] (IdString [97]) [x03]
      = Ok (payloadLayout [x01; x02] [97] [x03])
      /\ decodePayload 2%nat (payloadLayout [x01; x02] [97] [x03])
         = Some ([x01; x02], [97], [x03]))
  /\ (concatInitDataIdAndCertificate [x01; x02] (IdString []) [x03]
      = Ok (payloadLayout [x01; x02] [] [x03])
      /\ decodePayload 2%nat (payloadLayout [x01; x02] [] [x03])
         = Some ([x01; x02], [], [x03])).
Proof.
  split; [|split].
  - apply (concatInitDataIdAndCertificate_layout_roundtrip
             [x01; x02] [97; 98] [x03]);
      [reflexivity | repeat constructor; unfold codeUnit; lia | simpl; lia
      | simpl; lia].
  - apply (concatInitDataIdAndCertificate_layout_roundtrip
             [x01; x02] [97] [x03]);
      [reflexivity | repeat constructor; unfold codeUnit; lia | simpl; lia
      | simpl; lia].
  - apply (concatInitDataIdAndCertificate_layout_roundtrip
             [x01; x02] [] [x03]);
      [reflexivity | constructor | simpl; lia | simpl; lia].
Defined.

(** C8 as stated fails: with one byte of initialization data the
    [Uint16Array] for the id would start at byte 5, and its constructor
    throws a RangeError; no payload is produced. *)
Lemma concatInitDataIdAndCertificate_odd_counterexample :
  concatInitDataIdAndCertificate [x01] (IdString [97]) [x03]
  = Throw RangeError
  /\ concatInitDataIdAndCertificate [x01] (IdString [97]) [x03]
     <> Ok (payloadLayout [x01] [97] [x03]).
Proof. split; [reflexivity | discriminate]. Qed.

Close Scope Z_scope.

(** ** Buffers: identity and content *)

Lemma strictEq_eq (a b : InitData) : strictEq a b = true <-> a = b.
Proof.
  split.
  - destruct a, b; simpl; try discriminate; try reflexivity; intros H;
      repeat (apply andb_true_iff in H; destruct H as [H ?]);
      repeat match goal with
             | E : (_ =? _)%nat = true |- _ => apply Nat.eqb_eq in E
             end; subst; reflexivity.
  - intros <-. destruct a; simpl; rewrite ?Nat.eqb_refl; reflexivity.
Qed.

Lemma strictEq_refl (a : InitData) : strictEq a a = true.
Proof. now apply strictEq_eq. Qed.

Lemma strictEq_neq (a b : InitData) : strictEq a b = false <-> a <> b.
Proof.
  rewrite <- strictEq_eq. destruct (strictEq a b); split; congruence.
Qed.

Lemma sameBytes_eq (a b : list byte) : sameBytes a b = true <-> a = b.
Proof.
  unfold sameBytes. destruct (list_eq_dec Byte.byte_eq_dec a b); split;
    congruence.
Qed.

Lemma sameBytes_refl (a : list byte) : sameBytes a a = true.
Proof. now apply sameBytes_eq. Qed.

Lemma bytesEqualFrom_true (d1 d2 : list byte) (n i : nat) :
  bytesEqualFrom d1 d2 i n = true
  <-> forall j, i <= j < i + n -> nth j d1 x00 = nth j d2 x00.
Proof.
  revert i; induction n as [|n IH]; intros i; simpl.
  - split; [intros _ j Hj; lia | reflexivity].
  - destruct (Byte.eqb (nth i d1 x00) (nth i d2 x00)) eqn:E.
    + apply Byte.byte_dec_bl in E. rewrite IH. split; intros H j Hj.
      * destruct (Nat.eq_dec j i) as [->|]; [assumption | apply H; lia].
      * apply H; lia.
    + split; [discriminate|]. intros H.
      rewrite (Byte.byte_dec_lb (H i ltac:(lia))) in E. discriminate.
Qed.

(** The loop decides equality of the contents of two buffers of the same
    length. *)
Lemma bytesEqualFrom_sameBytes (d1 d2 : list byte) :
  length d1 = length d2 ->
  bytesEqualFrom d1 d2 0 (length d1) = sameBytes d1 d2.
Proof.
  intros Hlen.
  destruct (sameBytes d1 d2) eqn:E.
  - apply sameBytes_eq in E. subst. apply bytesEqualFrom_true. reflexivity.
  - destruct (bytesEqualFrom d1 d2 0 (length d1)) eqn:E'; [|reflexivity].
    rewrite bytesEqualFrom_true in E'.
    assert (d1 = d2).
    { apply (nth_ext d1 d2 x00 x00 Hlen). intros j Hj. apply E'. lia. }
    subst. rewrite sameBytes_refl in E. discriminate.
Qed.

Section BufferContent.

Variable h : Heap.

(** On two ArrayBuffers, [arrayBuffersEqual] is equality of contents. *)
Lemma arrayBuffersEqual_buffers (r1 r2 : ref) :
  arrayBuffersEqual h (ArrayBuffer r1) (ArrayBuffer r2)
  = Ok (sameBytes (h r1) (h r2)).
Proof.
  unfold arrayBuffersEqual. simpl.
  destruct (Nat.eqb_spec r1 r2) as [->|Hne].
  - now rewrite sameBytes_refl.
  - destruct (Nat.eqb_spec (length (h r1)) (length (h r2))) as [Hlen|Hlen];
      simpl.
    + now rewrite bytesEqualFrom_sameBytes.
    + destruct (sameBytes (h r1) (h r2)) eqn:E; [|reflexivity].
      apply sameBytes_eq in E. rewrite E in Hlen. contradiction.
Qed.

Lemma bufferBytes_buffer (v : InitData) (bs : list byte) :
  bufferBytes h v = Some bs ->
  exists r, arrayBufferFrom v = ArrayBuffer r /\ h r = bs.
Proof.
  unfold bufferBytes. destruct (arrayBufferFrom v); try discriminate.
  intros [= <-]. eauto.
Qed.

Lemma bufferBytes_truthy (v : InitData) :
  truthy v = true -> exists bs, bufferBytes h v = Some bs.
Proof.
  destruct v; simpl; try discriminate; intros _; unfold bufferBytes; simpl;
    eauto.
Qed.

Lemma bufferBytes_falsy (v : InitData) :
  truthy v = false -> bufferBytes h v = None.
Proof. destruct v; simpl; try discriminate; reflexivity. Qed.

Lemma bufferBytes_Some_truthy (v : InitData) (bs : list byte) :
  bufferBytes h v = Some bs -> truthy v = true.
Proof. destruct v; simpl; try discriminate; reflexivity. Qed.

(** For an ArrayBuffer and for a view of a whole buffer, the bytes the
    registry compares are the bytes the value stands for. *)
Lemma bufferBytes_wholeBuffer (v : InitData) :
  wholeBuffer h v = true -> bufferBytes h v = viewedBytes h v.
Proof.
  destruct v as [| | r | self b off n | self b off n]; try reflexivity;
    cbn [wholeBuffer bufferBytes arrayBufferFrom viewedBytes];
    intros H; apply andb_true_iff in H; destruct H as [Hoff Hn];
    apply Nat.eqb_eq in Hoff, Hn; subst off; cbn [skipn];
    rewrite Hn, firstn_all; reflexivity.
Qed.

End BufferContent.

(** ** The registry *)

Section Registry.

Variable h : Heap.

(** For a value that carries bytes, [hasSession] says whether an entry
    with the same byte content is in the registry. *)
Lemma hasSession_fingerprints (sessions : list Session)
  (v : InitData) (bs : list byte) :
  bufferBytes h v = Some bs ->
  hasSession h sessions v
  = Ok (existsb (fun fp => sameBytes fp bs) (fingerprints h sessions)).
Proof.
  intros Hv. destruct (bufferBytes_buffer h v bs Hv) as (r & Hr & Hbs).
  induction sessions as [|s rest IH]; [reflexivity|].
  cbn [hasSession fingerprints].
  destruct (truthy (initData s)) eqn:Ht; cbn [negb].
  - destruct (bufferBytes_truthy h _ Ht) as (fp & Hfp). rewrite Hfp.
    destruct (bufferBytes_buffer h _ fp Hfp) as (r' & Hr' & Hfp').
    rewrite Hr, Hr', arrayBuffersEqual_buffers, Hfp', Hbs. cbn [bind existsb].
    destruct (sameBytes fp bs); [reflexivity | exact IH].
  - rewrite (bufferBytes_falsy h _ Ht). exact IH.
Qed.

Lemma existsb_sameBytes (bs : list byte) (fps : list (list byte)) :
  existsb (fun fp => sameBytes fp bs) fps = true <-> In bs fps.
Proof.
  rewrite existsb_exists. split.
  - intros (fp & Hin & E). apply sameBytes_eq in E. now subst.
  - intros Hin. exists bs. split; [assumption | apply sameBytes_refl].
Qed.

Lemma fingerprints_app (a b : list Session) :
  fingerprints h (a ++ b) = fingerprints h a ++ fingerprints h b.
Proof.
  induction a as [|s a IH]; [reflexivity|]. cbn [app fingerprints].
  destruct (bufferBytes h (initData s)); rewrite IH; reflexivity.
Qed.

Lemma fingerprints_removeSession_incl (sessions : list Session)
  (v : InitData) (bs : list byte) :
  In bs (fingerprints h (removeSession sessions v)) ->
  In bs (fingerprints h sessions).
Proof.
  induction sessions as [|s rest IH]; [exact (fun H => H)|].
  cbn [removeSession fingerprints].
  destruct (strictEq (initData s) v).
  - destruct (bufferBytes h (initData s)); [now right | exact (fun H => H)].
  - cbn [fingerprints]. destruct (bufferBytes h (initData s)).
    + intros [->|H]; [now left | right; now apply IH].
    + exact IH.
Qed.

Lemma NoDup_fingerprints_removeSession (sessions : list Session)
  (v : InitData) :
  NoDup (fingerprints h sessions) ->
  NoDup (fingerprints h (removeSession sessions v)).
Proof.
  induction sessions as [|s rest IH]; [exact (fun H => H)|].
  cbn [removeSession fingerprints].
  destruct (strictEq (initData s) v).
  - destruct (bufferBytes h (initData s)); [|exact (fun H => H)].
    intros H. now inversion H.
  - cbn [fingerprints]. destruct (bufferBytes h (initData s)); [|exact IH].
    intros H. inversion H as [|? ? Hnotin Hnd]; subst. constructor.
    + intros Hin. apply Hnotin.
      now apply (fingerprints_removeSession_incl rest v).
    + now apply IH.
Qed.

Lemma bufferBytes_None_falsy (v : InitData) :
  bufferBytes h v = None -> truthy v = false.
Proof. destruct v; simpl; try discriminate; reflexivity. Qed.

Lemma fingerprints_In (sessions : list Session) (s : Session)
  (bs : list byte) :
  In s sessions -> bufferBytes h (initData s) = Some bs ->
  In bs (fingerprints h sessions).
Proof.
  induction sessions as [|s0 rest IH]; [contradiction|].
  intros [->|Hin] Hbs; cbn [fingerprints].
  - rewrite Hbs. now left.
  - destruct (bufferBytes h (initData s0)); [right|]; now apply IH.
Qed.

(** What the callback of an encrypted event does to the registry and how
    it ends, by the bytes of the initialization data it settles on. *)
Lemma encryptedCallback_cases (event : EncryptedEvent)
  (ks : KeySystems) (eventBus : option nat) (registry : nat)
  (sessions : list Session) (k : string) (bs : list byte) :
  let v := resolveInitData ks k (ev_initData event) in
  bufferBytes h v = Some bs ->
  encryptedCallback h event ks eventBus registry sessions k
  = if existsb (fun fp => sameBytes fp bs) (fingerprints h sessions)
    then (sessions, Ignored)
    else (sessions ++ [mkSession false v],
          Acquire (mkCall (ev_initDataType event) v ks registry eventBus)).
Proof.
  intros v Hv. unfold encryptedCallback. fold v.
  rewrite (hasSession_fingerprints sessions v bs Hv).
  rewrite (bufferBytes_Some_truthy h v bs Hv). cbn [negb].
  now rewrite orb_false_r.
Qed.

Lemma encryptedCallback_falsy (event : EncryptedEvent)
  (ks : KeySystems) (eventBus : option nat) (registry : nat)
  (sessions : list Session) (k : string) :
  truthy (resolveInitData ks k (ev_initData event)) = false ->
  encryptedCallback h event ks eventBus registry sessions k
  = (sessions,
     match hasSession h sessions (resolveInitData ks k (ev_initData event))
     with
     | Ok _ => Ignored
     | Throw e => Raised e
     end).
Proof.
  intros Hv. unfold encryptedCallback. rewrite Hv. cbn [negb].
  destruct (hasSession h sessions _); [now rewrite orb_true_r | reflexivity].
Qed.

Lemma applyOp_NoDup (sessions : list Session) (op : RegistryOp) :
  NoDup (fingerprints h sessions) ->
  NoDup (fingerprints h (applyOp h sessions op)).
Proof.
  intros Hnd. destruct op as [event ks bus reg k | v]; cbn [applyOp].
  - destruct (bufferBytes h (resolveInitData ks k (ev_initData event)))
      as [bs|] eqn:Hv.
    + rewrite (encryptedCallback_cases event ks bus reg sessions k bs Hv).
      destruct (existsb _ _) eqn:Hex; cbn [fst]; [assumption|].
      rewrite fingerprints_app. cbn [fingerprints initData]. rewrite Hv.
      apply NoDup_app.
      * assumption.
      * repeat constructor. intros [].
      * intros fp Hin [<-|[]].
        apply existsb_sameBytes in Hin. congruence.
    + rewrite encryptedCallback_falsy
        by now apply (bufferBytes_None_falsy).
      assumption.
  - now apply NoDup_fingerprints_removeSession.
Qed.

Lemma applyOps_NoDup (ops : list RegistryOp)
  (sessions : list Session) :
  NoDup (fingerprints h sessions) ->
  NoDup (fingerprints h (applyOps h sessions ops)).
Proof.
  unfold applyOps. revert sessions.
  induction ops as [|op ops IH]; intros sessions Hnd; [assumption|].
  cbn [fold_left]. apply IH. now apply applyOp_NoDup.
Qed.

(** Encrypted events alone only append to the registry. *)
Lemma encryptedCallback_appends (event : EncryptedEvent) (ks : KeySystems)
  (eventBus : option nat) (registry : nat) (sessions : list Session)
  (k : string) :
  exists added,
    fst (encryptedCallback h event ks eventBus registry sessions k)
    = sessions ++ added.
Proof.
  unfold encryptedCallback.
  destruct (hasSession h sessions _) as [found|e].
  - destruct (found || _); cbn [fst]; [exists []; now rewrite app_nil_r|].
    eexists. reflexivity.
  - exists []. now rewrite app_nil_r.
Qed.

Lemma applyOps_appends (ops : list RegistryOp) (sessions : list Session) :
  forallb isEncrypted ops = true ->
  exists added, applyOps h sessions ops = sessions ++ added.
Proof.
  unfold applyOps. revert sessions.
  induction ops as [|op ops IH]; intros sessions Hall.
  - exists []. now rewrite app_nil_r.
  - cbn [forallb] in Hall. apply andb_true_iff in Hall.
    destruct Hall as [Hop Hall]. destruct op; [|discriminate].
    cbn [fold_left applyOp].
    destruct (encryptedCallback_appends event ks eventBus registry sessions k)
      as [a1 ->].
    destruct (IH (sessions ++ a1) Hall) as [a2 ->].
    exists (a1 ++ a2). now rewrite app_assoc.
Qed.

Lemma fingerprints_wholeBuffers (sessions : list Session) :
  wholeBuffers h sessions = true ->
  fingerprints h sessions = viewedFingerprints h sessions.
Proof.
  unfold wholeBuffers. induction sessions as [|s rest IH]; [reflexivity|].
  cbn [forallb fingerprints viewedFingerprints]. intros H.
  apply andb_true_iff in H. destruct H as [Hs Hrest].
  now rewrite (bufferBytes_wholeBuffer h _ Hs), (IH Hrest).
Qed.

(** C1 (amended).  Handling encrypted events never puts two entries
    with byte-equal underlying buffers into a registry, the underlying buffer
    of an ArrayBuffer being itself and that of a [Uint8Array] or
    [Uint16Array] the whole buffer it views: starting from a registry
    without such a pair (the empty one after a source change), after any
    sequence of encrypted-event callbacks and session removals the
    registry has none; a signal whose underlying buffer is byte-equal to
    that of an entry adds nothing and starts no acquisition; a signal
    with new bytes adds exactly its entry; and encrypted events alone
    only append, so that over a sequence of them at most one entry is
    added for any byte content.  Where every value is an ArrayBuffer or a
    view of a whole buffer, these bytes are the bytes of the
    initialization data itself: no two entries have byte-equal
    initialization data, and a signal byte-equal to an entry adds
    nothing. *)
Theorem handleEncryptedEvent_deduplicates (sessions : list Session)
  (ops : list RegistryOp) :
  NoDup (fingerprints h sessions) ->
  let registry := applyOps h sessions ops in
  NoDup (fingerprints h registry)
  /\ (forall event ks eventBus reg k bs,
        bufferBytes h (resolveInitData ks k (ev_initData event)) = Some bs ->
        In bs (fingerprints h registry) ->
        encryptedCallback h event ks eventBus reg registry k
        = (registry, Ignored))
  /\ (forall event ks eventBus reg k bs,
        bufferBytes h (resolveInitData ks k (ev_initData event)) = Some bs ->
        ~ In bs (fingerprints h registry) ->
        fst (encryptedCallback h event ks eventBus reg registry k)
        = registry
            ++ [mkSession false
                  (resolveInitData ks k (ev_initData event))])
  /\ (forallb isEncrypted ops = true ->
      exists added,
        registry = sessions ++ added
        /\ NoDup (fingerprints h added))
  /\ (wholeBuffers h registry = true ->
      NoDup (viewedFingerprints h registry)
      /\ forall event ks eventBus reg k bs,
           wholeBuffer h (resolveInitData ks k (ev_initData event)) = true ->
           viewedBytes h (resolveInitData ks k (ev_initData event))
           = Some bs ->
           In bs (viewedFingerprints h registry) ->
           encryptedCallback h event ks eventBus reg registry k
           = (registry, Ignored)).
Proof.
  intros Hnd registry.
  assert (Hignored : forall event ks eventBus reg k bs,
             bufferBytes h (resolveInitData ks k (ev_initData event))
             = Some bs ->
             In bs (fingerprints h registry) ->
             encryptedCallback h event ks eventBus reg registry k
             = (registry, Ignored)).
  { intros event ks eventBus reg k bs Hv Hin.
    rewrite (encryptedCallback_cases event ks eventBus reg registry k bs Hv).
    apply existsb_sameBytes in Hin. now rewrite Hin. }
  split; [|split; [|split; [|split]]].
  - now apply applyOps_NoDup.
  - exact Hignored.
  - intros event ks eventBus reg k bs Hv Hnotin.
    rewrite (encryptedCallback_cases event ks eventBus reg registry k bs Hv).
    destruct (existsb _ _) eqn:Hex; [|reflexivity].
    apply existsb_sameBytes in Hex. contradiction.
  - intros Hall. destruct (applyOps_appends ops sessions Hall) as [added E].
    exists added. split; [exact E|].
    pose proof (applyOps_NoDup ops sessions Hnd) as Hnd'.
    rewrite E, fingerprints_app in Hnd'.
    now apply NoDup_app_remove_l in Hnd'.
  - intros Hwhole. rewrite <- (fingerprints_wholeBuffers registry Hwhole).
    split; [now apply applyOps_NoDup|].
    intros event ks eventBus reg k bs Hw Hv Hin.
    apply (Hignored event ks eventBus reg k bs); [|exact Hin].
    now rewrite (bufferBytes_wholeBuffer h _ Hw).
Qed.

End Registry.

(** Three signals on an empty registry, the second byte-equal to the
    first (another buffer, the same bytes): two entries. *)
Lemma handleEncryptedEvent_deduplicates_witness :
  applyOps sampleHeap [] [sampleSignal 1; sampleSignal 2; sampleSignal 3]
  = [mkSession false (ArrayBuffer 1); mkSession false (ArrayBuffer 3)]
  /\ NoDup
       (fingerprints sampleHeap
          (applyOps sampleHeap []
             [sampleSignal 1; sampleSignal 2; sampleSignal 3])).
Proof.
  split; [reflexivity|].
  exact (proj1
           (handleEncryptedEvent_deduplicates sampleHeap []
              [sampleSignal 1; sampleSignal 2; sampleSignal 3]
              (NoDup_nil _))).
Defined.

(** Two signals whose initialization data are views reading the same
    two bytes, each over a buffer of its own that goes on differently:
    both are registered, and both start an acquisition. *)
Lemma handleEncryptedEvent_views_counterexample :
  viewedBytes viewHeap (Uint8Array 11 1 0 2) = Some [x01; x02]
  /\ viewedBytes viewHeap (Uint8Array 12 2 0 2) = Some [x01; x02]
  /\ applyOps viewHeap [] [viewSignal 11 1; viewSignal 12 2]
     = [mkSession false (Uint8Array 11 1 0 2);
        mkSession false (Uint8Array 12 2 0 2)]
  /\ snd (encryptedCallback viewHeap
            (mkEvent "cenc" (Uint8Array 12 2 0 2)) sampleKeySystems
            (Some 0) 0 [mkSession false (Uint8Array 11 1 0 2)]
            "com.widevine.alpha")
     = Acquire (mkCall "cenc" (Uint8Array 12 2 0 2) sampleKeySystems 0
                  (Some 0)).
Proof. repeat split. Qed.

Section Matching.

Variable h : Heap.

(** ** Matching in the registry: content for membership, identity for
    removal *)

Lemma removeSession_absent (sessions : list Session) (v : InitData) :
  (forall x, In x sessions -> initData x <> v) ->
  removeSession sessions v = sessions.
Proof.
  induction sessions as [|s rest IH]; intros H; [reflexivity|].
  cbn [removeSession].
  destruct (strictEq (initData s) v) eqn:E.
  - apply strictEq_eq in E. exfalso. apply (H s); [now left | assumption].
  - f_equal. apply IH. intros x Hx. apply H. now right.
Qed.

Lemma removeSession_first (pre post : list Session) (s : Session)
  (v : InitData) :
  (forall x, In x pre -> initData x <> v) ->
  initData s = v ->
  removeSession (pre ++ s :: post) v = pre ++ post.
Proof.
  intros Hpre Hs. induction pre as [|p pre IH]; cbn [app removeSession].
  - rewrite Hs, strictEq_refl. reflexivity.
  - destruct (strictEq (initData p) v) eqn:E.
    + apply strictEq_eq in E. exfalso. apply (Hpre p); [now left|assumption].
    + f_equal. apply IH. intros x Hx. apply Hpre. now right.
Qed.

(** C3 (amended).  Membership is decided by byte-wise content: two
    values whose buffers hold the same bytes get the same answer from
    [hasSession].  Removal is decided by identity: [removeSession]
    removes the first entry whose stored initData is the argument
    itself, and leaves the registry as it is when no entry stores that
    very object. *)
Theorem registry_matching (sessions : list Session)
  (a b : InitData) (bs : list byte) :
  bufferBytes h a = Some bs ->
  bufferBytes h b = Some bs ->
  hasSession h sessions a = hasSession h sessions b
  /\ (forall pre s post,
        sessions = pre ++ s :: post ->
        (forall x, In x pre -> initData x <> b) ->
        initData s = b ->
        removeSession sessions b = pre ++ post)
  /\ ((forall x, In x sessions -> initData x <> b) ->
      removeSession sessions b = sessions).
Proof.
  intros Ha Hb. split; [|split].
  - now rewrite (hasSession_fingerprints h sessions a bs Ha),
      (hasSession_fingerprints h sessions b bs Hb).
  - intros pre s post -> Hpre Hs. now apply removeSession_first.
  - apply removeSession_absent.
Qed.

End Matching.

(** Buffers 1 and 2 hold the same bytes; the registry stores buffer 1. *)
Lemma registry_matching_witness :
  hasSession sampleHeap [mkSession false (ArrayBuffer 1)] (ArrayBuffer 1)
  = hasSession sampleHeap [mkSession false (ArrayBuffer 1)] (ArrayBuffer 2)
  /\ removeSession [mkSession false (ArrayBuffer 1)] (ArrayBuffer 1) = []
  /\ removeSession [mkSession false (ArrayBuffer 1)] (ArrayBuffer 2)
     = [mkSession false (ArrayBuffer 1)].
Proof.
  pose proof (registry_matching sampleHeap [mkSession false (ArrayBuffer 1)]
                (ArrayBuffer 1) (ArrayBuffer 2) [x01; x02]
                eq_refl eq_refl) as [Hmember _].
  split; [exact Hmember | split; reflexivity].
Defined.

(** C3 as stated fails: buffer 2 is byte-equal to the stored buffer 1,
    [hasSession] finds it, and [removeSession] removes nothing. *)
Lemma removeSession_by_content_counterexample :
  sampleHeap 1 = sampleHeap 2
  /\ hasSession sampleHeap [mkSession false (ArrayBuffer 1)] (ArrayBuffer 2)
     = Ok true
  /\ removeSession [mkSession false (ArrayBuffer 1)] (ArrayBuffer 2)
     = [mkSession false (ArrayBuffer 1)].
Proof. repeat split. Qed.

(** ** Encrypted events without initialization data *)

Section NoInitData.

Variable h : Heap.



End NoInitData.


(** C10, at the failing input: an encrypted event with [initData: null]
    and no [pssh] override, on a registry that holds one session.  No
    entry is added and no acquisition starts, but the callback throws a
    TypeError, so the returned promise is rejected. *)
Theorem handleEncryptedEvent_null_initData_rejects :
  handleEncryptedEvent (fun _ => true) sampleHeap (mkEvent "cenc" Null)
    (Some (mkEmeOptions (Some sampleKeySystems))) (Some 0) 0
    [mkSession false (ArrayBuffer 1)]
  = ([mkSession false (ArrayBuffer 1)], Called (Raised TypeError))
  /\ resolvesQuietly
       (snd (handleEncryptedEvent (fun _ => true) sampleHeap
               (mkEvent "cenc" Null)
               (Some (mkEmeOptions (Some sampleKeySystems))) (Some 0) 0
               [mkSession false (ArrayBuffer 1)]))
     = false.
Proof. split; reflexivity. Qed.

(** On an empty registry the same call resolves quietly. *)
Example handleEncryptedEvent_null_initData_empty_registry :
  handleEncryptedEvent (fun _ => true) sampleHeap (mkEvent "cenc" Null)
    (Some (mkEmeOptions (Some sampleKeySystems))) (Some 0) 0 []
  = ([], Called Ignored).
Proof. reflexivity. Qed.

Section KeyStatuses.

Variable h : Heap.

(** ** Key-status changes *)

Lemma reportStatuses_bus (bus : nat) (keyStatuses : list (nat * MediaKeyStatus))
  (e0 : bool) :
  snd (reportStatuses (Some bus) keyStatuses e0)
  = Ok (e0 || existsb isExpired keyStatuses)
  /\ count isSessionClose (fst (reportStatuses (Some bus) keyStatuses e0)) = 0.
Proof.
  revert e0. induction keyStatuses as [|[keyId status] rest IH]; intros e0.
  - simpl. now rewrite orb_false_r.
  - cbn [reportStatuses existsb].
    destruct (reportStatuses (Some bus) rest
                match status with expired => true | _ => e0 end)
      as [later r] eqn:E.
    specialize (IH match status with expired => true | _ => e0 end).
    rewrite E in IH. cbn [fst snd] in *. destruct IH as [-> Hc]. split.
    + unfold isExpired at 1. cbn [snd].
      destruct status, e0; reflexivity.
    + unfold count in *. cbn [filter isSessionClose].
      rewrite filter_app, length_app, Hc. destruct status; reflexivity.
Qed.

Lemma removeSession_removes (sessions : list Session)
  (s : Session) (bs : list byte) :
  NoDup (fingerprints h sessions) ->
  In s sessions ->
  bufferBytes h (initData s) = Some bs ->
  ~ In bs (fingerprints h (removeSession sessions (initData s)))
  /\ S (length (removeSession sessions (initData s))) = length sessions.
Proof.
  intros Hnd Hin Hbs. induction sessions as [|s0 rest IH]; [contradiction|].
  cbn [removeSession]. cbn [fingerprints] in Hnd.
  destruct (strictEq (initData s0) (initData s)) eqn:E.
  - apply strictEq_eq in E. rewrite E, Hbs in Hnd.
    split; [now inversion Hnd | reflexivity].
  - apply strictEq_neq in E.
    destruct Hin as [->|Hin]; [contradiction|].
    pose proof (fingerprints_In h rest s bs Hin Hbs) as Hbsin.
    destruct (bufferBytes h (initData s0)) as [fp0|] eqn:E0.
    + inversion Hnd as [|? ? Hnotin Hnd']; subst.
      destruct (IH Hnd' Hin) as [IH1 IH2]. split.
      * cbn [fingerprints]. rewrite E0. intros [->|H]; contradiction.
      * cbn [length]. now rewrite IH2.
    + destruct (IH Hnd Hin) as [IH1 IH2]. split.
      * cbn [fingerprints]. now rewrite E0.
      * cbn [length]. now rewrite IH2.
Qed.

(** The listener of a key session whose entry is in the registry that
    its [removeSession] is bound to, on an event bus: when at least one
    key of a [keystatuseschange] event is [expired], whatever the other
    keys report, the session is closed (one [close()], after every key
    was reported) and, once the close completes, its entry is removed, so
    that the registry no longer holds its initialization data; when no
    key is [expired], the session is neither closed nor removed. *)
Lemma expireSession_registered (ks : KeySession)
  (bus : nat) (keyStatuses : list (nat * MediaKeyStatus))
  (sessions : list Session) (s : Session) (bs : list byte) :
  ks_eventBus ks = Some bus ->
  NoDup (fingerprints h sessions) ->
  In s sessions ->
  initData s = ks_initData ks ->
  bufferBytes h (ks_initData ks) = Some bs ->
  if existsb isExpired keyStatuses
  then
    snd (onKeyStatusesChange ks keyStatuses) = true
    /\ count isSessionClose (fst (onKeyStatusesChange ks keyStatuses)) = 1
    /\ last (fst (onKeyStatusesChange ks keyStatuses)) SessionClose
       = SessionClose
    /\ expireSession ks keyStatuses sessions
       = removeSession sessions (ks_initData ks)
    /\ S (length (expireSession ks keyStatuses sessions)) = length sessions
    /\ ~ In bs (fingerprints h (expireSession ks keyStatuses sessions))
    /\ hasSession h (expireSession ks keyStatuses sessions) (ks_initData ks)
       = Ok false
  else
    snd (onKeyStatusesChange ks keyStatuses) = false
    /\ count isSessionClose (fst (onKeyStatusesChange ks keyStatuses)) = 0
    /\ expireSession ks keyStatuses sessions = sessions.
Proof.
  intros Hbus Hnd Hin Hs Hbs.
  unfold expireSession, onKeyStatusesChange. rewrite Hbus.
  destruct (reportStatuses_bus bus keyStatuses false) as [Hr Hc].
  destruct (reportStatuses (Some bus) keyStatuses false) as [effs r].
  cbn [fst snd] in Hr, Hc. subst r. cbn [orb].
  destruct (existsb isExpired keyStatuses); cbn [fst snd].
  - rewrite <- Hs in *.
    destruct (removeSession_removes sessions s bs Hnd Hin Hbs)
      as [Hgone Hlen].
    unfold onSessionClosed. rewrite <- Hs.
    repeat split.
    + unfold count in *. rewrite filter_app, length_app, Hc. reflexivity.
    + apply last_last.
    + assumption.
    + assumption.
    + rewrite (hasSession_fingerprints h _ _ bs Hbs).
      destruct (existsb _ _) eqn:Hex; [|reflexivity].
      apply existsb_sameBytes in Hex. contradiction.
  - repeat split. assumption.
Qed.

End KeyStatuses.

(** ** The pending queue *)

Lemma drainPending_spec (mk : nat) (glp : option Promisified) (rs : nat)
  (bus : option nat) (pending : list PendingData) (s : Surface) :
  drainPending mk glp rs bus pending s
  = mkSurface (video s)
      (keySessions s ++ map (sessionFor mk glp rs bus) pending)
      (effects s ++ flat_map (requestEffects mk) pending).
Proof.
  revert s. induction pending as [|data rest IH]; intros s.
  - cbn [drainPending map flat_map]. rewrite !app_nil_r. now destruct s.
  - cbn [drainPending map flat_map]. rewrite IH. unfold makeNewRequest.
    cbn [video keySessions effects]. rewrite <- !app_assoc. reflexivity.
Qed.

Lemma addSessions_unset (calls : list AddSessionCall) (s : Surface)
  (q : list PendingData) :
  unsetKeys (video s) = true ->
  pendingSessionData (video s) = Some q ->
  addSessions calls s
  = mkSurface
      (mkVideo (mediaKeysObject (video s))
         (Some (q ++ map queuedPair calls)) (keySystem (video s)))
      (keySessions s) (effects s).
Proof.
  unfold addSessions. revert s q.
  induction calls as [|a calls IH]; intros s q Hunset Hq.
  - cbn [fold_left map]. rewrite app_nil_r.
    destruct s as [[mko pend ksys] kss effs]. cbn in *. now subst.
  - cbn [fold_left map].
    assert (Hstep : addSessionCall s a
                    = mkSurface
                        (mkVideo (mediaKeysObject (video s))
                           (Some (q ++ [queuedPair a])) (keySystem (video s)))
                        (keySessions s) (effects s)).
    { unfold addSessionCall, addSession, unsetKeys in *.
      destruct (mediaKeysObject (video s)); try discriminate;
        rewrite Hq; reflexivity. }
    rewrite Hstep.
    rewrite (IH _ (q ++ [queuedPair a])); cbn [video mediaKeysObject
      pendingSessionData keySystem keySessions effects];
      [now rewrite <- app_assoc | assumption | reflexivity].
Qed.

(** C2.  While [video.mediaKeysObject] is unset, every [addSession] call
    appends its pair to the pending queue and creates no session; when
    [setMediaKeys] then runs, it makes one request per queued pair, in
    the order of arrival, and leaves the queue empty. *)
Theorem pending_queue_drained_in_order (s : Surface) (q : list PendingData)
  (calls : list AddSessionCall) (certificate : option (list byte))
  (mk : nat) (glp : option Promisified) (rs : nat) (bus : option nat) :
  unsetKeys (video s) = true ->
  pendingSessionData (video s) = Some q ->
  let queued := addSessions calls s in
  let drained := setMediaKeys certificate mk glp rs bus queued in
  pendingSessionData (video queued) = Some (q ++ map queuedPair calls)
  /\ keySessions queued = keySessions s
  /\ effects queued = effects s
  /\ snd drained = None
  /\ keySessions (fst drained)
     = keySessions s
         ++ map (sessionFor mk glp rs bus) (q ++ map queuedPair calls)
  /\ effects (fst drained)
     = effects s ++ certificateEffects mk certificate
         ++ flat_map (requestEffects mk) (q ++ map queuedPair calls)
         ++ [VideoSetMediaKeys mk]
  /\ pendingSessionData (video (fst drained)) = Some []
  /\ mediaKeysObject (video (fst drained)) = MKObject mk.
Proof.
  intros Hunset Hq queued drained. subst queued drained.
  rewrite (addSessions_unset calls s q Hunset Hq).
  unfold setMediaKeys. cbn [video pendingSessionData keySessions effects
    mediaKeysObject keySystem fst snd].
  rewrite drainPending_spec.
  cbn [video pendingSessionData keySessions effects mediaKeysObject
    keySystem fst snd].
  unfold certificateEffects.
  repeat split; try reflexivity. now rewrite <- !app_assoc.
Qed.

(** Two calls while the MediaKeys object is being created, then
    [setMediaKeys]: two requests, in the order of the calls. *)
Lemma pending_queue_drained_in_order_witness :
  pendingSessionData (video (addSessions [sampleAdd 1; sampleAdd 3]
                               creatingSurface))
  = Some [mkPending "cenc" (ArrayBuffer 1); mkPending "cenc" (ArrayBuffer 3)]
  /\ effects
       (fst (setMediaKeys None 7 None 0 (Some 0)
               (addSessions [sampleAdd 1; sampleAdd 3] creatingSurface)))
     = [CreateSession 7; GenerateRequest "cenc" (ArrayBuffer 1);
        CreateSession 7; GenerateRequest "cenc" (ArrayBuffer 3);
        VideoSetMediaKeys 7]
  /\ pendingSessionData
       (video (fst (setMediaKeys None 7 None 0 (Some 0)
                      (addSessions [sampleAdd 1; sampleAdd 3]
                         creatingSurface))))
     = Some [].
Proof.
  pose proof (pending_queue_drained_in_order creatingSurface []
                [sampleAdd 1; sampleAdd 3] None 7 None 0 (Some 0)
                eq_refl eq_refl) as H.
  cbv zeta in H.
  destruct H as (Hq & _ & _ & _ & _ & Heffs & Hempty & _).
  split; [exact Hq | split; [exact Heffs | exact Hempty]].
Defined.

(** ** Source changes *)

(** C5 (amended).  When the player's source differs from the recorded
    active source, [setupSessions] records the new source and replaces
    the session registry by an empty one; the fields the plugin keeps on
    the video element (the pending queue among them) are left as they
    are. *)
Theorem setupSessions_resets_registry (p : Player) :
  differsFrom (src p) (eme_activeSrc p) = true ->
  eme_sessions (setupSessions p) = []
  /\ eme_activeSrc (setupSessions p) = Some (src p)
  /\ src (setupSessions p) = src p
  /\ el (setupSessions p) = el p.
Proof.
  intros H. unfold setupSessions. rewrite H. repeat split.
Qed.

Lemma setupSessions_resets_registry_witness :
  eme_sessions
    (setupSessions
       (mkPlayer "b.mpd" (Some "a.mpd"%string)
          [mkSession false (ArrayBuffer 1)] newVideo))
  = []
  /\ eme_activeSrc
       (setupSessions
          (mkPlayer "b.mpd" (Some "a.mpd"%string)
             [mkSession false (ArrayBuffer 1)] newVideo))
     = Some "b.mpd"%string.
Proof.
  pose proof (setupSessions_resets_registry
                (mkPlayer "b.mpd" (Some "a.mpd"%string)
                   [mkSession false (ArrayBuffer 1)] newVideo)
                eq_refl) as (H1 & H2 & _).
  split; [exact H1 | exact H2].
Defined.

(** C5 as stated fails for the pending queue.  Under source [a.mpd] a
    first signal starts the creation of the MediaKeys object and a second
    one is queued; the source changes to [b.mpd] before the creation
    completes; [setupSessions] empties the registry and the queued pair
    of the old source is still in the queue. *)
Lemma setupSessions_keeps_pending_counterexample :
  exists m,
    run newMachine [Invoke (sampleCall 1); Invoke (sampleCall 3); RunTail 1]
    = Some m
    /\ differsFrom "b.mpd" (Some "a.mpd"%string) = true
    /\ pendingSessionData
         (el (setupSessions
                (mkPlayer "b.mpd" (Some "a.mpd"%string)
                   [mkSession false (ArrayBuffer 1);
                    mkSession false (ArrayBuffer 3)]
                   (video (surface m)))))
       = Some [mkPending "cenc" (ArrayBuffer 3)].
Proof. eexists. repeat split. Qed.

(** ** The creation chain *)

Lemma count_app (p : Effect -> bool) (a b : list Effect) :
  count p (a ++ b) = count p a + count p b.
Proof. unfold count. now rewrite filter_app, length_app. Qed.

Lemma count_requestEffects (p : Effect -> bool) (mk : nat)
  (pending : list PendingData) :
  p (CreateSession mk) = false ->
  (forall t v, p (GenerateRequest t v) = false) ->
  count p (flat_map (requestEffects mk) pending) = 0.
Proof.
  intros H1 H2. induction pending as [|d rest IH]; [reflexivity|].
  cbn [flat_map]. rewrite count_app, IH. unfold count, requestEffects.
  cbn [filter]. now rewrite H1, H2.
Qed.

Lemma filter_requestEffects (p : Effect -> bool) (mk : nat)
  (pending : list PendingData) :
  ignoresRequests p ->
  filter p (flat_map (requestEffects mk) pending) = [].
Proof.
  intros [H1 H2]. induction pending as [|d rest IH]; [reflexivity|].
  cbn [flat_map]. rewrite filter_app, IH. unfold requestEffects.
  cbn [filter]. now rewrite H1, H2.
Qed.

Lemma addSession_filter (p : Effect -> bool) (t : string) (v : InitData)
  (g : option Promisified) (r : nat) (b : option nat) (s : Surface) :
  ignoresRequests p ->
  filter p (effects (fst (addSession t v g r b s))) = filter p (effects s).
Proof.
  intros [H1 H2]. unfold addSession.
  destruct (mediaKeysObject (video s)) eqn:E;
    try (destruct (pendingSessionData (video s)); reflexivity).
  cbn [fst makeNewRequest effects]. rewrite filter_app.
  cbn [filter]. rewrite H1, H2. apply app_nil_r.
Qed.

Lemma runTail_filter (p : Effect -> bool) (c : Call) (m : Machine) :
  ignoresRequests p ->
  filter p (effects (surface (runTail c m)))
  = filter p (effects (surface m)).
Proof.
  intros Hp. unfold runTail.
  destruct (keySystem (video (surface m))) as [k|].
  - destruct (lookupKeySystem (c_keySystems c) k) as [cfg|]; [|reflexivity].
    destruct (standardizeKeySystemOptions k cfg) as [o|e]; [|reflexivity].
    cbn [surface]. now apply addSession_filter.
  - cbn [surface]. now apply addSession_filter.
Qed.

Lemma addSession_count (p : Effect -> bool) (t : string) (v : InitData)
  (g : option Promisified) (r : nat) (b : option nat) (s : Surface) :
  ignoresRequests p ->
  count p (effects (fst (addSession t v g r b s))) = count p (effects s).
Proof. intros Hp. unfold count. now rewrite addSession_filter. Qed.

Lemma runTail_count (p : Effect -> bool) (c : Call) (m : Machine) :
  ignoresRequests p ->
  count p (effects (surface (runTail c m))) = count p (effects (surface m)).
Proof. intros Hp. unfold count. now rewrite runTail_filter. Qed.

Lemma ignoresRequests_counted :
  ignoresRequests isRequestAccess /\ ignoresRequests isGetCertificate
  /\ ignoresRequests isCreateMediaKeys /\ ignoresRequests isVideoSetMediaKeys
  /\ ignoresRequests isSetServerCertificate /\ ignoresRequests isNetwork.
Proof. repeat split. Qed.

(** [addSession] makes no call that the invariants count, and does not
    touch [video.mediaKeysObject]. *)
Lemma addSession_quiet (t : string) (v : InitData) (g : option Promisified)
  (r : nat) (b : option nat) (s : Surface) :
  let s' := fst (addSession t v g r b s) in
  tally (effects s') = tally (effects s)
  /\ count isNetwork (effects s') = count isNetwork (effects s)
  /\ mediaKeysObject (video s') = mediaKeysObject (video s)
  /\ (unsetKeys (video s) = true -> keySessions s' = keySessions s).
Proof.
  unfold addSession, unsetKeys.
  destruct (mediaKeysObject (video s)) eqn:E;
    try (destruct (pendingSessionData (video s)); cbn; rewrite ?E;
         repeat split; reflexivity).
  cbn [fst makeNewRequest effects video keySessions]. rewrite E.
  unfold tally. rewrite !count_app. unfold count at 2 4 6 8.
  cbn [filter isRequestAccess isCreateMediaKeys isVideoSetMediaKeys
         isNetwork length].
  rewrite !Nat.add_0_r. repeat split. discriminate.
Qed.

Lemma runTail_quiet (c : Call) (m : Machine) :
  chain (runTail c m) = chain m
  /\ tails (runTail c m) = tails m
  /\ tally (effects (surface (runTail c m))) = tally (effects (surface m))
  /\ count isNetwork (effects (surface (runTail c m)))
     = count isNetwork (effects (surface m))
  /\ mediaKeysObject (video (surface (runTail c m)))
     = mediaKeysObject (video (surface m))
  /\ (unsetKeys (video (surface m)) = true ->
      keySessions (surface (runTail c m)) = keySessions (surface m)).
Proof.
  unfold runTail.
  destruct (keySystem (video (surface m))) as [k|].
  - destruct (lookupKeySystem (c_keySystems c) k) as [cfg|];
      [|repeat split].
    destruct (standardizeKeySystemOptions k cfg) as [o|e]; [|repeat split].
    cbn [chain tails surface].
    pose proof (addSession_quiet (c_initDataType c) (c_initData c)
                  (Some (mkPromisified (getLicense o) (c_eventBus c)))
                  (c_removeSession c) (c_eventBus c) (surface m)) as H.
    cbv zeta in H. tauto.
  - cbn [chain tails surface].
    pose proof (addSession_quiet (c_initDataType c) (c_initData c) None
                  (c_removeSession c) (c_eventBus c) (surface m)) as H.
    cbv zeta in H. tauto.
Qed.

(** What [setMediaKeys] adds to the calls made: one
    [setServerCertificate] if there is a certificate, the requests of
    the queued pairs, and [video.setMediaKeys] unless the queue was never
    assigned. *)
Lemma setMediaKeys_filter (p : Effect -> bool)
  (certificate : option (list byte)) (mk : nat) (g : option Promisified)
  (r : nat) (b : option nat) (s : Surface) :
  ignoresRequests p ->
  filter p (effects (fst (setMediaKeys certificate mk g r b s)))
  = filter p (effects s) ++ filter p (certificateEffects mk certificate)
    ++ match snd (setMediaKeys certificate mk g r b s) with
       | None => filter p [VideoSetMediaKeys mk]
       | Some _ => []
       end.
Proof.
  intros Hp. unfold setMediaKeys. cbn [video pendingSessionData].
  destruct (pendingSessionData (video s)) as [pending|]; cbn [fst snd].
  - rewrite drainPending_spec. cbn [effects].
    rewrite !filter_app, filter_requestEffects by assumption.
    unfold certificateEffects. now rewrite app_nil_r, <- app_assoc.
  - cbn [effects]. rewrite filter_app. unfold certificateEffects.
    now rewrite app_nil_r.
Qed.

Lemma setMediaKeys_count (p : Effect -> bool)
  (certificate : option (list byte)) (mk : nat) (g : option Promisified)
  (r : nat) (b : option nat) (s : Surface) :
  ignoresRequests p ->
  count p (effects (fst (setMediaKeys certificate mk g r b s)))
  = count p (effects s) + count p (certificateEffects mk certificate)
    + match snd (setMediaKeys certificate mk g r b s) with
      | None => count p [VideoSetMediaKeys mk]
      | Some _ => 0
      end.
Proof.
  intros Hp. unfold count. rewrite setMediaKeys_filter by assumption.
  rewrite !length_app.
  destruct (snd (setMediaKeys certificate mk g r b s)); cbn [length]; lia.
Qed.

Lemma setMediaKeys_object (certificate : option (list byte)) (mk : nat)
  (g : option Promisified) (r : nat) (b : option nat) (s : Surface) :
  mediaKeysObject (video (fst (setMediaKeys certificate mk g r b s)))
  = MKObject mk.
Proof.
  unfold setMediaKeys. cbn [video pendingSessionData].
  destruct (pendingSessionData (video s)); [|reflexivity].
  now rewrite drainPending_spec.
Qed.

Lemma setMediaKeys_tally (certificate : option (list byte)) (mk : nat)
  (g : option Promisified) (r : nat) (b : option nat) (s : Surface)
  (requested : nat) :
  tally (effects s) = (requested, 1, 0) ->
  match setMediaKeys certificate mk g r b s with
  | (s', None) =>
      tally (effects s') = (requested, 1, 1)
      /\ mediaKeysObject (video s') = MKObject mk
  | (s', Some _) =>
      tally (effects s') = (requested, 1, 0)
      /\ mediaKeysObject (video s') = MKObject mk
  end.
Proof.
  intros Ht. unfold setMediaKeys. cbn [video pendingSessionData].
  unfold tally in *.
  destruct (pendingSessionData (video s)) as [pending|].
  - rewrite drainPending_spec. cbn [video effects mediaKeysObject].
    rewrite !count_app, !count_requestEffects by reflexivity.
    injection Ht as H1 H2 H3. rewrite H1, H2, H3.
    destruct certificate; split; try reflexivity;
      unfold count; cbn; now rewrite !Nat.add_0_r.
  - cbn [effects video mediaKeysObject]. rewrite !count_app.
    injection Ht as H1 H2 H3. rewrite H1, H2, H3.
    destruct certificate; split; try reflexivity;
      unfold count; cbn; now rewrite !Nat.add_0_r.
Qed.

Lemma tally_app (a b : list Effect) :
  tally (a ++ b)
  = (count isRequestAccess a + count isRequestAccess b,
     count isCreateMediaKeys a + count isCreateMediaKeys b,
     count isVideoSetMediaKeys a + count isVideoSetMediaKeys b).
Proof. unfold tally. now rewrite !count_app. Qed.

Lemma tally_eq (effs : list Effect) (a b c : nat) :
  tally effs = (a, b, c) ->
  count isRequestAccess effs = a /\ count isCreateMediaKeys effs = b
  /\ count isVideoSetMediaKeys effs = c.
Proof. unfold tally. intros [= <- <- <-]. repeat split. Qed.

Lemma onMessage_quiet (ks : KeySession) :
  tally (onMessage ks) = (0, 0, 0).
Proof.
  unfold onMessage. destruct (ks_getLicense ks) as [p|]; [|reflexivity].
  destruct (pl_getLicenseFn p); reflexivity.
Qed.

Lemma onMessage_count (p : Effect -> bool) (ks : KeySession) :
  (forall f, p (CallGetLicense f) = false) -> count p (onMessage ks) = 0.
Proof.
  intros Hp. unfold onMessage. destruct (ks_getLicense ks) as [g|];
    [|reflexivity].
  destruct (pl_getLicenseFn g); [|reflexivity].
  unfold count. cbn [filter]. now rewrite Hp.
Qed.

(** A certificate request is network traffic. *)
Lemma count_certificates_network (effs : list Effect) :
  count isGetCertificate effs <= count isNetwork effs.
Proof.
  unfold count. induction effs as [|e effs IH]; [reflexivity|].
  destruct e; cbn [filter isGetCertificate isNetwork length]; lia.
Qed.

Ltac chain_facts :=
  repeat match goal with
         | H : _ /\ _ |- _ => destruct H
         | H : tally _ = (_, _, _) |- _ => apply tally_eq in H
         end.

(** The rejection handler of the chain keeps what the stages before it
    established. *)
Lemma failChain_invariant (m : Machine) :
  count isGetCertificate (effects (surface m)) <= 1 ->
  count isCreateMediaKeys (effects (surface m)) <= 1 ->
  count isVideoSetMediaKeys (effects (surface m)) <= 1 ->
  mediaKeysObject (video (surface m)) <> MKUndefined ->
  creationInvariant (failChain m).
Proof.
  intros H1 H2 H3 H4. unfold creationInvariant.
  cbn [surface chain failChain logError video effects mediaKeysObject].
  rewrite !count_app. unfold count at 2 4 6. cbn. repeat split; try lia.
  assumption.
Qed.

Lemma count_snoc (p : Effect -> bool) (effs : list Effect) (e : Effect) :
  count p (effs ++ [e]) = count p effs + (if p e then 1 else 0).
Proof.
  rewrite count_app. unfold count at 2. cbn [filter].
  destruct (p e); reflexivity.
Qed.

(** What the turns of the negotiation start from. *)
Lemma step_granted (m m' : Machine) (k : string) :
  step m (AccessGranted k) = Some m' ->
  exists c,
    chain m = AwaitAccess c
    /\ askedKeySystem (surface m) = Some k
    /\ m' = onKeySystemAccess c k m.
Proof.
  cbn [step]. destruct (chain m) as [|c| | | |]; try discriminate.
  destruct (askedKeySystem (surface m)) as [asked|]; [|discriminate].
  destruct (String.eqb asked k) eqn:E; [|discriminate].
  apply String.eqb_eq in E. subst asked.
  intros [= <-]. now exists c.
Qed.

Lemma step_denied (m m' : Machine) :
  step m AccessDenied = Some m' ->
  exists c,
    chain m = AwaitAccess c
    /\ ((exists k,
           nextKeySystem c (surface m) = Some k
           /\ m' = mkMachine (perform (RequestAccess k) (surface m))
                     (chain m) (tails m))
        \/ (nextKeySystem c (surface m) = None /\ m' = failChain m)).
Proof.
  cbn [step]. destruct (chain m) as [|c| | | |]; try discriminate.
  destruct (nextKeySystem c (surface m)) as [k|] eqn:E; intros [= <-];
    exists c; split; try reflexivity; [left; now exists k | now right].
Qed.

Lemma step_invariant (m m' : Machine) (l : Label) :
  creationInvariant m -> step m l = Some m' -> creationInvariant m'.
Proof.
  intros Hinv Hstep. destruct l; cbn [step] in Hstep.
  - (* a call of standard5July2016 *)
    injection Hstep as <-. unfold standard5July2016.
    destruct (mediaKeysObject (video (surface m))) eqn:Emk.
    + assert (Hch : chain m = NotStarted).
      { unfold creationInvariant in Hinv. cbv zeta in Hinv.
        destruct (chain m); chain_facts; try congruence; reflexivity. }
      unfold creationInvariant in Hinv. rewrite Hch in Hinv. chain_facts.
      destruct (c_keySystems c) as [|[k cfg] rest];
        unfold creationInvariant; cbn [chain surface]; rewrite ?Hch;
        cbn [logError perform video keySessions effects mediaKeysObject
               unsetKeys];
        rewrite ?tally_app, ?count_app; unfold count at 2 4 6;
        cbn [filter isRequestAccess isCreateMediaKeys isVideoSetMediaKeys
               isNetwork length];
        repeat match goal with
               | H : count _ _ = _ |- _ => rewrite H
               end; repeat split; try reflexivity; try assumption.
      all: unfold count; cbn; try assumption.
      all: match goal with
           | H : count isNetwork _ = 0 |- _ =>
               unfold count in H; rewrite filter_app, length_app, H;
               reflexivity
           end.
    + exact Hinv.
    + exact Hinv.
  - (* the pending request is granted *)
    destruct (step_granted m m' k Hstep) as (c & Ech & _ & ->).
    unfold creationInvariant in Hinv. rewrite Ech in Hinv. chain_facts.
    pose proof (count_certificates_network (effects (surface m))) as Hcert.
    unfold onKeySystemAccess.
    destruct (lookupKeySystem (c_keySystems c) k) as [cfg|].
    2: { apply failChain_invariant;
           cbn [surface effects video mediaKeysObject]; try lia; congruence. }
    destruct (standardizeKeySystemOptions k cfg) as [o|e].
    2: { apply failChain_invariant;
           cbn [surface effects video mediaKeysObject]; try lia; congruence. }
    destruct (getCertificate o); unfold creationInvariant;
      cbn [chain surface perform video effects mediaKeysObject];
      rewrite !count_snoc;
      (split; [repeat split; cbn; lia | assumption]).
  - (* the pending request is rejected *)
    destruct (step_denied m m' Hstep) as (c & Ech & [(k & _ & ->)|[_ ->]]).
    + unfold creationInvariant in *.
      cbn [chain surface perform video keySessions effects]. rewrite Ech in *.
      chain_facts. rewrite !count_snoc. cbn. repeat split; try lia;
        assumption.
    + unfold creationInvariant in Hinv. rewrite Ech in Hinv. chain_facts.
      pose proof (count_certificates_network (effects (surface m))) as Hcert.
      apply failChain_invariant; try lia; congruence.
  - (* certificate fetched *)
    destruct (chain m) eqn:Ech; try discriminate. injection Hstep as <-.
    unfold creationInvariant in Hinv. rewrite Ech in Hinv. chain_facts.
    unfold creationInvariant.
    cbn [chain surface perform video effects mediaKeysObject].
    rewrite !count_app. unfold count at 2 4 6. cbn.
    split; [lia | assumption].
  - (* certificate failed *)
    destruct (chain m) eqn:Ech; try discriminate. injection Hstep as <-.
    unfold creationInvariant in Hinv. rewrite Ech in Hinv. chain_facts.
    apply failChain_invariant; try lia; congruence.
  - (* MediaKeys created *)
    destruct (chain m) eqn:Ech; try discriminate. injection Hstep as <-.
    unfold creationInvariant in Hinv. rewrite Ech in Hinv.
    destruct Hinv as [(Hcert & Hcreated & Hattached) Hmk]. unfold onMediaKeys.
    destruct ignoresRequests_counted as (_ & I1 & I2 & I3 & _).
    pose proof (setMediaKeys_count isGetCertificate certificate mediaKeys
                  (Some (mkPromisified (getLicense keySystemOptions)
                           (c_eventBus c)))
                  (c_removeSession c) (c_eventBus c) (surface m) I1) as C1.
    pose proof (setMediaKeys_count isCreateMediaKeys certificate mediaKeys
                  (Some (mkPromisified (getLicense keySystemOptions)
                           (c_eventBus c)))
                  (c_removeSession c) (c_eventBus c) (surface m) I2) as C2.
    pose proof (setMediaKeys_count isVideoSetMediaKeys certificate mediaKeys
                  (Some (mkPromisified (getLicense keySystemOptions)
                           (c_eventBus c)))
                  (c_removeSession c) (c_eventBus c) (surface m) I3) as C3.
    pose proof (setMediaKeys_object certificate mediaKeys
                  (Some (mkPromisified (getLicense keySystemOptions)
                           (c_eventBus c)))
                  (c_removeSession c) (c_eventBus c) (surface m)) as Hobj.
    assert (Hno : forall p, p = isGetCertificate \/ p = isCreateMediaKeys
                            \/ p = isVideoSetMediaKeys ->
                            count p (certificateEffects mediaKeys certificate)
                            = 0).
    { intros p [->|[->| ->]]; destruct certificate; reflexivity. }
    rewrite !Hno in C1, C2, C3 by auto.
    change (count isGetCertificate [VideoSetMediaKeys mediaKeys])
      with 0 in C1.
    change (count isCreateMediaKeys [VideoSetMediaKeys mediaKeys])
      with 0 in C2.
    change (count isVideoSetMediaKeys [VideoSetMediaKeys mediaKeys])
      with 1 in C3.
    destruct (setMediaKeys _ _ _ _ _ _) as [s' [e|]]; cbn [fst snd] in *.
    + apply failChain_invariant; cbn [surface]; try lia.
      rewrite Hobj. discriminate.
    + unfold creationInvariant. cbn [chain surface].
      split; [lia | rewrite Hobj; discriminate].
  - (* MediaKeys creation failed *)
    destruct (chain m) eqn:Ech; try discriminate. injection Hstep as <-.
    unfold creationInvariant in Hinv. rewrite Ech in Hinv. chain_facts.
    apply failChain_invariant; try lia; congruence.
  - (* attachment settled *)
    destruct (chain m) eqn:Ech; try discriminate.
    unfold creationInvariant in Hinv. rewrite Ech in Hinv. chain_facts.
    destruct ok; injection Hstep as <-.
    + unfold creationInvariant. cbn [chain surface].
      repeat split; try lia; assumption.
    + apply failChain_invariant; try lia; assumption.
  - (* a continuation runs *)
    destruct (nth_error (tails m) i) as [t|]; [|discriminate].
    destruct (ready t m); [|discriminate]. injection Hstep as <-.
    destruct (runTail_quiet (t_call t)
                (mkMachine (surface m) (chain m) (removeNth i (tails m))))
      as (Hc & _ & Ht & Hn & Hmk & Hks).
    destruct ignoresRequests_counted as (_ & I1 & I2 & I3 & _).
    pose proof (runTail_count isGetCertificate (t_call t)
                  (mkMachine (surface m) (chain m) (removeNth i (tails m)))
                  I1) as C1.
    pose proof (runTail_count isCreateMediaKeys (t_call t)
                  (mkMachine (surface m) (chain m) (removeNth i (tails m)))
                  I2) as C2.
    pose proof (runTail_count isVideoSetMediaKeys (t_call t)
                  (mkMachine (surface m) (chain m) (removeNth i (tails m)))
                  I3) as C3.
    cbn [surface chain] in *.
    unfold creationInvariant, unsetKeys in *.
    rewrite Hc, ?Ht, ?Hn, ?Hmk, C1, C2, C3.
    destruct (chain m); chain_facts; repeat split; try assumption;
      try (unfold tally; congruence).
    + rewrite Hks; assumption.
    + rewrite Hks; [assumption|].
      match goal with H : mediaKeysObject _ = MKNull |- _ => now rewrite H end.
  - (* a message event *)
    destruct (nth_error (keySessions (surface m)) i) as [ks|] eqn:Enth;
      [|discriminate].
    injection Hstep as <-.
    pose proof (onMessage_quiet ks) as Hq. apply tally_eq in Hq.
    destruct Hq as (Hq1 & Hq2 & Hq3).
    pose proof (onMessage_count isGetCertificate ks (fun _ => eq_refl)) as Hq4.
    unfold creationInvariant in *.
    cbn [chain surface video effects keySessions mediaKeysObject].
    rewrite ?tally_app, !count_app, ?Hq1, Hq2, Hq3, Hq4, !Nat.add_0_r.
    destruct (chain m); chain_facts;
      try match goal with
          | H : keySessions _ = [] |- _ =>
              rewrite H in Enth; destruct i; discriminate
          end;
      repeat split; try assumption; unfold tally; congruence.
Qed.

Lemma newMachine_invariant : creationInvariant newMachine.
Proof. repeat split. Qed.

Lemma run_invariant (ls : list Label) (m m' : Machine) :
  creationInvariant m -> run m ls = Some m' -> creationInvariant m'.
Proof.
  revert m. induction ls as [|l ls IH]; intros m Hinv Hrun; cbn [run] in Hrun.
  - now injection Hrun as <-.
  - destruct (step m l) as [m1|] eqn:Hstep; [|discriminate].
    apply (IH m1); [now apply (step_invariant m m1 l) | assumption].
Qed.

Lemma invariant_bounds (m : Machine) :
  creationInvariant m ->
  count isGetCertificate (effects (surface m)) <= 1
  /\ count isCreateMediaKeys (effects (surface m)) <= 1
  /\ count isVideoSetMediaKeys (effects (surface m)) <= 1.
Proof.
  unfold creationInvariant.
  pose proof (count_certificates_network (effects (surface m))) as Hcert.
  destruct (chain m); intros H; chain_facts; lia.
Qed.

(** [onKeySystemAccess] leaves [video.mediaKeysObject] and the pending
    queue as they are, and makes no key session. *)
Lemma onKeySystemAccess_video (c : Call) (k : string) (m : Machine) :
  mediaKeysObject (video (surface (onKeySystemAccess c k m)))
  = mediaKeysObject (video (surface m))
  /\ pendingSessionData (video (surface (onKeySystemAccess c k m)))
     = pendingSessionData (video (surface m))
  /\ keySystem (video (surface (onKeySystemAccess c k m))) = Some k
  /\ keySessions (surface (onKeySystemAccess c k m))
     = keySessions (surface m)
  /\ tails (onKeySystemAccess c k m) = tails m.
Proof.
  unfold onKeySystemAccess.
  destruct (lookupKeySystem (c_keySystems c) k) as [cfg|];
    [|repeat split].
  destruct (standardizeKeySystemOptions k cfg) as [o|e]; [|repeat split].
  destruct (getCertificate o); repeat split.
Qed.

(** Once [video.mediaKeysObject] has left [undefined] it never returns
    to it. *)
Lemma step_keeps_marked (m m' : Machine) (l : Label) :
  mediaKeysObject (video (surface m)) <> MKUndefined ->
  step m l = Some m' ->
  mediaKeysObject (video (surface m')) <> MKUndefined.
Proof.
  intros Hmk Hstep. destruct l;
    try (cbn [step] in Hstep; destruct (chain m); try discriminate;
         injection Hstep as <-; exact Hmk).
  - cbn [step] in Hstep. injection Hstep as <-. unfold standard5July2016.
    destruct (mediaKeysObject (video (surface m))) eqn:E;
      [contradiction | |]; cbn [surface]; now rewrite E.
  - destruct (step_granted m m' k Hstep) as (c & _ & _ & ->).
    now rewrite (proj1 (onKeySystemAccess_video c k _)).
  - destruct (step_denied m m' Hstep) as (c & _ & [(k & _ & ->)|[_ ->]]);
      exact Hmk.
  - cbn [step] in Hstep. destruct (chain m); try discriminate.
    injection Hstep as <-. unfold onMediaKeys.
    pose proof (setMediaKeys_object certificate mediaKeys
                  (Some (mkPromisified (getLicense keySystemOptions)
                           (c_eventBus c)))
                  (c_removeSession c) (c_eventBus c) (surface m)) as H.
    destruct (setMediaKeys _ _ _ _ _ _) as [s' [e|]]; cbn [fst] in H;
      cbn [surface failChain logError video mediaKeysObject];
      rewrite H; discriminate.
  - cbn [step] in Hstep. destruct (chain m); try discriminate.
    destruct ok; injection Hstep as <-; exact Hmk.
  - cbn [step] in Hstep.
    destruct (nth_error (tails m) i) as [t|]; [|discriminate].
    destruct (ready t m); [|discriminate]. injection Hstep as <-.
    destruct (runTail_quiet (t_call t)
                (mkMachine (surface m) (chain m) (removeNth i (tails m))))
      as (_ & _ & _ & _ & H & _).
    now rewrite H.
  - cbn [step] in Hstep.
    destruct (nth_error (keySessions (surface m)) i); [|discriminate].
    injection Hstep as <-. exact Hmk.
Qed.

Lemma run_keeps_marked (ls : list Label) (m m' : Machine) :
  mediaKeysObject (video (surface m)) <> MKUndefined ->
  run m ls = Some m' ->
  mediaKeysObject (video (surface m')) <> MKUndefined.
Proof.
  revert m. induction ls as [|l ls IH]; intros m Hmk Hrun; cbn [run] in Hrun.
  - now injection Hrun as <-.
  - destruct (step m l) as [m1|] eqn:Hstep; [|discriminate].
    apply (IH m1); [now apply (step_keeps_marked m m1 l) | assumption].
Qed.

(** The first thing a call does on an unmarked surface is to mark it. *)
Lemma standard5July2016_marks (c : Call) (m : Machine) :
  mediaKeysObject (video (surface (standard5July2016 c m))) <> MKUndefined.
Proof.
  unfold standard5July2016.
  destruct (mediaKeysObject (video (surface m))) eqn:E.
  - destruct (c_keySystems c) as [|[k cfg] rest]; discriminate.
  - cbn [surface]. now rewrite E.
  - cbn [surface]. now rewrite E.
Qed.

Lemma run_marks (ls : list Label) (m m' : Machine) :
  existsb isInvoke ls = true ->
  run m ls = Some m' ->
  mediaKeysObject (video (surface m')) <> MKUndefined.
Proof.
  revert m. induction ls as [|l ls IH]; intros m Hinv Hrun; [discriminate|].
  cbn [run] in Hrun. destruct (step m l) as [m1|] eqn:Hstep; [|discriminate].
  destruct l; try (apply (IH m1); assumption).
  cbn [step] in Hstep. injection Hstep as <-.
  apply (run_keeps_marked ls (standard5July2016 c m));
    [apply standard5July2016_marks | assumption].
Qed.

(** An attached MediaKeys object is never replaced. *)
Lemma step_keeps_object (m m' : Machine) (l : Label) (mk : nat) :
  creationInvariant m ->
  mediaKeysObject (video (surface m)) = MKObject mk ->
  step m l = Some m' ->
  mediaKeysObject (video (surface m')) = MKObject mk.
Proof.
  intros Hinv Hmk Hstep. unfold creationInvariant in Hinv.
  destruct l; cbn [step] in Hstep;
    try (destruct (chain m); try discriminate; chain_facts; congruence).
  - injection Hstep as <-. unfold standard5July2016. now rewrite Hmk.
  - destruct (chain m); try discriminate.
    destruct ok; injection Hstep as <-; exact Hmk.
  - destruct (nth_error (tails m) i) as [t|]; [|discriminate].
    destruct (ready t m); [|discriminate]. injection Hstep as <-.
    destruct (runTail_quiet (t_call t)
                (mkMachine (surface m) (chain m) (removeNth i (tails m))))
      as (_ & _ & _ & _ & H & _).
    now rewrite H.
  - destruct (nth_error (keySessions (surface m)) i); [|discriminate].
    injection Hstep as <-. exact Hmk.
Qed.

Lemma run_keeps_object (ls : list Label) (m m' : Machine) (mk : nat) :
  creationInvariant m ->
  mediaKeysObject (video (surface m)) = MKObject mk ->
  run m ls = Some m' ->
  mediaKeysObject (video (surface m')) = MKObject mk.
Proof.
  revert m. induction ls as [|l ls IH]; intros m Hinv Hmk Hrun;
    cbn [run] in Hrun.
  - now injection Hrun as <-.
  - destruct (step m l) as [m1|] eqn:Hstep; [|discriminate].
    apply (IH m1);
      [now apply (step_invariant m m1 l)
      | now apply (step_keeps_object m m1 l) | assumption].
Qed.

(** *** One negotiation *)

Lemma requestedKeys_app (a b : list Effect) :
  requestedKeys (a ++ b) = requestedKeys a ++ requestedKeys b.
Proof. apply flat_map_app. Qed.

Lemma requestedKeys_requests (keys : list string) :
  requestedKeys (map RequestAccess keys) = keys.
Proof.
  induction keys as [|k keys IH]; [reflexivity|].
  cbn [map requestedKeys flat_map requestedKey app]. f_equal. exact IH.
Qed.

Lemma requestedKeys_filter (effs : list Effect) :
  requestedKeys effs = requestedKeys (filter isRequestAccess effs).
Proof.
  induction effs as [|e effs IH]; [reflexivity|].
  destruct e; cbn [filter isRequestAccess]; try exact IH.
  cbn [requestedKeys flat_map requestedKey app]. f_equal. exact IH.
Qed.

Lemma requestedKeys_count (effs : list Effect) :
  length (requestedKeys effs) = count isRequestAccess effs.
Proof.
  unfold count. induction effs as [|e effs IH]; [reflexivity|].
  destruct e; cbn [filter isRequestAccess]; try exact IH.
  cbn [requestedKeys flat_map requestedKey app length]. f_equal. exact IH.
Qed.

Lemma firstn_succ {A : Type} (l : list A) (n : nat) (x : A) :
  nth_error l n = Some x -> firstn (S n) l = firstn n l ++ [x].
Proof.
  revert n. induction l as [|a l IH]; intros [|n]; cbn [nth_error];
    try discriminate.
  - now intros [= ->].
  - intros H. cbn [firstn app] in *. f_equal. now apply IH.
Qed.

(** While the platform is awaited, the key asked for when the pending
    request is rejected is the key after the ones asked for so far. *)
Lemma nextKeySystem_next (c : Call) (s : Surface) (n : nat) (k : string) :
  S n <= length (c_keySystems c) ->
  requestedKeys (effects s) = firstn (S n) (map fst (c_keySystems c)) ->
  nextKeySystem c s = Some k ->
  S (S n) <= length (c_keySystems c)
  /\ firstn (S (S n)) (map fst (c_keySystems c))
     = firstn (S n) (map fst (c_keySystems c)) ++ [k].
Proof.
  intros Hlen Hreq. unfold nextKeySystem.
  rewrite Hreq, length_firstn, length_map, Nat.min_l by exact Hlen.
  destruct (nth_error (c_keySystems c) (S n)) as [[k' cfg]|] eqn:E;
    [|discriminate].
  intros [= ->]. split.
  - apply Nat.le_succ_l. apply nth_error_Some. now rewrite E.
  - apply firstn_succ. now rewrite (map_nth_error fst _ _ E).
Qed.

Lemma onMessage_filter (p : Effect -> bool) (ks : KeySession) :
  (forall f, p (CallGetLicense f) = false) -> filter p (onMessage ks) = [].
Proof.
  intros Hp. unfold onMessage. destruct (ks_getLicense ks) as [g|];
    [|reflexivity].
  destruct (pl_getLicenseFn g); [|reflexivity].
  cbn [filter]. now rewrite Hp.
Qed.

(** A turn that requests no access and does not touch the stage at
    which the negotiation is awaited keeps what is known of the
    negotiation. *)
Lemma negotiation_kept (keySystems : KeySystems) (m m' : Machine) :
  negotiation keySystems m ->
  mediaKeysObject (video (surface m')) <> MKUndefined ->
  filter isRequestAccess (effects (surface m'))
  = filter isRequestAccess (effects (surface m)) ->
  (chain m' = chain m
   \/ (forall c, chain m <> AwaitAccess c)
      /\ (forall c, chain m' <> AwaitAccess c)) ->
  negotiation keySystems m'.
Proof.
  intros [_ Hn] Hmk Hf Hch. split; [assumption|].
  rewrite requestedKeys_filter, Hf, <- requestedKeys_filter.
  destruct Hch as [-> | [H1 H2]]; [exact Hn|].
  destruct (chain m) as [|c| | | |] eqn:E1; [|now contradiction (H1 c)| | | |];
    (destruct (chain m') as [|c'| | | |] eqn:E2;
     [|now contradiction (H2 c')| | | |]); exact Hn.
Qed.

Lemma step_negotiation (keySystems : KeySystems) (m m' : Machine)
  (l : Label) :
  negotiation keySystems m -> step m l = Some m' ->
  negotiation keySystems m'.
Proof.
  intros Hneg Hstep.
  pose proof (step_keeps_marked m m' l (proj1 Hneg) Hstep) as Hmk'.
  destruct l.
  - (* a call on a marked surface *)
    cbn [step] in Hstep. injection Hstep as <-.
    apply (negotiation_kept keySystems m); try assumption.
    + unfold standard5July2016.
      destruct (mediaKeysObject (video (surface m))) eqn:E;
        [now contradiction (proj1 Hneg) | reflexivity | reflexivity].
    + left. unfold standard5July2016.
      destruct (mediaKeysObject (video (surface m))) eqn:E;
        [now contradiction (proj1 Hneg) | reflexivity | reflexivity].
  - (* the pending request is granted *)
    destruct (step_granted m m' k Hstep) as (c & Ech & _ & ->).
    destruct Hneg as [Hmk Hn]. rewrite Ech in Hn.
    destruct Hn as (Hks & n & Hlen & Hreq).
    split; [assumption|].
    unfold onKeySystemAccess.
    destruct (lookupKeySystem (c_keySystems c) k) as [cfg|];
      [destruct (standardizeKeySystemOptions k cfg) as [o|e];
       [destruct (getCertificate o)|]|];
      cbn [chain failChain surface logError perform effects];
      exists (S n); rewrite requestedKeys_app, Hreq; apply app_nil_r.
  - (* the pending request is rejected *)
    destruct (step_denied m m' Hstep) as (c & Ech & [(k & Hk & ->)|[_ ->]]);
      destruct Hneg as [Hmk Hn]; rewrite Ech in Hn;
      destruct Hn as (Hks & n & Hlen & Hreq); (split; [assumption|]).
    + cbn [chain surface perform effects]. rewrite Ech.
      split; [assumption|]. subst keySystems.
      destruct (nextKeySystem_next c (surface m) n k Hlen Hreq Hk)
        as [Hlen' Hnext].
      exists (S n). split; [assumption|].
      rewrite requestedKeys_app, Hreq, Hnext. reflexivity.
    + cbn [chain failChain surface logError effects].
      exists (S n). rewrite requestedKeys_app, Hreq. apply app_nil_r.
  - (* certificate fetched *)
    cbn [step] in Hstep. destruct (chain m) eqn:Ech; try discriminate.
    injection Hstep as <-.
    apply (negotiation_kept keySystems m); try assumption.
    + cbn [surface perform effects]. rewrite filter_app. apply app_nil_r.
    + right. rewrite Ech. split; discriminate.
  - (* certificate failed *)
    cbn [step] in Hstep. destruct (chain m) eqn:Ech; try discriminate.
    injection Hstep as <-.
    apply (negotiation_kept keySystems m); try assumption.
    + cbn [surface failChain logError effects]. rewrite filter_app.
      apply app_nil_r.
    + right. rewrite Ech. split; discriminate.
  - (* MediaKeys created *)
    cbn [step] in Hstep. destruct (chain m) eqn:Ech; try discriminate.
    injection Hstep as <-.
    apply (negotiation_kept keySystems m); try assumption.
    + unfold onMediaKeys.
      pose proof (setMediaKeys_filter isRequestAccess certificate mediaKeys
                    (Some (mkPromisified (getLicense keySystemOptions)
                             (c_eventBus c)))
                    (c_removeSession c) (c_eventBus c) (surface m)
                    (proj1 ignoresRequests_counted)) as Hf.
      assert (Hc : filter isRequestAccess
                     (certificateEffects mediaKeys certificate) = [])
        by (destruct certificate; reflexivity).
      rewrite Hc in Hf.
      destruct (setMediaKeys _ _ _ _ _ _) as [s' [e|]]; cbn [fst snd] in Hf;
        cbn [surface failChain logError effects];
        rewrite ?filter_app, Hf; cbn [filter isRequestAccess app];
        now rewrite ?app_nil_r.
    + right. rewrite Ech. split; [discriminate|]. unfold onMediaKeys.
      destruct (setMediaKeys _ _ _ _ _ _) as [s' [e|]]; discriminate.
  - (* MediaKeys creation failed *)
    cbn [step] in Hstep. destruct (chain m) eqn:Ech; try discriminate.
    injection Hstep as <-.
    apply (negotiation_kept keySystems m); try assumption.
    + cbn [surface failChain logError effects]. rewrite filter_app.
      apply app_nil_r.
    + right. rewrite Ech. split; discriminate.
  - (* attachment settled *)
    cbn [step] in Hstep. destruct (chain m) eqn:Ech; try discriminate.
    apply (negotiation_kept keySystems m); try assumption.
    + destruct ok; injection Hstep as <-; [reflexivity|].
      cbn [surface failChain logError effects]. rewrite filter_app.
      apply app_nil_r.
    + right. rewrite Ech. split; [discriminate|].
      destruct ok; injection Hstep as <-; discriminate.
  - (* a continuation runs *)
    cbn [step] in Hstep.
    destruct (nth_error (tails m) i) as [t|]; [|discriminate].
    destruct (ready t m); [|discriminate]. injection Hstep as <-.
    apply (negotiation_kept keySystems m); try assumption.
    + now rewrite runTail_filter by apply ignoresRequests_counted.
    + left.
      exact (proj1 (runTail_quiet (t_call t)
                      (mkMachine (surface m) (chain m)
                         (removeNth i (tails m))))).
  - (* a message event *)
    cbn [step] in Hstep.
    destruct (nth_error (keySessions (surface m)) i) as [ks|];
      [|discriminate].
    injection Hstep as <-.
    apply (negotiation_kept keySystems m); try assumption.
    + cbn [surface effects]. rewrite filter_app, onMessage_filter by auto.
      apply app_nil_r.
    + now left.
Qed.

Lemma run_negotiation (keySystems : KeySystems) (ls : list Label)
  (m m' : Machine) :
  negotiation keySystems m -> run m ls = Some m' ->
  negotiation keySystems m'.
Proof.
  revert m. induction ls as [|l ls IH]; intros m Hn Hrun; cbn [run] in Hrun.
  - now injection Hrun as <-.
  - destruct (step m l) as [m1|] eqn:Hstep; [|discriminate].
    apply (IH m1); [now apply (step_negotiation keySystems m m1 l)
                   | assumption].
Qed.

(** The first call starts the one negotiation of the surface. *)
Lemma standard5July2016_negotiation (c : Call) :
  negotiation (c_keySystems c) (standard5July2016 c newMachine).
Proof.
  unfold standard5July2016. cbn [newMachine surface video newVideo
                                  mediaKeysObject].
  destruct (c_keySystems c) as [|[k cfg] rest] eqn:E.
  - split; [discriminate|]. now exists 0.
  - split; [discriminate|]. cbn [chain]. split; [exact E|].
    exists 0. split; [cbn [length]; lia | reflexivity].
Qed.

(** In a run from a new surface, the keys requested are the first keys
    of the configuration of the first call. *)
Lemma run_requests (ls : list Label) (m : Machine) :
  run newMachine ls = Some m ->
  exists n,
    requestedKeys (effects (surface m)) = firstn n (map fst (firstInvoked ls)).
Proof.
  destruct ls as [|l ls]; cbn [run].
  - intros [= <-]. now exists 0.
  - destruct l; cbn [step newMachine chain tails surface keySessions];
      try discriminate.
    + intros Hrun. cbn [firstInvoked].
      pose proof (run_negotiation (c_keySystems c) ls _ m
                    (standard5July2016_negotiation c) Hrun) as [_ Hn].
      destruct (chain m);
        [| destruct Hn as (_ & n & _ & Hn); now exists (S n) | | | |];
        exact Hn.
    + destruct i; discriminate.
    + destruct i; discriminate.
Qed.

Lemma NoDup_firstn {A : Type} (n : nat) (l : list A) :
  NoDup l -> NoDup (firstn n l).
Proof.
  intros H. rewrite <- (firstn_skipn n l) in H.
  now apply NoDup_app_remove_r in H.
Qed.

(** *** One entry into the creation path *)

Lemma creationEntries_marked (ls : list Label) (m : Machine) :
  mediaKeysObject (video (surface m)) <> MKUndefined ->
  creationEntries m ls = 0.
Proof.
  revert m. induction ls as [|l ls IH]; intros m Hmk; [reflexivity|].
  cbn [creationEntries]. destruct (step m l) as [m'|] eqn:Hstep;
    [|reflexivity].
  rewrite (IH m' (step_keeps_marked m m' l Hmk Hstep)).
  destruct l; try reflexivity.
  destruct (mediaKeysObject (video (surface m)));
    [now contradiction Hmk | reflexivity | reflexivity].
Qed.

Lemma creationEntries_once (ls : list Label) (m : Machine) :
  creationEntries m ls <= 1.
Proof.
  revert m. induction ls as [|l ls IH]; intros m; cbn [creationEntries];
    [lia|].
  destruct (step m l) as [m'|] eqn:Hstep; [|lia].
  destruct l; try exact (IH m').
  destruct (mediaKeysObject (video (surface m))); try exact (IH m').
  cbn [step] in Hstep. injection Hstep as <-.
  rewrite creationEntries_marked by apply standard5July2016_marks. lia.
Qed.

(** *** Later calls *)

Lemma removeNth_last {A : Type} (l : list A) (x : A) :
  removeNth (length l) (l ++ [x]) = l.
Proof. induction l as [|y l IH]; [reflexivity|]. cbn. now rewrite IH. Qed.

Lemma nth_error_last {A : Type} (l : list A) (x : A) :
  nth_error (l ++ [x]) (length l) = Some x.
Proof. induction l as [|y l IH]; [reflexivity | exact IH]. Qed.

(** The continuation of a call is [addSession] with the licence function
    of the call, unless building that argument throws. *)
Lemma runTail_addSession (c : Call) (m : Machine) :
  (reachesAddSession c (video (surface m)) = true ->
   runTail c m
   = mkMachine
       (fst (addSession (c_initDataType c) (c_initData c)
               (getLicenseFor c (video (surface m))) (c_removeSession c)
               (c_eventBus c) (surface m)))
       (chain m) (tails m))
  /\ (reachesAddSession c (video (surface m)) = false -> runTail c m = m).
Proof.
  unfold reachesAddSession, acceptedFor, getLicenseFor, runTail.
  destruct (keySystem (video (surface m))) as [k|];
    [|split; [reflexivity | discriminate]].
  destruct (lookupKeySystem (c_keySystems c) k) as [cfg|];
    [|split; [discriminate | reflexivity]].
  destruct (standardizeKeySystemOptions k cfg) as [o|e]; cbn [throws negb];
    split; try discriminate; reflexivity.
Qed.

(** ** The pending queue on a marked surface *)

Lemma addSession_keeps_queue (t : string) (v : InitData)
  (g : option Promisified) (r : nat) (b : option nat) (s : Surface) :
  (exists q, pendingSessionData (video s) = Some q) ->
  snd (addSession t v g r b s) = None
  /\ exists q, pendingSessionData (video (fst (addSession t v g r b s)))
               = Some q.
Proof.
  intros [q Hq]. unfold addSession.
  destruct (mediaKeysObject (video s)); rewrite ?Hq; cbn; eauto.
Qed.

Lemma runTail_keeps_queue (c : Call) (m : Machine) :
  (exists q, pendingSessionData (video (surface m)) = Some q) ->
  exists q, pendingSessionData (video (surface (runTail c m))) = Some q.
Proof.
  intros Hq. unfold runTail.
  destruct (keySystem (video (surface m))) as [k|].
  - destruct (lookupKeySystem (c_keySystems c) k) as [cfg|]; [|exact Hq].
    destruct (standardizeKeySystemOptions k cfg) as [o|e]; [|exact Hq].
    cbn [surface]. now apply addSession_keeps_queue.
  - cbn [surface]. now apply addSession_keeps_queue.
Qed.

Lemma setMediaKeys_keeps_queue (certificate : option (list byte)) (mk : nat)
  (g : option Promisified) (r : nat) (b : option nat) (s : Surface) :
  (exists q, pendingSessionData (video s) = Some q) ->
  snd (setMediaKeys certificate mk g r b s) = None
  /\ pendingSessionData (video (fst (setMediaKeys certificate mk g r b s)))
     = Some [].
Proof.
  intros [q Hq]. unfold setMediaKeys. cbn [video pendingSessionData].
  rewrite Hq. split; reflexivity.
Qed.

Lemma step_queueReady (m m' : Machine) (l : Label) :
  creationInvariant m -> queueReady m -> step m l = Some m' -> queueReady m'.
Proof.
  unfold queueReady. intros Hinv Hq Hstep.
  destruct l; cbn [step] in Hstep;
    try (destruct (chain m); try discriminate; injection Hstep as <-;
         exact Hq).
  - injection Hstep as <-. unfold standard5July2016.
    destruct (mediaKeysObject (video (surface m))) eqn:E.
    + destruct (c_keySystems c) as [|[k cfg] rest]; intros _; cbn; eauto.
    + cbn [surface]. rewrite E. intros _. apply Hq. congruence.
    + cbn [surface]. rewrite E. intros _. apply Hq. congruence.
  - destruct (step_granted m m' k Hstep) as (c & _ & _ & ->).
    destruct (onKeySystemAccess_video c k m) as (V1 & V2 & _).
    rewrite V1, V2. exact Hq.
  - destruct (step_denied m m' Hstep) as (c & _ & [(k & _ & ->)|[_ ->]]);
      exact Hq.
  - destruct (chain m) eqn:Ech; try discriminate. injection Hstep as <-.
    unfold creationInvariant in Hinv. rewrite Ech in Hinv.
    destruct Hinv as [_ Hmk].
    assert (Hsome : exists q,
               pendingSessionData (video (surface m)) = Some q)
      by (apply Hq; congruence).
    unfold onMediaKeys.
    destruct (setMediaKeys_keeps_queue certificate mediaKeys
                (Some (mkPromisified (getLicense keySystemOptions)
                         (c_eventBus c)))
                (c_removeSession c) (c_eventBus c) (surface m) Hsome)
      as [Hnone Hempty].
    destruct (setMediaKeys _ _ _ _ _ _) as [s' o]. cbn [fst snd] in *.
    subst o. intros _. cbn [surface]. eauto.
  - destruct (chain m); try discriminate.
    destruct ok; injection Hstep as <-; exact Hq.
  - destruct (nth_error (tails m) i) as [t|]; [|discriminate].
    destruct (ready t m); [|discriminate]. injection Hstep as <-.
    destruct (runTail_quiet (t_call t)
                (mkMachine (surface m) (chain m) (removeNth i (tails m))))
      as (_ & _ & _ & _ & H & _).
    rewrite H. cbn [surface]. intros Hmk.
    apply runTail_keeps_queue. cbn [surface]. now apply Hq.
  - destruct (nth_error (keySessions (surface m)) i); [|discriminate].
    injection Hstep as <-. exact Hq.
Qed.

(** In every run, once the surface is marked the pending queue is an
    array: neither [addSession] nor [setMediaKeys] meets an unassigned
    [pendingSessionData]. *)
Lemma run_queueReady (ls : list Label) (m : Machine) :
  run newMachine ls = Some m -> queueReady m.
Proof.
  assert (H : forall ls m0 m1,
             creationInvariant m0 -> queueReady m0 ->
             run m0 ls = Some m1 -> queueReady m1).
  { clear. induction ls as [|l ls IH]; intros m0 m1 Hinv Hq Hrun;
      cbn [run] in Hrun.
    - now injection Hrun as <-.
    - destruct (step m0 l) as [m2|] eqn:Hstep; [|discriminate].
      apply (IH m2 m1);
        [now apply (step_invariant m0 m2 l)
        | now apply (step_queueReady m0 m2 l) | assumption]. }
  apply (H ls newMachine m newMachine_invariant).
  intros Hmk. now contradiction Hmk.
Qed.

Lemma run_queueReady_witness :
  exists m,
    run newMachine sampleRun = Some m
    /\ exists q, pendingSessionData (video (surface m)) = Some q.
Proof.
  eexists. split; [reflexivity|].
  apply (run_queueReady sampleRun _ eq_refl). discriminate.
Defined.

Lemma run_keeps_queueReady (ls : list Label) (m m' : Machine) :
  creationInvariant m -> queueReady m -> run m ls = Some m' -> queueReady m'.
Proof.
  revert m. induction ls as [|l ls IH]; intros m Hinv Hq Hrun;
    cbn [run] in Hrun.
  - now injection Hrun as <-.
  - destruct (step m l) as [m1|] eqn:Hstep; [|discriminate].
    apply (IH m1);
      [now apply (step_invariant m m1 l)
      | now apply (step_queueReady m m1 l) | assumption].
Qed.

Lemma newMachine_queueReady : queueReady newMachine.
Proof. intros Hmk. now contradiction Hmk. Qed.

(** C4 (amended).  On one playback surface, whatever calls of
    [standard5July2016] and whatever platform answers follow one
    another: at most one call takes the creation path; the keys access
    is requested for are the first keys of the configuration of the
    first call, each requested once, in the order of the object (one
    negotiation); a certificate is
    asked for at most once, a MediaKeys object is asked for at most once
    and attached to the video at most once; a call that finds
    [video.mediaKeysObject] unset marks it [null] before it returns, and
    after the first call the field is never unset again; a call that
    finds it marked changes nothing but the list of [addSession]
    continuations, to which it adds its own; that continuation can run
    at once, and running it is the call of [addSession] with the
    arguments of the call when [video.keySystem] is not set or
    [standardizeKeySystemOptions] accepts the configuration of the call
    for it, and changes nothing when [standardizeKeySystemOptions]
    throws; and a MediaKeys object, once assigned, is never replaced. *)
Theorem mediaKeys_created_at_most_once (ls : list Label) (m : Machine) :
  run newMachine ls = Some m ->
  creationEntries newMachine ls <= 1
  /\ (exists n,
        requestedKeys (effects (surface m))
        = firstn n (map fst (firstInvoked ls)))
  /\ (NoDup (map fst (firstInvoked ls)) ->
      NoDup (requestedKeys (effects (surface m))))
  /\ count isRequestAccess (effects (surface m)) <= length (firstInvoked ls)
  /\ count isGetCertificate (effects (surface m)) <= 1
  /\ count isCreateMediaKeys (effects (surface m)) <= 1
  /\ count isVideoSetMediaKeys (effects (surface m)) <= 1
  /\ (existsb isInvoke ls = true ->
      mediaKeysObject (video (surface m)) <> MKUndefined)
  /\ (forall c,
        mediaKeysObject (video (surface m)) = MKUndefined ->
        mediaKeysObject (video (surface (standard5July2016 c m))) = MKNull)
  /\ (forall c,
        mediaKeysObject (video (surface m)) <> MKUndefined ->
        standard5July2016 c m
        = mkMachine (surface m) (chain m) (tails m ++ [mkTail c false])
        /\ step (standard5July2016 c m) (RunTail (length (tails m)))
           = Some (runTail c m)
        /\ (reachesAddSession c (video (surface m)) = true ->
            addSession (c_initDataType c) (c_initData c)
              (getLicenseFor c (video (surface m))) (c_removeSession c)
              (c_eventBus c) (surface m)
            = (surface (runTail c m), None))
        /\ (reachesAddSession c (video (surface m)) = false ->
            runTail c m = m))
  /\ (forall mk ls' m',
        mediaKeysObject (video (surface m)) = MKObject mk ->
        run m ls' = Some m' ->
        mediaKeysObject (video (surface m')) = MKObject mk).
Proof.
  intros Hrun.
  pose proof (run_invariant ls newMachine m newMachine_invariant Hrun) as Hinv.
  pose proof (run_keeps_queueReady ls newMachine m newMachine_invariant
                newMachine_queueReady Hrun) as Hq.
  destruct (invariant_bounds m Hinv) as (H1 & H2 & H3).
  destruct (run_requests ls m Hrun) as [n Hn].
  split; [apply creationEntries_once|].
  split; [now exists n|].
  split; [intros Hnd; rewrite Hn; now apply NoDup_firstn|].
  split.
  { rewrite <- requestedKeys_count, Hn, length_firstn, length_map. lia. }
  repeat (split; [assumption|]).
  split; [intros Hcalled; now apply (run_marks ls newMachine m)|].
  split.
  { intros c E. unfold standard5July2016. rewrite E.
    destruct (c_keySystems c) as [|[k cfg] rest]; reflexivity. }
  split.
  - intros c Hmk.
    assert (Hcall : standard5July2016 c m
                    = mkMachine (surface m) (chain m)
                        (tails m ++ [mkTail c false])).
    { unfold standard5July2016.
      destruct (mediaKeysObject (video (surface m)));
        [contradiction | |]; reflexivity. }
    destruct (runTail_addSession c m) as [Hyes Hno].
    split; [exact Hcall|]. split; [|split; [|exact Hno]].
    + rewrite Hcall. cbn [step tails]. rewrite nth_error_last.
      cbn [ready t_afterChain negb orb surface chain].
      rewrite removeNth_last. now destruct m.
    + intros Hreach. rewrite (Hyes Hreach). cbn [surface].
      destruct (Hq Hmk) as [q Eq].
      destruct (addSession_keeps_queue (c_initDataType c) (c_initData c)
                  (getLicenseFor c (video (surface m))) (c_removeSession c)
                  (c_eventBus c) (surface m) (ex_intro _ q Eq)) as [Hnone _].
      destruct (addSession _ _ _ _ _ _) as [s' e]. cbn [fst snd] in *.
      now subst e.
  - intros mk ls' m' E Hrun'. now apply (run_keeps_object ls' m m' mk).
Qed.

(** A first call whose configuration lists two key systems, the
    platform rejecting the first and granting the second; a second call
    while the negotiation is going on. *)
Lemma mediaKeys_created_at_most_once_witness :
  exists m,
    run newMachine negotiatedRun = Some m
    /\ requestedKeys (effects (surface m))
       = ["com.microsoft.playready"%string; "com.widevine.alpha"%string]
    /\ creationEntries newMachine negotiatedRun <= 1
    /\ count isCreateMediaKeys (effects (surface m)) <= 1
    /\ count isVideoSetMediaKeys (effects (surface m)) <= 1
    /\ mediaKeysObject (video (surface m)) = MKObject 7
    /\ length (keySessions (surface m)) = 2.
Proof.
  eexists. split; [reflexivity|].
  pose proof (mediaKeys_created_at_most_once negotiatedRun _ eq_refl)
    as (H1 & _ & _ & _ & _ & H2 & H3 & _).
  repeat split; assumption.
Defined.

(** A later call whose configuration for the granted key system names
    no licence source: its continuation runs and [addSession] is not
    called, where it would have queued the pair. *)
Lemma later_call_skips_addSession_counterexample :
  exists m,
    run newMachine [Invoke rejectedCall; AccessGranted "com.widevine.alpha"]
    = Some m
    /\ mediaKeysObject (video (surface m)) = MKNull
    /\ step (standard5July2016 rejectedCall m) (RunTail (length (tails m)))
       = Some m
    /\ forall g,
         fst (addSession (c_initDataType rejectedCall)
                (c_initData rejectedCall) g (c_removeSession rejectedCall)
                (c_eventBus rejectedCall) (surface m))
         <> surface m.
Proof.
  eexists. split; [reflexivity|]. split; [reflexivity|].
  split; [reflexivity|].
  intros g H. apply (f_equal (fun s => pendingSessionData (video s))) in H.
  discriminate H.
Qed.


(** ** Configuration *)







(** ** Licence notifications *)

(** Standard path: one notification per callback, before the promise is
    settled. *)
Lemma promisifyGetLicense_attempted_once (f : LicenseFn) (bus : nat)
  (r : Reply) :
  attempts (exchange (promisifyGetLicense f (Some bus)) r) = 1
  /\ attemptBeforeOutcome (exchange (promisifyGetLicense f (Some bus)) r)
     = true.
Proof.
  destruct r as [[e|] l]; split; reflexivity.
Qed.

(** FairPlay path: one notification per callback, before the promise is
    rejected or the session updated. *)
Lemma addKey_attempted_once (f : LicenseFn) (bus : nat) (r : Reply) :
  attempts (exchange (addKeyOnMessage f (Some bus)) r) = 1
  /\ attemptBeforeOutcome (exchange (addKeyOnMessage f (Some bus)) r) = true.
Proof.
  destruct r as [[e|] l]; split; reflexivity.
Qed.

(** PlayReady path without a [getKey] function.  The key message is
    read first: when [getMessageContents] throws, the listener throws
    the same exception, nothing is requested and nothing is notified.
    Otherwise the request is posted to [playreadyOptions.url ||
    event.destinationURL] with the headers and the challenge of the key
    message, and its callback notifies once, before the failure is logged
    or the session updated. *)
Lemma addKeyToSession_url_attempted_once (maxArguments : nat)
  (parseXml : JsString -> XmlNode) (atob : string -> Result string)
  (cfg : KeySystemConfig) (event : KeyMessage) (bus : nat) (r : Reply) :
  getKey (playreadyOptionsOf cfg) = None ->
  let target := playreadyUrl (playreadyOptionsOf cfg) event in
  match getMessageContents maxArguments parseXml atob (message event) with
  | Throw e =>
      addKeyToSession maxArguments parseXml atob cfg event (Some bus)
      = Throw e
  | Ok contents =>
      exists call,
        addKeyToSession maxArguments parseXml atob cfg event (Some bus)
        = Ok call
        /\ requestPlayreadyLicense maxArguments parseXml atob target
             (message event)
           = Ok (mkXhrRequest target (mc_headers contents)
                   (mc_message contents))
        /\ fst call = [PostLicenseRequest target]
        /\ attempts (exchange call r) = 1
        /\ attemptBeforeOutcome (exchange call r) = true
  end.
Proof.
  intros Hkey target. unfold addKeyToSession, requestPlayreadyLicense.
  destruct cfg as [s|o]; cbn [playreadyOptionsOf] in *; rewrite ?Hkey;
    fold target;
    (destruct (getMessageContents maxArguments parseXml atob (message event))
       as [contents|e]; cbn [bind]; [|reflexivity]);
    eexists; (split; [reflexivity|]); cbn [xhr_uri fst];
    destruct r as [[e|] l]; repeat split.
Qed.

(** An empty key message, read as the sample document: the request is
    posted to the configured URL and its failure notified once. *)
Lemma addKeyToSession_url_attempted_once_witness :
  exists call,
    addKeyToSession 1000 (fun _ => sampleKeyMessage) (fun s => Ok s)
      (CfgString "https://license.example/playready")
      (mkKeyMessage "https://destination.example/rights" []) (Some 0)
    = Ok call
    /\ fst call = [PostLicenseRequest "https://license.example/playready"]
    /\ attempts
         (exchange call (mkReply (Some "network error"%string) None))
       = 1.
Proof.
  pose proof (addKeyToSession_url_attempted_once 1000
                (fun _ => sampleKeyMessage) (fun s => Ok s)
                (CfgString "https://license.example/playready")
                (mkKeyMessage "https://destination.example/rights" []) 0
                (mkReply (Some "network error"%string) None) eq_refl) as H.
  cbv zeta in H. cbn in H. destruct H as (call & E & _ & Hfst & Hatt & _).
  exists call. repeat split; assumption.
Defined.

(** A key message of one byte: the listener throws before any request
    is made. *)
Example addKeyToSession_odd_message :
  addKeyToSession 1000 (fun _ => sampleKeyMessage) (fun s => Ok s)
    (CfgString "https://license.example/playready")
    (mkKeyMessage "https://destination.example/rights" [x01]) (Some 0)
  = Throw RangeError.
Proof. reflexivity. Qed.

(** C7, at the failing input: a PlayReady configuration with a [getKey]
    function.  The hook is called, and whatever it replies, the exchange
    emits no [licenserequestattempted] notification. *)
Theorem addKeyToSession_getKey_never_notifies (maxArguments : nat)
  (parseXml : JsString -> XmlNode) (atob : string -> Result string)
  (f : nat) (u : option string) (g : option LicenseFn) (c : option nat)
  (p : InitData) (a v : option string) (event : KeyMessage)
  (eventBus : option nat) (r : Reply) :
  exists call,
    addKeyToSession maxArguments parseXml atob
      (CfgObject (mkOptions u g c (Some f) p a v)) event eventBus
    = Ok call
    /\ fst call = [CallGetKey f (destinationURL event)]
    /\ attempts (exchange call r) = 0.
Proof.
  eexists. split; [reflexivity|]. split; [reflexivity|].
  destruct r as [[e|] l]; reflexivity.
Qed.

Example addKeyToSession_getKey_example :
  addKeyToSession 1000 (fun _ => sampleKeyMessage) (fun s => Ok s)
    (CfgObject (mkOptions None None None (Some 4) Undefined None None))
    (mkKeyMessage "https://license.example/playready" [x01]) (Some 0)
  = Ok ([CallGetKey 4 "https://license.example/playready"],
        fun r : Reply =>
          match r_err r with
          | Some e => [LogError (String.append "Unable to get key: " e)]
          | None => [SessionUpdate (r_license r)]
          end).
Proof. reflexivity. Qed.

(* ================================================================== *)
(** * Part II, continued                                               *)
(* ================================================================== *)

(** ** Key-system negotiation *)

Lemma accessRequests_all_rejected (supported : string -> bool)
  (ks : KeySystems) :
  firstSupported supported ks = None ->
  (forall k c, In (k, c) ks -> supported k = false)
  /\ accessRequests supported ks = map accessRequest ks.
Proof.
  induction ks as [|[k cfg] rest IH]; simpl.
  - intros _. split; [intros k c [] | reflexivity].
  - destruct (supported k) eqn:Hs; [discriminate|].
    intros H. destruct (IH H) as [Hall Hreq]. split.
    + intros k' c' [E | Hin].
      * injection E as <- <-. exact Hs.
      * eapply Hall; eassumption.
    + now rewrite Hreq.
Qed.

Lemma accessRequests_first (supported : string -> bool) (ks : KeySystems)
  (k : string) :
  firstSupported supported ks = Some k ->
  exists pre cfg post,
    ks = pre ++ (k, cfg) :: post
    /\ supported k = true
    /\ (forall k' c', In (k', c') pre -> supported k' = false)
    /\ accessRequests supported ks = map accessRequest (pre ++ [(k, cfg)]).
Proof.
  induction ks as [|[k0 cfg0] rest IH]; simpl; [discriminate|].
  destruct (supported k0) eqn:Hs.
  - intros E. injection E as <-.
    exists [], cfg0, rest. repeat split; auto. intros k' c' [].
  - intros H. destruct (IH H) as (pre & cfg & post & -> & Hk & Hpre & Hreq).
    exists ((k0, cfg0) :: pre), cfg, post. repeat split; auto.
    + intros k' c' [E | Hin].
      * injection E as <- <-. exact Hs.
      * eapply Hpre; eassumption.
    + simpl. now rewrite Hreq.
Qed.

(** [getSupportedKeySystem] is first-match-wins in the order of the
    keys of [keySystems].  When no key is listed no promise is built and
    the platform is not asked.  When the promise resolves with the access
    for [k], every key listed before [k] was asked and rejected, [k] was
    asked last, and no key listed after [k] was asked.  When the promise
    is rejected, every key was asked, in order, and rejected.  Each
    request carries the capabilities built from the truthy content types
    of its own key system. *)
Theorem getSupportedKeySystem_first_match (supported : string -> bool)
  (ks : KeySystems) :
  match getSupportedKeySystem supported ks with
  | None => ks = [] /\ accessRequests supported ks = []
  | Some (Some k) =>
      exists pre cfg post,
        ks = pre ++ (k, cfg) :: post
        /\ supported k = true
        /\ (forall k' c', In (k', c') pre -> supported k' = false)
        /\ accessRequests supported ks
           = map accessRequest (pre ++ [(k, cfg)])
  | Some None =>
      ks <> []
      /\ (forall k' c', In (k', c') ks -> supported k' = false)
      /\ accessRequests supported ks = map accessRequest ks
  end.
Proof.
  unfold getSupportedKeySystem.
  destruct ks as [|e rest]; [split; reflexivity|].
  destruct (firstSupported supported (e :: rest)) as [k|] eqn:E.
  - now apply accessRequests_first.
  - split; [discriminate|]. now apply accessRequests_all_rejected.
Qed.

(** *** The negotiation of [standard5July2016] on a platform *)

Lemma onKeySystemAccess_requests (c : Call) (k : string) (m : Machine) :
  requestedKeys (effects (surface (onKeySystemAccess c k m)))
  = requestedKeys (effects (surface m))
  /\ forall c', chain (onKeySystemAccess c k m) <> AwaitAccess c'.
Proof.
  unfold onKeySystemAccess.
  destruct (lookupKeySystem (c_keySystems c) k) as [cfg|];
    [destruct (standardizeKeySystemOptions k cfg) as [o|e];
     [destruct (getCertificate o)|]|];
    cbn [chain failChain surface logError perform effects];
    rewrite requestedKeys_app; (split; [apply app_nil_r | discriminate]).
Qed.

(** From a state in which the request for [k0] is pending and the keys
    before it were rejected, the answers of the platform lead the chain
    out of the negotiation with one request made for each key that
    [getSupportedKeySystem] asks for. *)
Lemma negotiation_answers (supported : string -> bool) (c : Call)
  (rest pre : KeySystems) (k0 : string) (cfg0 : KeySystemConfig)
  (m : Machine) :
  chain m = AwaitAccess c ->
  c_keySystems c = pre ++ (k0, cfg0) :: rest ->
  requestedKeys (effects (surface m)) = map fst pre ++ [k0] ->
  exists m',
    run m (platformAnswers supported ((k0, cfg0) :: rest)) = Some m'
    /\ requestedKeys (effects (surface m'))
       = map fst pre
           ++ map fst (accessRequests supported ((k0, cfg0) :: rest))
    /\ (forall c', chain m' <> AwaitAccess c')
    /\ (forall k, firstSupported supported ((k0, cfg0) :: rest) = Some k ->
                  keySystem (video (surface m')) = Some k).
Proof.
  revert pre k0 cfg0 m.
  induction rest as [|[k1 cfg1] rest IH]; intros pre k0 cfg0 m Hch Hks Hreq;
    cbn [platformAnswers accessRequests firstSupported];
    destruct (supported k0) eqn:Es.
  1, 3: cbn [run step]; rewrite Hch; unfold askedKeySystem;
    rewrite Hreq, rev_app_distr; cbn [rev app]; rewrite String.eqb_refl;
    eexists; (split; [reflexivity|]);
    destruct (onKeySystemAccess_requests c k0 m) as [R1 R2];
    rewrite R1, Hreq; (split; [reflexivity|]); (split; [exact R2|]);
    intros k [= <-]; apply (onKeySystemAccess_video c k0 m).
  - (* the last key is rejected *)
    cbn [run step]. rewrite Hch. unfold nextKeySystem.
    rewrite Hreq, Hks, length_app, length_map, nth_error_app2
      by (cbn [length]; lia).
    replace (length pre + length [k0] - length pre) with 1
      by (cbn [length]; lia).
    cbn [nth_error]. eexists. split; [reflexivity|].
    cbn [failChain surface logError effects chain].
    rewrite requestedKeys_app, Hreq.
    split; [apply app_nil_r|]. split; discriminate.
  - (* a key is rejected and the next one asked for *)
    cbn [run step]. rewrite Hch. unfold nextKeySystem.
    rewrite Hreq, Hks, length_app, length_map, nth_error_app2
      by (cbn [length]; lia).
    replace (length pre + length [k0] - length pre) with 1
      by (cbn [length]; lia).
    cbn [nth_error].
    destruct (IH (pre ++ [(k0, cfg0)]) k1 cfg1
                (mkMachine (perform (RequestAccess k1) (surface m))
                   (AwaitAccess c) (tails m)))
      as (m' & Hrun & Hkeys & Hout & Hgranted).
    + reflexivity.
    + now rewrite <- app_assoc.
    + cbn [surface perform effects].
      now rewrite requestedKeys_app, Hreq, map_app.
    + exists m'. split; [exact Hrun|]. split; [|split; assumption].
      rewrite Hkeys, map_app, <- app_assoc. reflexivity.
Qed.

(** On a new surface, the first call followed by the answers of the
    platform asks for the keys [getSupportedKeySystem] asks for, one
    request each, and leaves [video.keySystem] at the first key the
    platform supports. *)
Lemma standard5July2016_on_platform (supported : string -> bool) (c : Call) :
  c_keySystems c <> [] ->
  exists m,
    run newMachine (Invoke c :: platformAnswers supported (c_keySystems c))
    = Some m
    /\ requestedKeys (effects (surface m))
       = map fst (accessRequests supported (c_keySystems c))
    /\ (forall c', chain m <> AwaitAccess c')
    /\ (forall k, firstSupported supported (c_keySystems c) = Some k ->
                  keySystem (video (surface m)) = Some k).
Proof.
  intros Hne. destruct (c_keySystems c) as [|[k0 cfg0] rest] eqn:Eks;
    [contradiction|].
  cbn [run step].
  assert (E : standard5July2016 c newMachine
              = mkMachine
                  (perform (RequestAccess k0)
                     (mkSurface
                        (mkVideo MKNull (Some [])
                           (keySystem (video (surface newMachine))))
                        (keySessions (surface newMachine))
                        (effects (surface newMachine))))
                  (AwaitAccess c) [mkTail c true]).
  { unfold standard5July2016. cbn [newMachine surface video newVideo
                                     mediaKeysObject].
    rewrite Eks. reflexivity. }
  rewrite E.
  apply (negotiation_answers supported c rest [] k0 cfg0);
    [reflexivity | exact Eks | reflexivity].
Qed.


(** ** Configuration: what an accepted configuration holds *)

(** Whenever [standardizeKeySystemOptions] returns, the options it
    returns have a licence function: the caller's own if one was given
    (even beside a URL), else the default built from the non-empty URL,
    which is the PlayReady one exactly for [com.microsoft.playready].
    Every other field is the caller's.  Standardizing the returned
    options again, for any key system, returns them unchanged: the
    repeated calls of [standard5July2016] on one configuration all see
    the same licence function. *)
Theorem standardizeKeySystemOptions_accepted (k : string)
  (cfg : KeySystemConfig) (o : KeySystemOptions) :
  standardizeKeySystemOptions k cfg = Ok o ->
  let given := optionsObject cfg in
  url o = url given
  /\ getCertificate o = getCertificate given
  /\ getKey o = getKey given
  /\ pssh o = pssh given
  /\ audioContentType o = audioContentType given
  /\ videoContentType o = videoContentType given
  /\ (forall f, getLicense given = Some f -> getLicense o = Some f)
  /\ (getLicense given = None ->
      exists u, url given = Some u /\ u <> EmptyString
                /\ getLicense o = Some (defaultLicenseFn k u))
  /\ (forall k', standardizeKeySystemOptions k' (CfgObject o) = Ok o).
Proof.
  intros H given.
  assert (Hg : standardizeKeySystemOptions k cfg
               = standardizeKeySystemOptions k (CfgObject given))
    by (destruct cfg; reflexivity).
  rewrite Hg in H. clear Hg. revert H.
  generalize given. clear given cfg. intros g.
  unfold standardizeKeySystemOptions.
  destruct g as [u gl gc gk ps ac vc]; cbn [url getLicense].
  destruct gl as [f|]; cbn [isSome negb].
  - rewrite !andb_false_r. intros E. injection E as <-.
    cbn. repeat split; auto.
    + intros H; discriminate.
    + intros k'. rewrite !andb_false_r. reflexivity.
  - rewrite !andb_true_r.
    destruct (truthyString u) eqn:Hu; cbn [negb]; [|discriminate].
    intros E. injection E as <-. cbn.
    repeat split; auto.
    + intros f H; discriminate.
    + intros _. destruct u as [[|c s]|]; try discriminate.
      exists (String c s). repeat split; auto. discriminate.
    + intros k'. rewrite !andb_false_r. reflexivity.
Qed.

Lemma standardizeKeySystemOptions_accepted_witness :
  getLicense
    (mkOptions (Some "https://license.example/playready"%string)
       (Some (DefaultPlayreadyGetLicense "https://license.example/playready"))
       None None Undefined None None)
  = Some (defaultLicenseFn PLAYREADY_KEY_SYSTEM
            "https://license.example/playready")
  /\ standardizeKeySystemOptions "com.widevine.alpha"
       (CfgObject
          (mkOptions (Some "https://license.example/playready"%string)
             (Some (DefaultPlayreadyGetLicense
                      "https://license.example/playready"))
             None None Undefined None None))
     = Ok (mkOptions (Some "https://license.example/playready"%string)
             (Some (DefaultPlayreadyGetLicense
                      "https://license.example/playready"))
             None None Undefined None None).
Proof.
  pose proof
    (standardizeKeySystemOptions_accepted PLAYREADY_KEY_SYSTEM
       (CfgString "https://license.example/playready")
       (mkOptions (Some "https://license.example/playready"%string)
          (Some (DefaultPlayreadyGetLicense
                   "https://license.example/playready"))
          None None Undefined None None) eq_refl) as H.
  cbv zeta in H.
  destruct H as (_ & _ & _ & _ & _ & _ & _ & _ & Hidem).
  split; [reflexivity | apply Hidem].
Defined.

(** ** Buffers: what [arrayBuffersEqual] decides, and when it throws *)

(** On two ArrayBuffers [arrayBuffersEqual] never throws, and answers
    [true] exactly when they have the same byte length and the same byte
    at every index. *)
Theorem arrayBuffersEqual_decides_content (h : Heap) (r1 r2 : ref) :
  exists b,
    arrayBuffersEqual h (ArrayBuffer r1) (ArrayBuffer r2) = Ok b
    /\ (b = true
        <-> length (h r1) = length (h r2)
            /\ forall i, i < length (h r1) ->
                         nth i (h r1) x00 = nth i (h r2) x00).
Proof.
  exists (sameBytes (h r1) (h r2)). split.
  - apply arrayBuffersEqual_buffers.
  - rewrite sameBytes_eq. split.
    + intros ->. split; reflexivity.
    + intros [Hlen Hnth]. apply (nth_ext _ _ x00 x00); assumption.
Qed.

(** The edges of [arrayBuffersEqual].  A value is equal to itself
    whatever it is ([null] included), since identity is tested before
    anything is read.  For two different values of which one is [null]
    or [undefined], reading [byteLength] throws a TypeError.  For two
    different objects of which one is a typed-array view rather than an
    ArrayBuffer, the answer is [false] when the byte lengths differ and a
    TypeError (from [new DataView]) when they agree: contents of views
    are never compared, which is why [hasSession] goes through
    [arrayBufferFrom]. *)
Theorem arrayBuffersEqual_edge_cases (h : Heap) (a b : InitData) :
  arrayBuffersEqual h a a = Ok true
  /\ (strictEq a b = false ->
      truthy a && truthy b = false ->
      arrayBuffersEqual h a b = Throw TypeError)
  /\ (strictEq a b = false ->
      isArrayBuffer a && isArrayBuffer b = false ->
      forall n1 n2,
        byteLengthOf h a = Ok n1 ->
        byteLengthOf h b = Ok n2 ->
        arrayBuffersEqual h a b
        = if n1 =? n2 then Throw TypeError else Ok false).
Proof.
  split; [|split].
  - unfold arrayBuffersEqual. now rewrite strictEq_refl.
  - intros Hne Hf. unfold arrayBuffersEqual. rewrite Hne.
    destruct a, b; try discriminate; reflexivity.
  - intros Hne Hab n1 n2 H1 H2. unfold arrayBuffersEqual.
    rewrite Hne, H1, H2. cbn [bind].
    destruct (n1 =? n2); cbn [negb]; [|reflexivity].
    destruct a, b; try discriminate; reflexivity.
Qed.

(** ** The registry: membership *)

Lemma fingerprints_source (h : Heap) (sessions : list Session)
  (bs : list byte) :
  In bs (fingerprints h sessions) ->
  exists s, In s sessions /\ bufferBytes h (initData s) = Some bs.
Proof.
  induction sessions as [|s rest IH]; simpl; [intros []|].
  destruct (bufferBytes h (initData s)) as [bs'|] eqn:E.
  - intros [<- | Hin].
    + exists s. auto.
    + destruct (IH Hin) as (x & Hx & Hb). exists x. auto.
  - intros Hin. destruct (IH Hin) as (x & Hx & Hb). exists x. auto.
Qed.

(** For initialization data that is an ArrayBuffer, a [Uint8Array] or a
    [Uint16Array] (the values [arrayBufferFrom] gives a buffer for), on
    a registry whose entries hold such values or none, [hasSession]
    never throws: entries without initialization data are skipped, and
    the answer is [true] exactly when some entry carries initialization
    data whose buffer has the same bytes as the buffer of the value asked
    for. *)
Theorem hasSession_membership (h : Heap) (sessions : list Session)
  (v : InitData) :
  truthy v = true ->
  exists found,
    hasSession h sessions v = Ok found
    /\ (found = true
        <-> exists s,
              In s sessions
              /\ truthy (initData s) = true
              /\ bufferBytes h (initData s) = bufferBytes h v).
Proof.
  intros Hv.
  destruct (bufferBytes_truthy h v Hv) as [bs Hbs].
  exists (existsb (fun fp => sameBytes fp bs) (fingerprints h sessions)).
  split; [now apply hasSession_fingerprints|].
  rewrite existsb_sameBytes, Hbs. split.
  - intros Hin. destruct (fingerprints_source h sessions bs Hin) as (s & Hs & Hb).
    exists s. repeat split; auto. eapply bufferBytes_Some_truthy; eassumption.
  - intros (s & Hs & _ & Hb). eapply fingerprints_In; eassumption.
Qed.

Lemma hasSession_membership_witness :
  exists found,
    hasSession sampleHeap
      [mkSession true Null; mkSession false (ArrayBuffer 1)]
      (Uint8Array 9 2 0 1)
    = Ok found
    /\ (found = true
        <-> exists s,
              In s [mkSession true Null; mkSession false (ArrayBuffer 1)]
              /\ truthy (initData s) = true
              /\ bufferBytes sampleHeap (initData s)
                 = bufferBytes sampleHeap (Uint8Array 9 2 0 1)).
Proof.
  apply (hasSession_membership sampleHeap
           [mkSession true Null; mkSession false (ArrayBuffer 1)]
           (Uint8Array 9 2 0 1)).
  reflexivity.
Defined.

(** ** Expiry makes room for a new session *)

Lemma fresh_bytes_fresh_object (h : Heap) (sessions : list Session)
  (v : InitData) (bs : list byte) :
  bufferBytes h v = Some bs ->
  ~ In bs (fingerprints h sessions) ->
  forall x, In x sessions -> initData x <> v.
Proof.
  intros Hbs Hnot x Hx E. apply Hnot.
  apply (fingerprints_In h sessions x bs Hx). now rewrite E.
Qed.

(** ** The PlayReady path: one session per registry *)

Lemma fold_left_orb (sessions : list Session) (acc : bool) :
  fold_left (fun acc session => acc || playready session) sessions acc
  = acc || existsb playready sessions.
Proof.
  revert acc. induction sessions as [|s rest IH]; intros acc; simpl.
  - now rewrite orb_false_r.
  - rewrite IH. now rewrite orb_assoc.
Qed.

Lemma anyPlayready_existsb (sessions : list Session) :
  anyPlayready sessions = existsb playready sessions.
Proof. unfold anyPlayready. now rewrite fold_left_orb. Qed.

Lemma playreadyEntries_app (a b : list Session) :
  playreadyEntries (a ++ b) = playreadyEntries a + playreadyEntries b.
Proof. unfold playreadyEntries. now rewrite filter_app, length_app. Qed.

Lemma anyPlayready_false (sessions : list Session) :
  anyPlayready sessions = false -> playreadyEntries sessions = 0.
Proof.
  rewrite anyPlayready_existsb. unfold playreadyEntries.
  induction sessions as [|s rest IH]; simpl; [reflexivity|].
  destruct (playready s); simpl; [discriminate | exact IH].
Qed.

Lemma anyPlayready_true (sessions : list Session) :
  anyPlayready sessions = true -> 1 <= playreadyEntries sessions.
Proof.
  rewrite anyPlayready_existsb. unfold playreadyEntries.
  induction sessions as [|s rest IH]; simpl; [discriminate|].
  destruct (playready s); simpl; [lia | exact IH].
Qed.

Lemma playreadyEntries_removeSession (sessions : list Session)
  (v : InitData) :
  playreadyEntries (removeSession sessions v) <= playreadyEntries sessions.
Proof.
  unfold playreadyEntries.
  induction sessions as [|s rest IH]; simpl; [lia|].
  destruct (strictEq (initData s) v); destruct (playready s) eqn:E; simpl;
    rewrite ?E; simpl; lia.
Qed.

Lemma playreadyEntries_encryptedCallback (h : Heap) (event : EncryptedEvent)
  (ks : KeySystems) (eventBus : option nat) (registry : nat)
  (sessions : list Session) (k : string) :
  playreadyEntries
    (fst (encryptedCallback h event ks eventBus registry sessions k))
  = playreadyEntries sessions.
Proof.
  unfold encryptedCallback.
  destruct (hasSession h sessions (resolveInitData ks k (ev_initData event)))
    as [found|e]; [|reflexivity].
  destruct (found || negb (truthy (resolveInitData ks k (ev_initData event))));
    [reflexivity|].
  cbn [fst]. rewrite playreadyEntries_app. cbn. lia.
Qed.

(** What one [msneedkey] event does, by the state of the registry. *)
Lemma handleMsNeedKeyEvent_cases (eventInitData : InitData)
  (options : Options) (sessions : list Session) (platform : MsPlatform) :
  (handleMsNeedKeyEvent eventInitData options sessions platform
   = (sessions, None))
  \/ (anyPlayready sessions = false
      /\ exists v,
           truthy v = true
           /\ handleMsNeedKeyEvent eventInitData options sessions platform
              = (sessions ++ [mkSession true v],
                 Some (msPrefixed v platform))).
Proof.
  unfold handleMsNeedKeyEvent.
  destruct (keySystems options) as [ks|]; [|now left].
  destruct (truthyConfig (lookupKeySystem ks PLAYREADY_KEY_SYSTEM));
    cbn [negb]; [|now left].
  destruct (anyPlayready sessions) eqn:Hany; [now left|].
  match goal with
  | |- context [negb (truthy ?v)] => destruct (truthy v) eqn:Hv
  end; cbn [negb]; [|now left].
  right. split; [reflexivity|]. eexists. split; [exact Hv | reflexivity].
Qed.

Lemma removeSession_In (sessions : list Session) (v : InitData)
  (s : Session) :
  In s (removeSession sessions v) -> In s sessions.
Proof.
  induction sessions as [|x rest IH]; simpl; [auto|].
  destruct (strictEq (initData x) v); simpl; [auto|].
  intros [E | Hin]; auto.
Qed.

Lemma applyPlayerOp_invariant (h : Heap)
  (st : list Session * list (list MsEffect)) (op : PlayerOp) :
  playreadyInvariant (fst st) ->
  playreadyInvariant (fst (applyPlayerOp h st op)).
Proof.
  intros [Hcount Hdata]. destruct op as [v options platform | op]; simpl.
  - destruct (handleMsNeedKeyEvent_cases v options (fst st) platform)
      as [E | (Hany & w & Hw & E)]; rewrite E; cbn [fst].
    + split; assumption.
    + split.
      * rewrite playreadyEntries_app, (anyPlayready_false _ Hany). cbn. lia.
      * intros s Hin Hp. apply in_app_or in Hin.
        destruct Hin as [Hin | [<- | []]]; [now apply Hdata | exact Hw].
  - destruct op as [event ks bus registry k | v]; simpl.
    + split.
      * now rewrite playreadyEntries_encryptedCallback.
      * intros s Hin Hp.
        destruct (encryptedCallback_appends h event ks bus registry (fst st) k)
          as [added Hadd].
        unfold encryptedCallback in *.
        destruct (hasSession h (fst st)
                    (resolveInitData ks k (ev_initData event)))
          as [found|e]; [|now apply Hdata].
        destruct (found
                  || negb (truthy (resolveInitData ks k (ev_initData event))));
          [now apply Hdata|].
        cbn [fst] in Hin. apply in_app_or in Hin.
        destruct Hin as [Hin | [<- | []]]; [now apply Hdata | discriminate].
    + split.
      * pose proof (playreadyEntries_removeSession (fst st) v). lia.
      * intros s Hin Hp. apply Hdata; [|exact Hp].
        eapply removeSession_In; eassumption.
Qed.

(** Whatever [msneedkey] events, encrypted-event callbacks and session
    removals reach one registry array, in whatever order, a registry
    that holds at most one PlayReady entry keeps holding at most one, and
    every PlayReady entry carries initialization data: an event is
    ignored while a PlayReady entry is there, and an event without
    initialization data (and without a configured [pssh]) registers
    nothing. *)
Theorem playready_single_session (h : Heap) (ops : list PlayerOp)
  (st : list Session * list (list MsEffect)) :
  playreadyEntries (fst st) <= 1 ->
  (forall s, In s (fst st) -> playready s = true ->
             truthy (initData s) = true) ->
  playreadyEntries (fst (applyPlayerOps h st ops)) <= 1
  /\ (forall s, In s (fst (applyPlayerOps h st ops)) -> playready s = true ->
                truthy (initData s) = true).
Proof.
  intros H1 H2. assert (Hinv : playreadyInvariant (fst st)) by (split; auto).
  clear H1 H2. revert st Hinv. unfold applyPlayerOps.
  induction ops as [|op rest IH]; intros st Hinv; simpl.
  - exact Hinv.
  - apply IH. now apply applyPlayerOp_invariant.
Qed.

Lemma playready_single_session_witness :
  playreadyEntries
    (fst (applyPlayerOps sampleHeap ([], [])
            [MsNeedKey (ArrayBuffer 1) samplePlayready
               (mkMsPlatform false None true);
             MsNeedKey (ArrayBuffer 3) samplePlayready
               (mkMsPlatform true None true)]))
  <= 1.
Proof.
  apply (playready_single_session sampleHeap
           [MsNeedKey (ArrayBuffer 1) samplePlayready
              (mkMsPlatform false None true);
            MsNeedKey (ArrayBuffer 3) samplePlayready
              (mkMsPlatform true None true)] ([], [])).
  - cbv. lia.
  - intros s [].
Defined.

Lemma applyPlayerOp_setups (h : Heap)
  (st : list Session * list (list MsEffect)) (op : PlayerOp) :
  isClosed op = false ->
  playreadyEntries (fst st) <= 1 ->
  (playreadyEntries (fst st) = 1 ->
   playreadyEntries (fst (applyPlayerOp h st op)) = 1
   /\ snd (applyPlayerOp h st op) = snd st)
  /\ length (snd (applyPlayerOp h st op))
     + playreadyEntries (fst st)
     = length (snd st) + playreadyEntries (fst (applyPlayerOp h st op)).
Proof.
  intros Hop Hle. destruct op as [v options platform | op]; simpl.
  - destruct (handleMsNeedKeyEvent_cases v options (fst st) platform)
      as [E | (Hany & w & Hw & E)]; rewrite E; cbn [fst snd].
    + split; [auto | lia].
    + pose proof (anyPlayready_false _ Hany) as H0. split.
      * intros H1. lia.
      * rewrite playreadyEntries_app, length_app. cbn. lia.
  - destruct op as [event ks bus registry k | v]; [|discriminate].
    cbn [applyOp fst snd].
    rewrite playreadyEntries_encryptedCallback. split; [auto | lia].
Qed.

(** PlayReady is set up at most once per registry.  Over any sequence of
    [msneedkey] events and encrypted-event callbacks on a registry that
    starts without a PlayReady entry, [msPrefixed] runs at most once, and
    it has run exactly when the registry holds a PlayReady entry.  Once
    an entry is there no later event runs it again, whatever the platform
    answered to the first run: the entry is pushed before [msPrefixed] is
    called, so a run that failed to create the MediaKeys object or the
    key session is not retried for that registry. *)
Theorem playready_setup_once (h : Heap) (ops : list PlayerOp)
  (sessions : list Session) :
  forallb (fun op => negb (isClosed op)) ops = true ->
  playreadyEntries sessions = 0 ->
  let st := applyPlayerOps h (sessions, []) ops in
  length (snd st) = playreadyEntries (fst st)
  /\ length (snd st) <= 1
  /\ (forall more,
        forallb (fun op => negb (isClosed op)) more = true ->
        playreadyEntries (fst st) = 1 ->
        snd (applyPlayerOps h st more) = snd st).
Proof.
  intros Hops H0 st.
  assert (Hgen : forall ops st0,
             forallb (fun op => negb (isClosed op)) ops = true ->
             playreadyEntries (fst st0) <= 1 ->
             let st1 := applyPlayerOps h st0 ops in
             playreadyEntries (fst st1) <= 1
             /\ length (snd st1) + playreadyEntries (fst st0)
                = length (snd st0) + playreadyEntries (fst st1)
             /\ (playreadyEntries (fst st0) = 1 -> snd st1 = snd st0)).
  { clear. intros ops. unfold applyPlayerOps.
    induction ops as [|op rest IH]; intros st0 Hall Hle; simpl.
    - repeat split; auto.
    - simpl in Hall. apply andb_true_iff in Hall. destruct Hall as [Hop Hrest].
      apply negb_true_iff in Hop.
      destruct (applyPlayerOp_setups h st0 op Hop Hle) as [Hkeep Hsum].
      assert (Hle' : playreadyEntries (fst (applyPlayerOp h st0 op)) <= 1).
      { destruct (Nat.eq_dec (playreadyEntries (fst st0)) 1) as [E1 | N1].
        - destruct (Hkeep E1) as [-> _]. lia.
        - assert (playreadyEntries (fst st0) = 0) by lia.
          assert (Hs : length (snd st0) <= length (snd (applyPlayerOp h st0 op))
                       <= S (length (snd st0))).
          { destruct op as [v o p | op']; simpl.
            - destruct (handleMsNeedKeyEvent v o (fst st0) p) as [s' [e|]];
                cbn [snd]; rewrite ?length_app; simpl; lia.
            - lia. }
          lia. }
      destruct (IH (applyPlayerOp h st0 op) Hrest Hle') as (Ha & Hb & Hc).
      repeat split.
      + exact Ha.
      + lia.
      + intros E1. destruct (Hkeep E1) as [E1' Hs]. rewrite (Hc E1'). exact Hs. }
  destruct (Hgen ops (sessions, []) Hops) as (Ha & Hb & _).
  { cbn [fst]. lia. }
  fold st in Ha, Hb. cbn [fst snd length] in Hb. rewrite H0 in Hb.
  repeat split.
  - lia.
  - lia.
  - intros more Hmore E1.
    destruct (Hgen more st Hmore) as (_ & _ & Hc); [lia|]. now apply Hc.
Qed.

Lemma playready_setup_once_witness :
  length
    (snd (applyPlayerOps sampleHeap ([mkSession false (ArrayBuffer 2)], [])
            [MsNeedKey Null samplePlayready (mkMsPlatform false None true);
             MsNeedKey (ArrayBuffer 1) samplePlayready
               (mkMsPlatform false (Some "denied"%string) true);
             Standard (sampleSignal 3);
             MsNeedKey (ArrayBuffer 3) samplePlayready
               (mkMsPlatform true None true)]))
  <= 1.
Proof.
  pose proof
    (playready_setup_once sampleHeap
       [MsNeedKey Null samplePlayready (mkMsPlatform false None true);
        MsNeedKey (ArrayBuffer 1) samplePlayready
          (mkMsPlatform false (Some "denied"%string) true);
        Standard (sampleSignal 3);
        MsNeedKey (ArrayBuffer 3) samplePlayready
          (mkMsPlatform true None true)]
       [mkSession false (ArrayBuffer 2)] eq_refl eq_refl) as H.
  cbv zeta in H. destruct H as (_ & H & _). exact H.
Defined.

(** ** Strings and buffers *)

Lemma byteToZ_range (b : byte) : (0 <= byteToZ b < 256)%Z.
Proof.
  unfold byteToZ. pose proof (Byte.to_N_bounded b). lia.
Qed.

Lemma byteOfZ_byteToZ (b : byte) : byteOfZ (byteToZ b) = b.
Proof.
  unfold byteOfZ. rewrite Z.mod_small by apply byteToZ_range.
  unfold byteToZ. rewrite N2Z.id, Byte.of_to_N. reflexivity.
Qed.

Lemma u16le_bytes (lo hi : byte) :
  u16le (byteToZ lo + 256 * byteToZ hi) = [lo; hi].
Proof.
  pose proof (byteToZ_range lo) as Hlo. pose proof (byteToZ_range hi) as Hhi.
  unfold u16le, toUint16. rewrite Z.mod_small by lia.
  rewrite Z.shiftr_div_pow2 by lia. change (2 ^ 8)%Z with 256%Z.
  assert (E1 : byteOfZ (byteToZ lo + 256 * byteToZ hi) = lo).
  { unfold byteOfZ.
    replace ((byteToZ lo + 256 * byteToZ hi) mod 256)%Z
      with (byteToZ lo mod 256)%Z.
    - fold (byteOfZ (byteToZ lo)). apply byteOfZ_byteToZ.
    - rewrite (Z.mul_comm 256), Z_mod_plus_full. reflexivity. }
  assert (E2 : ((byteToZ lo + 256 * byteToZ hi) / 256 = byteToZ hi)%Z).
  { rewrite (Z.mul_comm 256), Z.div_add by lia.
    rewrite Z.div_small by lia. lia. }
  rewrite E1, E2, byteOfZ_byteToZ. reflexivity.
Qed.

(** Reading a buffer as 16-bit elements: it fails exactly on an odd
    byte length, and what it reads are code units whose bytes are the
    buffer's. *)
Lemma codeUnitsOf_spec (n : nat) (bs : list byte) :
  length bs <= n ->
  (codeUnitsOf bs = None <-> Nat.odd (length bs) = true)
  /\ (forall cs, codeUnitsOf bs = Some cs ->
                 flat_map u16le cs = bs /\ Forall codeUnit cs).
Proof.
  revert bs. induction n as [|n IH]; intros bs Hlen.
  - destruct bs; [|simpl in Hlen; lia]. simpl. split.
    + split; discriminate.
    + intros cs E. injection E as <-. split; [reflexivity | constructor].
  - destruct bs as [|lo [|hi rest]].
    + simpl. split.
      * split; discriminate.
      * intros cs E. injection E as <-. split; [reflexivity | constructor].
    + simpl. split.
      * split; reflexivity.
      * intros cs E. discriminate.
    + assert (Hrest : length rest <= n) by (simpl in Hlen; lia).
      destruct (IH rest Hrest) as [Hodd Hsome].
      change (codeUnitsOf (lo :: hi :: rest))
        with (match codeUnitsOf rest with
              | Some cs => Some ((byteToZ lo + 256 * byteToZ hi)%Z :: cs)
              | None => None
              end).
      change (Nat.odd (length (lo :: hi :: rest)))
        with (Nat.odd (length rest)).
      pose proof (u16le_bytes lo hi) as Hu.
      assert (Hx : codeUnit (byteToZ lo + 256 * byteToZ hi)%Z).
      { pose proof (byteToZ_range lo). pose proof (byteToZ_range hi).
        unfold codeUnit. lia. }
      revert Hu Hx. generalize (byteToZ lo + 256 * byteToZ hi)%Z.
      intros x Hu Hx.
      destruct (codeUnitsOf rest) as [cs'|] eqn:E.
      * split.
        -- split; [discriminate|]. intros Ho. apply Hodd in Ho. discriminate.
        -- intros cs Ecs. injection Ecs as <-.
           destruct (Hsome cs' eq_refl) as [Hb Hc]. split.
           ++ cbn [flat_map]. rewrite Hu, Hb. reflexivity.
           ++ constructor; [exact Hx | exact Hc].
      * split.
        -- split; [intros _; now apply Hodd | reflexivity].
        -- intros cs Ecs. discriminate.
Qed.

(** [uint8ArrayToString] and [stringToUint16Array] are inverse to each
    other as long as the string has no more code units than the engine
    accepts arguments in the call of [String.fromCharCode.apply]: the
    buffer behind [stringToUint16Array(s)] then reads back as [s], and a
    buffer that reads as the string [t] is the buffer behind
    [stringToUint16Array(t)].  [uint8ArrayToString] throws exactly when
    the buffer has an odd byte length or holds more 16-bit elements than
    the engine accepts arguments, and what it throws is a RangeError: the
    default FairPlay content id cannot be computed from such a buffer. *)
Theorem uint8ArrayToString_roundtrip (maxArguments : nat) (s : JsString)
  (buffer : list byte) :
  (Forall codeUnit s ->
   uint8ArrayToString maxArguments (bufferOf (stringToUint16Array s))
   = if length s <=? maxArguments then Ok s else Throw RangeError)
  /\ (uint8ArrayToString maxArguments buffer = Throw RangeError
      <-> Nat.odd (length buffer) = true \/ 2 * maxArguments < length buffer)
  /\ (forall e,
        uint8ArrayToString maxArguments buffer = Throw e -> e = RangeError)
  /\ (forall t,
        uint8ArrayToString maxArguments buffer = Ok t ->
        Forall codeUnit t /\ bufferOf (stringToUint16Array t) = buffer
        /\ length t <= maxArguments)
  /\ (forall hostname u8,
        u8_buffer u8 = buffer ->
        Nat.odd (length buffer) = true \/ 2 * maxArguments < length buffer ->
        defaultGetContentId maxArguments hostname u8 = Throw RangeError).
Proof.
  destruct (codeUnitsOf_spec (length buffer) buffer (le_n _)) as [Hodd Hsome].
  assert (Hthrow : uint8ArrayToString maxArguments buffer = Throw RangeError
                   <-> Nat.odd (length buffer) = true
                       \/ 2 * maxArguments < length buffer).
  { unfold uint8ArrayToString, uint16ArrayOf, fromCharCodes.
    destruct (codeUnitsOf buffer) as [cs|] eqn:Ecs; cbn [bind].
    - destruct (Hsome cs eq_refl) as [Hb _].
      assert (Hlen : length buffer = 2 * length cs)
        by (rewrite <- Hb; apply length_units).
      destruct (Nat.leb_spec (length cs) maxArguments) as [Hle|Hgt].
      + split; [discriminate|]. intros [Ho|Hlong]; [|lia].
        apply Hodd in Ho. discriminate.
      + split; [intros _; right; lia | reflexivity].
    - split; [intros _; left; now apply Hodd | reflexivity]. }
  split; [|split; [exact Hthrow | split; [|split]]].
  - intros Hs. unfold uint8ArrayToString, uint16ArrayOf, bufferOf.
    rewrite units_stringToUint16Array, codeUnitsOf_units.
    cbn [bind]. now rewrite map_toUint16_codeUnits.
  - intros e. unfold uint8ArrayToString, uint16ArrayOf, fromCharCodes.
    destruct (codeUnitsOf buffer) as [cs|]; cbn [bind].
    + destruct (length cs <=? maxArguments); [discriminate|].
      now intros [= <-].
    + now intros [= <-].
  - intros t. unfold uint8ArrayToString, uint16ArrayOf, fromCharCodes.
    destruct (codeUnitsOf buffer) as [cs|]; cbn [bind]; [|discriminate].
    destruct (Nat.leb_spec (length cs) maxArguments) as [Hle|Hgt];
      [|discriminate].
    intros E. injection E as <-.
    destruct (Hsome cs eq_refl) as [Hb Hc]. split; [exact Hc|].
    split; [|exact Hle].
    unfold bufferOf. now rewrite units_stringToUint16Array.
  - intros hostname u8 Hbuf Ho. unfold defaultGetContentId.
    rewrite Hbuf. apply Hthrow in Ho. rewrite Ho. reflexivity.
Qed.

(** A string of three code units read back by an engine that accepts
    two arguments. *)
Example uint8ArrayToString_over_the_limit :
  uint8ArrayToString 2 (bufferOf (stringToUint16Array [97%Z; 98%Z; 99%Z]))
  = Throw RangeError
  /\ uint8ArrayToString 3 (bufferOf (stringToUint16Array [97%Z; 98%Z; 99%Z]))
     = Ok [97%Z; 98%Z; 99%Z].
Proof. split; reflexivity. Qed.

(** ** The FairPlay payload: both forms of the id, and the size *)

(** [concatInitDataIdAndCertificate] treats an id given as a string and
    the same id given as the [Uint16Array] of [stringToUint16Array]
    alike.  Whatever the form of the id, the call throws (a RangeError)
    exactly when [initData] has an odd byte length; otherwise the payload
    has [initData.byteLength + 4 + id.byteLength + 4 + cert.byteLength]
    bytes, begins with the bytes of [initData] and ends with those of the
    certificate. *)
Theorem concatInitDataIdAndCertificate_id_forms (initData : list byte)
  (id : ContentId) (cert : list byte) :
  (forall s,
     concatInitDataIdAndCertificate initData
       (IdUint16Array (stringToUint16Array s)) cert
     = concatInitDataIdAndCertificate initData (IdString s) cert)
  /\ (concatInitDataIdAndCertificate initData id cert = Throw RangeError
      <-> Nat.even (length initData) = false)
  /\ (forall payload,
        concatInitDataIdAndCertificate initData id cert = Ok payload ->
        length payload
        = length initData + 4 + byteLength16 (idElements id) + 4
          + length cert
        /\ firstn (length initData) payload = initData
        /\ skipn (length initData + 4 + byteLength16 (idElements id) + 4)
             payload
           = cert).
Proof.
  split; [|split].
  - intros s. rewrite !concat_cases. reflexivity.
  - rewrite concat_cases. destruct (Nat.even (length initData)).
    + split; discriminate.
    + split; reflexivity.
  - intros payload. rewrite concat_cases.
    destruct (Nat.even (length initData)); [|discriminate].
    assert (L4a : length (u32le (Z.of_nat (2 * length (idElements id)))) = 4)
      by apply length_u32le.
    assert (L4b : length (u32le (Z.of_nat (length cert))) = 4)
      by apply length_u32le.
    assert (Lid : length (flat_map u16le (idElements id))
                  = byteLength16 (idElements id)) by apply length_units.
    revert L4a L4b Lid.
    generalize (u32le (Z.of_nat (2 * length (idElements id)))).
    generalize (flat_map u16le (idElements id)).
    generalize (u32le (Z.of_nat (length cert))).
    intros C B A L4a L4b Lid E. injection E as <-.
    split; [|split].
    + rewrite !length_app, L4a, L4b, Lid. lia.
    + apply firstn_length_app.
    + replace (initData ++ A ++ B ++ C ++ cert)
        with ((initData ++ A ++ B ++ C) ++ cert)
        by (rewrite <- !app_assoc; reflexivity).
      replace (length initData + 4 + byteLength16 (idElements id) + 4)
        with (length (initData ++ A ++ B ++ C))
        by (rewrite !length_app, L4a, L4b, Lid; lia).
      apply skipn_length_app.
Qed.

(** ** The FairPlay path: when a key session is created *)




(** ** The PlayReady licence request *)

Lemma getProperty_setProperty (k k' : string) (v : option string)
  (headers : Headers) :
  getProperty k (setProperty k' v headers)
  = if String.eqb k' k then Some v else getProperty k headers.
Proof.
  induction headers as [|[k0 v0] rest IH]; simpl.
  - reflexivity.
  - destruct (String.eqb_spec k0 k') as [-> | Hne]; simpl.
    + destruct (String.eqb k' k); reflexivity.
    + rewrite IH. destruct (String.eqb_spec k0 k) as [-> | Hne'].
      * destruct (String.eqb_spec k' k) as [-> | _]; [congruence | reflexivity].
      * reflexivity.
Qed.

Lemma firstChildValue_throws (n : XmlNode) (e : JsError) :
  firstChildValue n = Throw e -> e = TypeError.
Proof.
  destruct n as [v | t [|[v | t' cs] rest]]; simpl; intros E;
    try discriminate; now injection E.
Qed.

Lemma headerLoop_short (headerNames headerValues : list XmlNode)
  (headers : Headers) :
  length headerValues < length headerNames ->
  headerLoop headerNames headerValues headers = Throw TypeError.
Proof.
  revert headerValues headers.
  induction headerNames as [|name names IH]; intros values headers Hlen;
    simpl in *; [lia|].
  destruct (firstChildValue name) as [k|e] eqn:Ek; cbn [bind].
  - destruct values as [|value values]; [reflexivity|].
    destruct (firstChildValue value) as [v|e] eqn:Ev; cbn [bind].
    + apply IH. simpl in Hlen. lia.
    + now rewrite (firstChildValue_throws _ _ Ev).
  - now rewrite (firstChildValue_throws _ _ Ek).
Qed.

Lemma headerLoop_ok (headerNames headerValues : list XmlNode)
  (headers result : Headers) :
  headerLoop headerNames headerValues headers = Ok result ->
  length headerNames <= length headerValues
  /\ forall k,
       getProperty k result
       = match lastValue k (combine (map headerKey headerNames)
                              (map childText headerValues)) with
         | Some w => Some w
         | None => getProperty k headers
         end.
Proof.
  revert headerValues headers.
  induction headerNames as [|name names IH]; intros values headers; simpl.
  - intros E. injection E as <-. split; [lia | reflexivity].
  - destruct (firstChildValue name) as [key|e] eqn:Ek; cbn [bind];
      [|discriminate].
    destruct values as [|value values]; [discriminate|].
    destruct (firstChildValue value) as [v|e] eqn:Ev; cbn [bind];
      [|discriminate].
    intros E. destruct (IH _ _ E) as [Hlen Hget]. split; [simpl; lia|].
    intros k. rewrite Hget. simpl.
    destruct (lastValue k (combine (map headerKey names)
                             (map childText values))); [reflexivity|].
    rewrite getProperty_setProperty.
    unfold headerKey, childText. rewrite Ek, Ev.
    destruct (String.eqb (toStringValue key) k); reflexivity.
Qed.

Lemma hasChild_firstChildValue (n : XmlNode) :
  hasChild n = true -> exists v, firstChildValue n = Ok v.
Proof.
  destruct n as [v | t [|[v | t' cs] rest]]; simpl; try discriminate;
    intros _; eexists; reflexivity.
Qed.

Lemma headerLoop_total (headerNames headerValues : list XmlNode)
  (headers : Headers) :
  forallb hasChild headerNames = true ->
  length headerNames <= length headerValues ->
  forallb hasChild (firstn (length headerNames) headerValues) = true ->
  exists result, headerLoop headerNames headerValues headers = Ok result.
Proof.
  revert headerValues headers.
  induction headerNames as [|name names IH]; intros values headers; simpl.
  - intros _ _ _. eexists; reflexivity.
  - intros Hn Hlen Hv. apply andb_true_iff in Hn. destruct Hn as [Hname Hn].
    destruct values as [|value values]; [simpl in Hlen; lia|].
    simpl in Hv. apply andb_true_iff in Hv. destruct Hv as [Hvalue Hv].
    destruct (hasChild_firstChildValue _ Hname) as [k ->].
    destruct (hasChild_firstChildValue _ Hvalue) as [v ->]. cbn [bind].
    apply IH; auto. simpl in Hlen. lia.
Qed.

(** The edges of the PlayReady licence request.  A key message of odd
    byte length cannot be read as UTF-16 and throws a RangeError, and so
    does one with more 16-bit elements than the engine accepts arguments
    in the call of [String.fromCharCode.apply]; a message with more
    [name] elements than [value] elements under [HttpHeaders] throws a
    TypeError; in these cases no request is made.  A message whose
    document has neither an [HttpHeaders] nor a [Challenge] element (such
    as the error document of a failed parse) is no failure: the request
    is posted to the URL with no headers and no body. *)
Theorem requestPlayreadyLicense_edges (maxArguments : nat)
  (parseXml : JsString -> XmlNode) (atob : string -> Result string)
  (uri : string) (messageBuffer : list byte) :
  (Nat.odd (length messageBuffer) = true ->
   requestPlayreadyLicense maxArguments parseXml atob uri messageBuffer
   = Throw RangeError)
  /\ (forall text,
        uint16ArrayOf messageBuffer = Ok text ->
        maxArguments < length text ->
        requestPlayreadyLicense maxArguments parseXml atob uri messageBuffer
        = Throw RangeError)
  /\ (forall text,
        uint16ArrayOf messageBuffer = Ok text ->
        length text <= maxArguments ->
        (getElementsByTagName "HttpHeaders" (parseXml text) = [] ->
         getElementsByTagName "Challenge" (parseXml text) = [] ->
         requestPlayreadyLicense maxArguments parseXml atob uri messageBuffer
         = Ok (mkXhrRequest uri [] None))
        /\ (forall headersElement others,
              getElementsByTagName "HttpHeaders" (parseXml text)
              = headersElement :: others ->
              length (getElementsByTagName "value" headersElement)
              < length (getElementsByTagName "name" headersElement) ->
              requestPlayreadyLicense maxArguments parseXml atob uri
                messageBuffer
              = Throw TypeError)).
Proof.
  split; [|split].
  - intros Hodd. unfold requestPlayreadyLicense, getMessageContents,
      uint16ArrayOf.
    destruct (codeUnitsOf_spec (length messageBuffer) messageBuffer (le_n _))
      as [Hnone _].
    apply Hnone in Hodd. rewrite Hodd. reflexivity.
  - intros text Htext Hlong.
    unfold requestPlayreadyLicense, getMessageContents, fromCharCodes.
    rewrite Htext. cbn [bind].
    destruct (Nat.leb_spec (length text) maxArguments); [lia | reflexivity].
  - intros text Htext Hfits.
    assert (Hread : fromCharCodes maxArguments text = Ok text).
    { unfold fromCharCodes. apply Nat.leb_le in Hfits. now rewrite Hfits. }
    split.
    + intros Hh Hc. unfold requestPlayreadyLicense, getMessageContents.
      rewrite Htext. cbn [bind]. rewrite Hread. cbn [bind].
      rewrite Hh, Hc. reflexivity.
    + intros headersElement others Hh Hlen.
      unfold requestPlayreadyLicense, getMessageContents.
      rewrite Htext. cbn [bind]. rewrite Hread. cbn [bind]. rewrite Hh.
      rewrite (headerLoop_short _ _ [] Hlen). reflexivity.
Qed.

(** The headers of the PlayReady licence request.  Whenever
    [getMessageContents] returns and the key message has an
    [HttpHeaders] element, the [i]-th [name] element below it is paired
    with the [i]-th [value] element: a header has the text of the
    [value] paired with the last [name] element of that name, and there
    is no header that no [name] element gives.  It does return when the
    text of the message has no more code units than the engine accepts
    arguments, there are at least as many [value] as [name] elements,
    each with a child node, and there is no [Challenge] element. *)
Theorem getMessageContents_headers (maxArguments : nat)
  (parseXml : JsString -> XmlNode) (atob : string -> Result string)
  (messageBytes : list byte) (text : JsString) (headersElement : XmlNode)
  (others : list XmlNode) :
  uint16ArrayOf messageBytes = Ok text ->
  getElementsByTagName "HttpHeaders" (parseXml text)
  = headersElement :: others ->
  let names := getElementsByTagName "name" headersElement in
  let values := getElementsByTagName "value" headersElement in
  (forall contents,
     getMessageContents maxArguments parseXml atob messageBytes
     = Ok contents ->
     length names <= length values
     /\ forall k,
          getProperty k (mc_headers contents)
          = lastValue k (combine (map headerKey names)
                           (map childText values)))
  /\ (length text <= maxArguments ->
      forallb hasChild names = true ->
      length names <= length values ->
      forallb hasChild (firstn (length names) values) = true ->
      getElementsByTagName "Challenge" (parseXml text) = [] ->
      exists headers,
        getMessageContents maxArguments parseXml atob messageBytes
        = Ok (mkMessageContents headers None)).
Proof.
  intros Htext Hh names values. split.
  - intros contents. unfold getMessageContents, fromCharCodes.
    rewrite Htext. cbn [bind].
    destruct (length text <=? maxArguments); cbn [bind]; [|discriminate].
    rewrite Hh. fold names values.
    destruct (headerLoop names values []) as [hs|e] eqn:El; cbn [bind];
      [|discriminate].
    destruct (headerLoop_ok _ _ _ _ El) as [Hlen Hget].
    match goal with
    | |- context [bind ?c _] => destruct c as [challenge|e]
    end; cbn [bind]; [|discriminate].
    intros E. injection E as <-. cbn [mc_headers]. split; [exact Hlen|].
    intros k. rewrite Hget.
    destruct (lastValue k (combine (map headerKey names)
                             (map childText values))); reflexivity.
  - intros Hfits Hn Hlen Hv Hc.
    destruct (headerLoop_total names values [] Hn Hlen Hv) as [hs El].
    exists hs. unfold getMessageContents, fromCharCodes.
    rewrite Htext. cbn [bind]. apply Nat.leb_le in Hfits. rewrite Hfits.
    cbn [bind]. rewrite Hh. fold names values.
    rewrite El. cbn [bind]. rewrite Hc. reflexivity.
Qed.

Lemma getMessageContents_headers_witness :
  exists contents,
    getMessageContents 1000 (fun _ => sampleKeyMessage) (fun s => Ok s) []
    = Ok contents
    /\ getProperty "Content-Type" (mc_headers contents)
       = Some (Some "text/xml"%string)
    /\ getProperty "SOAPAction" (mc_headers contents)
       = Some (Some "AcquireLicense"%string)
    /\ getProperty "Accept" (mc_headers contents) = None.
Proof.
  eexists. split; [reflexivity|].
  pose proof
    (getMessageContents_headers 1000 (fun _ => sampleKeyMessage)
       (fun s => Ok s) [] [] _ _ eq_refl eq_refl) as H.
  cbv zeta in H. destruct H as [H _].
  destruct (H _ eq_refl) as [_ Hget].
  repeat split; rewrite Hget; reflexivity.
Defined.

(** ** The machine: sessions, signals and failure *)

Lemma surfaceInvariant_unset (s : Surface) :
  surfaceInvariant s ->
  unsetKeys (video s) = true ->
  keySessions s = []
  /\ (forall mk, ~ In (CreateSession mk) (effects s))
  /\ count isCreateSessionEffect (effects s) = 0.
Proof.
  intros (Hks & Heff & Hcount) Hunset.
  assert (Hnone : forall mk, mediaKeysObject (video s) <> MKObject mk).
  { intros mk E. unfold unsetKeys in Hunset. rewrite E in Hunset.
    discriminate. }
  assert (E : keySessions s = []).
  { destruct (keySessions s) as [|ks rest]; [reflexivity|].
    exfalso. apply (Hnone (ks_mediaKeys ks)). apply Hks. now left. }
  split; [exact E|]. split.
  - intros mk Hin. apply (Hnone mk). now apply Heff.
  - rewrite Hcount, E. reflexivity.
Qed.

Lemma surfaceInvariant_quiet (s s' : Surface) (extra : list Effect) :
  mediaKeysObject (video s') = mediaKeysObject (video s) ->
  keySessions s' = keySessions s ->
  effects s' = effects s ++ extra ->
  forallb (fun e => negb (isCreateSessionEffect e)) extra = true ->
  surfaceInvariant s -> surfaceInvariant s'.
Proof.
  intros Hmk Hks Heff Hextra (H1 & H2 & H3). unfold surfaceInvariant.
  rewrite Hmk, Hks, Heff.
  assert (Hnot : forall mk, ~ In (CreateSession mk) extra).
  { intros mk Hin. rewrite forallb_forall in Hextra.
    apply Hextra in Hin. discriminate. }
  repeat split.
  - exact H1.
  - intros mk Hin. apply in_app_or in Hin.
    destruct Hin as [Hin | Hin]; [now apply H2 | now apply Hnot in Hin].
  - rewrite count_app, H3.
    assert (E : count isCreateSessionEffect extra = 0).
    { clear -Hextra. unfold count.
      induction extra as [|e rest IH]; [reflexivity|].
      simpl in *. apply andb_true_iff in Hextra. destruct Hextra as [He Hr].
      apply negb_true_iff in He. rewrite He. now apply IH. }
    rewrite E. lia.
Qed.

Lemma makeNewRequest_invariant (mk : nat) (t : string) (v : InitData)
  (g : option Promisified) (r : nat) (b : option nat) (s : Surface) :
  mediaKeysObject (video s) = MKObject mk ->
  surfaceInvariant s ->
  surfaceInvariant (makeNewRequest mk t v g r b s).
Proof.
  intros Hmk (H1 & H2 & H3). unfold surfaceInvariant, makeNewRequest.
  cbn [video keySessions effects]. repeat split.
  - intros ks Hin. apply in_app_or in Hin.
    destruct Hin as [Hin | [<- | []]]; [now apply H1 | exact Hmk].
  - intros mk' Hin. apply in_app_or in Hin.
    destruct Hin as [Hin | [E | [E | []]]]; [now apply H2 | | discriminate].
    injection E as <-. exact Hmk.
  - rewrite count_app, length_app, H3. reflexivity.
Qed.

Lemma addSession_invariant (t : string) (v : InitData)
  (g : option Promisified) (r : nat) (b : option nat) (s : Surface) :
  surfaceInvariant s -> surfaceInvariant (fst (addSession t v g r b s)).
Proof.
  intros Hinv. unfold addSession.
  destruct (mediaKeysObject (video s)) as [| |mk] eqn:Hmk.
  1, 2: destruct (pendingSessionData (video s)); cbn [fst]; [|exact Hinv];
    apply (surfaceInvariant_quiet s _ []);
    [cbn; now rewrite Hmk | reflexivity | cbn; now rewrite app_nil_r
    | reflexivity | exact Hinv].
  cbn [fst]. now apply makeNewRequest_invariant.
Qed.

Lemma count_flat_map_requestEffects (mk : nat) (pending : list PendingData) :
  count isCreateSessionEffect (flat_map (requestEffects mk) pending)
  = length pending.
Proof.
  unfold count. induction pending as [|d rest IH]; [reflexivity|].
  simpl. now rewrite IH.
Qed.

Lemma In_flat_map_requestEffects (mk mk' : nat)
  (pending : list PendingData) :
  In (CreateSession mk') (flat_map (requestEffects mk) pending) -> mk' = mk.
Proof.
  induction pending as [|d rest IH]; simpl; [intros []|].
  intros [E | [E | Hin]]; [now injection E | discriminate | now apply IH].
Qed.

Lemma setMediaKeys_invariant (certificate : option (list byte)) (mk : nat)
  (g : option Promisified) (r : nat) (b : option nat) (s : Surface) :
  unsetKeys (video s) = true ->
  surfaceInvariant s ->
  surfaceInvariant (fst (setMediaKeys certificate mk g r b s)).
Proof.
  intros Hunset Hinv.
  destruct (surfaceInvariant_unset s Hinv Hunset) as (Hks & Hnone & Hcount).
  assert (Hcert : forall mk',
             ~ In (CreateSession mk')
                 match certificate with
                 | Some c => [SetServerCertificate mk c]
                 | None => []
                 end).
  { intros mk'. destruct certificate; simpl; [|tauto].
    intros [E | []]. discriminate. }
  assert (Hcertc : count isCreateSessionEffect
                     match certificate with
                     | Some c => [SetServerCertificate mk c]
                     | None => []
                     end = 0) by (destruct certificate; reflexivity).
  unfold setMediaKeys. cbn [video pendingSessionData].
  destruct (pendingSessionData (video s)) as [pending|]; cbn [fst].
  - rewrite drainPending_spec. unfold surfaceInvariant.
    cbn [video keySessions effects mediaKeysObject]. rewrite Hks.
    repeat split.
    + intros ks Hin. cbn [app] in Hin. apply in_map_iff in Hin.
      destruct Hin as (d & <- & _). reflexivity.
    + intros mk' Hin. rewrite !in_app_iff in Hin.
      destruct Hin as [[[Hin | Hin] | Hin] | [E | []]].
      * now apply Hnone in Hin.
      * now apply Hcert in Hin.
      * now rewrite (In_flat_map_requestEffects _ _ _ Hin).
      * discriminate.
    + rewrite !count_app, Hcount, Hcertc, count_flat_map_requestEffects.
      cbn [app]. rewrite length_map. unfold count. simpl. lia.
  - unfold surfaceInvariant. cbn [video keySessions effects mediaKeysObject].
    rewrite Hks. repeat split.
    + intros ks [].
    + intros mk' Hin. apply in_app_or in Hin.
      destruct Hin as [Hin | Hin];
        [now apply Hnone in Hin | now apply Hcert in Hin].
    + rewrite count_app, Hcount, Hcertc. reflexivity.
Qed.

Lemma runTail_invariant (c : Call) (m : Machine) :
  surfaceInvariant (surface m) -> surfaceInvariant (surface (runTail c m)).
Proof.
  intros Hinv. unfold runTail.
  destruct (keySystem (video (surface m))) as [k|].
  - destruct (lookupKeySystem (c_keySystems c) k) as [cfg|]; [|exact Hinv].
    destruct (standardizeKeySystemOptions k cfg) as [o|e]; [|exact Hinv].
    cbn [surface]. now apply addSession_invariant.
  - cbn [surface]. now apply addSession_invariant.
Qed.

Lemma failChain_surfaceInvariant (m : Machine) :
  surfaceInvariant (surface m) -> surfaceInvariant (surface (failChain m)).
Proof.
  intros Hinv. unfold failChain, logError. cbn [surface].
  now apply (surfaceInvariant_quiet (surface m) _ [LogError creationFailed]).
Qed.

Lemma step_surfaceInvariant (m m' : Machine) (l : Label) :
  creationInvariant m ->
  surfaceInvariant (surface m) ->
  step m l = Some m' ->
  surfaceInvariant (surface m').
Proof.
  intros Hc Hinv Hstep. destruct l; cbn [step] in Hstep.
  - injection Hstep as <-. unfold standard5July2016.
    destruct (mediaKeysObject (video (surface m))) eqn:Hmk;
      try (cbn [surface]; exact Hinv).
    assert (Hunset : unsetKeys (video (surface m)) = true)
      by (unfold unsetKeys; now rewrite Hmk).
    destruct (surfaceInvariant_unset _ Hinv Hunset) as (Hks & Hnone & Hcount).
    assert (Hmarked : surfaceInvariant
                        (mkSurface
                           (mkVideo MKNull (Some [])
                              (keySystem (video (surface m))))
                           (keySessions (surface m))
                           (effects (surface m)))).
    { unfold surfaceInvariant. cbn [video keySessions effects].
      rewrite Hks. repeat split.
      - intros ks [].
      - intros mk Hin. now apply Hnone in Hin.
      - exact Hcount. }
    destruct (c_keySystems c) as [|[k cfg] rest]; cbn [surface].
    + unfold logError.
      refine (surfaceInvariant_quiet _ _
                [LogError "No supported key system found"] _ _ _ _ Hmarked);
        reflexivity.
    + unfold perform.
      refine (surfaceInvariant_quiet _ _ [RequestAccess k] _ _ _ _ Hmarked);
        reflexivity.
  - destruct (step_granted m m' k Hstep) as (c & _ & _ & ->).
    unfold onKeySystemAccess.
    set (s1 := mkSurface _ _ _).
    assert (H1 : surfaceInvariant s1)
      by (apply (surfaceInvariant_quiet (surface m) s1 []); auto;
          now rewrite app_nil_r).
    destruct (lookupKeySystem (c_keySystems c) k) as [cfg|];
      [|now apply failChain_surfaceInvariant].
    destruct (standardizeKeySystemOptions k cfg) as [o|e];
      [|now apply failChain_surfaceInvariant].
    destruct (getCertificate o) as [f|]; cbn [surface]; unfold perform.
    + now apply (surfaceInvariant_quiet s1 _ [GetCertificate f]).
    + now apply (surfaceInvariant_quiet s1 _ [CreateMediaKeys]).
  - destruct (step_denied m m' Hstep) as (c & _ & [(k & _ & ->)|[_ ->]]).
    + cbn [surface]. unfold perform.
      now apply (surfaceInvariant_quiet (surface m) _ [RequestAccess k]).
    + now apply failChain_surfaceInvariant.
  - destruct (chain m); try discriminate. injection Hstep as <-.
    cbn [surface]. unfold perform.
    now apply (surfaceInvariant_quiet (surface m) _ [CreateMediaKeys]).
  - destruct (chain m); try discriminate. injection Hstep as <-.
    now apply failChain_surfaceInvariant.
  - destruct (chain m) eqn:Ech; try discriminate. injection Hstep as <-.
    unfold creationInvariant in Hc. rewrite Ech in Hc.
    destruct Hc as [_ Hmk].
    assert (Hunset : unsetKeys (video (surface m)) = true)
      by (unfold unsetKeys; now rewrite Hmk).
    pose proof (setMediaKeys_invariant certificate mediaKeys
                  (Some (mkPromisified (getLicense keySystemOptions)
                           (c_eventBus c)))
                  (c_removeSession c) (c_eventBus c) (surface m)
                  Hunset Hinv) as Hset.
    unfold onMediaKeys.
    destruct (setMediaKeys _ _ _ _ _ _) as [s' [e|]]; cbn [fst] in Hset.
    + now apply failChain_surfaceInvariant.
    + exact Hset.
  - destruct (chain m); try discriminate. injection Hstep as <-.
    now apply failChain_surfaceInvariant.
  - destruct (chain m); try discriminate.
    destruct ok; injection Hstep as <-;
      [exact Hinv | now apply failChain_surfaceInvariant].
  - destruct (nth_error (tails m) i) as [t|]; [|discriminate].
    destruct (ready t m); [|discriminate]. injection Hstep as <-.
    now apply runTail_invariant.
  - destruct (nth_error (keySessions (surface m)) i) as [ks|];
      [|discriminate].
    injection Hstep as <-. cbn [surface].
    apply (surfaceInvariant_quiet (surface m) _ (onMessage ks)); auto.
    unfold onMessage. destruct (ks_getLicense ks) as [p|]; [|reflexivity].
    destruct (pl_getLicenseFn p); reflexivity.
Qed.

Lemma run_surfaceInvariant (ls : list Label) (m m' : Machine) :
  creationInvariant m ->
  surfaceInvariant (surface m) ->
  run m ls = Some m' ->
  surfaceInvariant (surface m').
Proof.
  revert m. induction ls as [|l ls IH]; intros m Hc Hinv Hrun;
    cbn [run] in Hrun.
  - now injection Hrun as <-.
  - destruct (step m l) as [m1|] eqn:Hstep; [|discriminate].
    apply (IH m1); auto.
    + eapply step_invariant; eassumption.
    + eapply step_surfaceInvariant; eassumption.
Qed.

Lemma newMachine_surfaceInvariant : surfaceInvariant (surface newMachine).
Proof.
  unfold surfaceInvariant. cbn. repeat split; intros ? [].
Qed.

(** Every key session of a surface is made on one and the same
    MediaKeys object, the one kept in [video.mediaKeysObject]: in every
    run of calls and platform answers, no [createSession] call is made
    before that object is set (while it is [undefined] or [null] there
    is no key session), no call is made on any other object, and there
    are exactly as many key sessions as [createSession] calls. *)
Theorem keySessions_share_mediaKeys (ls : list Label) (m : Machine) :
  run newMachine ls = Some m ->
  (forall ks, In ks (keySessions (surface m)) ->
              mediaKeysObject (video (surface m))
              = MKObject (ks_mediaKeys ks))
  /\ (forall mk, In (CreateSession mk) (effects (surface m)) ->
                 mediaKeysObject (video (surface m)) = MKObject mk)
  /\ (forall ks1 ks2,
        In ks1 (keySessions (surface m)) ->
        In ks2 (keySessions (surface m)) ->
        ks_mediaKeys ks1 = ks_mediaKeys ks2)
  /\ (unsetKeys (video (surface m)) = true ->
      keySessions (surface m) = []
      /\ count isCreateSessionEffect (effects (surface m)) = 0)
  /\ count isCreateSessionEffect (effects (surface m))
     = length (keySessions (surface m)).
Proof.
  intros Hrun.
  pose proof (run_surfaceInvariant ls newMachine m newMachine_invariant
                newMachine_surfaceInvariant Hrun) as Hinv.
  pose proof Hinv as (H1 & H2 & H3).
  repeat split; auto.
  - intros ks1 ks2 Hin1 Hin2. apply H1 in Hin1. apply H1 in Hin2.
    rewrite Hin1 in Hin2. now injection Hin2.
  - now apply (surfaceInvariant_unset _ Hinv).
  - now apply (surfaceInvariant_unset _ Hinv).
Qed.

Lemma keySessions_share_mediaKeys_witness :
  exists m,
    run newMachine sampleRun = Some m
    /\ length (keySessions (surface m)) = 3
    /\ count isCreateSessionEffect (effects (surface m)) = 3
    /\ forall ks, In ks (keySessions (surface m)) -> ks_mediaKeys ks = 7.
Proof.
  eexists. split; [reflexivity|].
  pose proof (keySessions_share_mediaKeys sampleRun _ eq_refl)
    as (H1 & _ & _ & _ & H5).
  split; [reflexivity|]. split; [rewrite H5; reflexivity|].
  intros ks Hin. apply H1 in Hin. cbn in Hin. now injection Hin.
Defined.

Lemma length_removeNth {A : Type} (i : nat) (l : list A) (x : A) :
  nth_error l i = Some x -> S (length (removeNth i l)) = length l.
Proof.
  revert i. induction l as [|y rest IH]; intros i H.
  - destruct i; discriminate.
  - destruct i as [|i]; simpl in *; [reflexivity|].
    now rewrite (IH i H).
Qed.

Lemma addSession_held (t : string) (v : InitData) (g : option Promisified)
  (r : nat) (b : option nat) (s : Surface) :
  let s' := fst (addSession t v g r b s) in
  length (keySessions s') + queueLength (video s')
  <= S (length (keySessions s) + queueLength (video s)).
Proof.
  unfold addSession, queueLength.
  destruct (mediaKeysObject (video s)) as [| |mk];
    try (destruct (pendingSessionData (video s)) as [q|] eqn:Eq;
         cbn [fst video keySessions pendingSessionData];
         rewrite ?Eq, ?length_app; simpl; lia).
  cbn [fst]. unfold makeNewRequest.
  cbn [video keySessions pendingSessionData]. rewrite length_app. simpl. lia.
Qed.

Lemma runTail_held (c : Call) (m : Machine) :
  held (runTail c m) <= S (held m).
Proof.
  unfold held. destruct (runTail_quiet c m) as (_ & Ht & _).
  rewrite Ht. unfold runTail.
  destruct (keySystem (video (surface m))) as [k|].
  - destruct (lookupKeySystem (c_keySystems c) k) as [cfg|]; [|lia].
    destruct (standardizeKeySystemOptions k cfg) as [o|e]; [|lia].
    cbn [surface].
    pose proof (addSession_held (c_initDataType c) (c_initData c)
                  (Some (mkPromisified (getLicense o) (c_eventBus c)))
                  (c_removeSession c) (c_eventBus c) (surface m)) as H.
    cbv zeta in H. lia.
  - cbn [surface].
    pose proof (addSession_held (c_initDataType c) (c_initData c) None
                  (c_removeSession c) (c_eventBus c) (surface m)) as H.
    cbv zeta in H. lia.
Qed.

Lemma setMediaKeys_held (certificate : option (list byte)) (mk : nat)
  (g : option Promisified) (r : nat) (b : option nat) (s : Surface) :
  let s' := fst (setMediaKeys certificate mk g r b s) in
  length (keySessions s') + queueLength (video s')
  = length (keySessions s) + queueLength (video s).
Proof.
  unfold setMediaKeys, queueLength. cbn [video pendingSessionData].
  destruct (pendingSessionData (video s)) as [pending|] eqn:Eq; cbn [fst].
  - rewrite drainPending_spec.
    cbn [video keySessions pendingSessionData].
    rewrite length_app, length_map. simpl. lia.
  - cbn [video keySessions pendingSessionData]. reflexivity.
Qed.

Lemma step_held (m m' : Machine) (l : Label) :
  step m l = Some m' ->
  held m' <= held m + (if isInvoke l then 1 else 0).
Proof.
  intros Hstep. destruct l; cbn [step isInvoke] in *.
  - injection Hstep as <-. unfold standard5July2016, held, queueLength.
    destruct (mediaKeysObject (video (surface m)));
      [destruct (c_keySystems c) as [|[k cfg] rest]|..];
      cbn [surface tails video keySessions pendingSessionData];
      rewrite ?length_app; simpl; lia.
  - destruct (step_granted m m' k Hstep) as (c & _ & _ & ->).
    unfold onKeySystemAccess, failChain, held, queueLength.
    destruct (lookupKeySystem (c_keySystems c) k) as [cfg|]; [|cbn; lia].
    destruct (standardizeKeySystemOptions k cfg) as [o|e]; [|cbn; lia].
    destruct (getCertificate o); cbn; lia.
  - destruct (step_denied m m' Hstep) as (c & _ & [(k & _ & ->)|[_ ->]]);
      unfold failChain, held; cbn; lia.
  - destruct (chain m); try discriminate. injection Hstep as <-.
    unfold held. cbn. lia.
  - destruct (chain m); try discriminate. injection Hstep as <-.
    unfold failChain, held. cbn. lia.
  - destruct (chain m); try discriminate. injection Hstep as <-.
    unfold onMediaKeys.
    pose proof (setMediaKeys_held certificate mediaKeys
                  (Some (mkPromisified (getLicense keySystemOptions)
                           (c_eventBus c)))
                  (c_removeSession c) (c_eventBus c) (surface m)) as H.
    cbv zeta in H.
    destruct (setMediaKeys _ _ _ _ _ _) as [s' [e|]]; cbn [fst] in H;
      unfold held, failChain, logError;
      cbn [surface tails video keySessions]; lia.
  - destruct (chain m); try discriminate. injection Hstep as <-.
    unfold failChain, held. cbn. lia.
  - destruct (chain m); try discriminate.
    destruct ok; injection Hstep as <-; unfold failChain, held; cbn; lia.
  - destruct (nth_error (tails m) i) as [t|] eqn:Ei; [|discriminate].
    destruct (ready t m); [|discriminate]. injection Hstep as <-.
    pose proof (runTail_held (t_call t)
                  (mkMachine (surface m) (chain m) (removeNth i (tails m))))
      as H.
    pose proof (length_removeNth i (tails m) t Ei) as Hl.
    unfold held in *. cbn [surface tails] in *. lia.
  - destruct (nth_error (keySessions (surface m)) i) as [ks|];
      [|discriminate].
    injection Hstep as <-. unfold held. cbn. lia.
Qed.

Lemma run_held (ls : list Label) (m m' : Machine) :
  run m ls = Some m' -> held m' <= held m + invocations ls.
Proof.
  revert m. induction ls as [|l ls IH]; intros m Hrun; cbn [run] in Hrun.
  - injection Hrun as <-. unfold invocations. simpl. lia.
  - destruct (step m l) as [m1|] eqn:Hstep; [|discriminate].
    pose proof (step_held m m1 l Hstep) as H1.
    pose proof (IH m1 Hrun) as H2.
    unfold invocations in *. simpl.
    destruct (isInvoke l); simpl; lia.
Qed.

Lemma occurrences_app (x : PendingData) (a b : list PendingData) :
  occurrences x (a ++ b) = occurrences x a + occurrences x b.
Proof. unfold occurrences. apply count_occ_app. Qed.

Lemma occurrences_removeNth (x : PendingData) (i : nat) (l : list Tail)
  (t : Tail) :
  nth_error l i = Some t ->
  occurrences x (map (fun t => signalOf (t_call t)) l)
  = occurrences x [signalOf (t_call t)]
    + occurrences x (map (fun t => signalOf (t_call t)) (removeNth i l)).
Proof.
  revert i. induction l as [|y rest IH]; intros i H.
  - destruct i; discriminate.
  - destruct i as [|i]; cbn [nth_error removeNth map] in *.
    + injection H as ->.
      change (signalOf (t_call t)
                :: map (fun t0 => signalOf (t_call t0)) rest)
        with ([signalOf (t_call t)]
                ++ map (fun t0 => signalOf (t_call t0)) rest).
      apply occurrences_app.
    + change (signalOf (t_call y)
                :: map (fun t0 => signalOf (t_call t0)) rest)
        with ([signalOf (t_call y)]
                ++ map (fun t0 => signalOf (t_call t0)) rest).
      change (signalOf (t_call y)
                :: map (fun t0 => signalOf (t_call t0)) (removeNth i rest))
        with ([signalOf (t_call y)]
                ++ map (fun t0 => signalOf (t_call t0)) (removeNth i rest)).
      rewrite !occurrences_app, (IH i H). lia.
Qed.

Lemma sessionSignal_sessionFor (mk : nat) (g : option Promisified) (r : nat)
  (b : option nat) (q : list PendingData) :
  map sessionSignal (map (sessionFor mk g r b) q) = q.
Proof.
  induction q as [|[t v] rest IH]; [reflexivity|].
  cbn [map]. rewrite IH. reflexivity.
Qed.

Lemma addSession_signals (x : PendingData) (t : string) (v : InitData)
  (g : option Promisified) (r : nat) (b : option nat) (s : Surface) :
  let s' := fst (addSession t v g r b s) in
  occurrences x (map sessionSignal (keySessions s') ++ queueOf (video s'))
  <= occurrences x (map sessionSignal (keySessions s) ++ queueOf (video s))
     + occurrences x [mkPending t v].
Proof.
  unfold addSession, queueOf.
  destruct (mediaKeysObject (video s)) as [| |mk];
    try (destruct (pendingSessionData (video s)) as [q|] eqn:Eq;
         cbn [fst video keySessions pendingSessionData];
         rewrite ?Eq, ?occurrences_app; lia).
  cbn [fst]. unfold makeNewRequest.
  cbn [video keySessions pendingSessionData].
  rewrite map_app, !occurrences_app.
  change (map sessionSignal [mkKeySession mk t v g r b])
    with [mkPending t v].
  destruct (pendingSessionData (video s)); lia.
Qed.

Lemma runTail_signals (x : PendingData) (c : Call) (m : Machine) :
  occurrences x (heldSignals (runTail c m))
  <= occurrences x (heldSignals m) + occurrences x [signalOf c].
Proof.
  unfold heldSignals. destruct (runTail_quiet c m) as (_ & Ht & _).
  rewrite Ht. rewrite !app_assoc, !(occurrences_app x (_ ++ _)).
  apply Nat.add_le_mono_r with (p := 0). rewrite !Nat.add_0_r.
  enough (H : occurrences x
                (map sessionSignal (keySessions (surface (runTail c m)))
                   ++ queueOf (video (surface (runTail c m))))
              <= occurrences x
                   (map sessionSignal (keySessions (surface m))
                      ++ queueOf (video (surface m)))
                 + occurrences x [signalOf c]) by lia.
  unfold runTail.
  destruct (keySystem (video (surface m))) as [k|].
  - destruct (lookupKeySystem (c_keySystems c) k) as [cfg|]; [|lia].
    destruct (standardizeKeySystemOptions k cfg) as [o|e]; [|lia].
    cbn [surface]. apply addSession_signals.
  - cbn [surface]. apply addSession_signals.
Qed.

Ltac quiet_signals :=
  match goal with
  | |- occurrences ?x (heldSignals ?m') <= occurrences ?x (heldSignals ?m) + _ =>
      change (heldSignals m') with (heldSignals m);
      change (occurrences x []) with 0; lia
  end.

Lemma step_signals (x : PendingData) (m m' : Machine) (l : Label) :
  step m l = Some m' ->
  occurrences x (heldSignals m')
  <= occurrences x (heldSignals m) + occurrences x (invokedSignal l).
Proof.
  intros Hstep. destruct l; cbn [step invokedSignal] in *.
  - injection Hstep as <-. unfold standard5July2016, heldSignals, queueOf.
    destruct (mediaKeysObject (video (surface m)));
      [destruct (c_keySystems c) as [|[k cfg] rest]|..];
      cbn [surface tails video keySessions pendingSessionData logError
             perform];
      rewrite ?map_app, ?occurrences_app; cbn [map t_call app];
      rewrite ?occurrences_app; try change (occurrences x []) with 0; lia.
  - destruct (step_granted m m' k Hstep) as (c & _ & _ & ->).
    unfold onKeySystemAccess.
    destruct (lookupKeySystem (c_keySystems c) k) as [cfg|];
      [|quiet_signals].
    destruct (standardizeKeySystemOptions k cfg) as [o|e]; [|quiet_signals].
    destruct (getCertificate o); quiet_signals.
  - destruct (step_denied m m' Hstep) as (c & _ & [(k & _ & ->)|[_ ->]]);
      quiet_signals.
  - destruct (chain m); try discriminate. injection Hstep as <-.
    quiet_signals.
  - destruct (chain m); try discriminate. injection Hstep as <-.
    quiet_signals.
  - destruct (chain m); try discriminate. injection Hstep as <-.
    change (occurrences x []) with 0.
    unfold onMediaKeys, setMediaKeys, heldSignals, queueOf.
    cbn [video pendingSessionData].
    destruct (pendingSessionData (video (surface m))) as [q|] eqn:Eq.
    + rewrite drainPending_spec.
      cbn [surface tails video keySessions pendingSessionData].
      rewrite map_app, sessionSignal_sessionFor, !occurrences_app.
      change (occurrences x []) with 0. lia.
    + unfold failChain, logError.
      cbn [surface tails video keySessions pendingSessionData].
      rewrite !occurrences_app. lia.
  - destruct (chain m); try discriminate. injection Hstep as <-.
    quiet_signals.
  - destruct (chain m); try discriminate.
    destruct ok; injection Hstep as <-; quiet_signals.
  - destruct (nth_error (tails m) i) as [t|] eqn:Ei; [|discriminate].
    destruct (ready t m); [|discriminate]. injection Hstep as <-.
    pose proof (runTail_signals x (t_call t)
                  (mkMachine (surface m) (chain m) (removeNth i (tails m))))
      as H.
    pose proof (occurrences_removeNth x i (tails m) t Ei) as Hl.
    change (occurrences x []) with 0.
    unfold heldSignals in *. cbn [surface tails] in *.
    rewrite !occurrences_app in *. lia.
  - destruct (nth_error (keySessions (surface m)) i) as [ks|];
      [|discriminate].
    injection Hstep as <-. quiet_signals.
Qed.

Lemma run_signals (x : PendingData) (ls : list Label) (m m' : Machine) :
  run m ls = Some m' ->
  occurrences x (heldSignals m')
  <= occurrences x (heldSignals m) + occurrences x (invokedSignals ls).
Proof.
  revert m. induction ls as [|l ls IH]; intros m Hrun; cbn [run] in Hrun.
  - injection Hrun as <-. cbn. lia.
  - destruct (step m l) as [m1|] eqn:Hstep; [|discriminate].
    pose proof (step_signals x m m1 l Hstep) as H1.
    pose proof (IH m1 Hrun) as H2.
    unfold invokedSignals in *. cbn [flat_map].
    rewrite occurrences_app. lia.
Qed.

(** No signal is served twice.  In every run of calls and platform
    answers on one surface, each pair of initialization-data type and
    initialization data occurs among the key sessions made, the pairs
    waiting in [video.pendingSessionData] and the [addSession]
    continuations that have not run yet at most as often as
    [standard5July2016] was called with it: no key session is made for a
    signal that was not given, and none is made twice for one that was,
    also when pairs are queued and drained.  In particular there are
    never more [createSession] calls than calls of [standard5July2016]. *)
Theorem signals_served_at_most_once (ls : list Label) (m : Machine) :
  run newMachine ls = Some m ->
  (forall signal,
     occurrences signal (heldSignals m)
     <= occurrences signal (invokedSignals ls))
  /\ length (keySessions (surface m)) + queueLength (video (surface m))
     + length (tails m)
     <= invocations ls
  /\ count isCreateSessionEffect (effects (surface m)) <= invocations ls.
Proof.
  intros Hrun. pose proof (run_held ls newMachine m Hrun) as H.
  unfold held in H. cbn in H. split; [|split; [exact H|]].
  - intros signal. pose proof (run_signals signal ls newMachine m Hrun) as Hs.
    cbn in Hs. exact Hs.
  - pose proof (run_surfaceInvariant ls newMachine m newMachine_invariant
                  newMachine_surfaceInvariant Hrun) as (_ & _ & Hcount).
    rewrite Hcount. lia.
Qed.

Lemma signals_served_at_most_once_witness :
  exists m,
    run newMachine sampleRun = Some m
    /\ count isCreateSessionEffect (effects (surface m)) <= 3.
Proof.
  eexists. split; [reflexivity|].
  apply (proj2 (proj2 (signals_served_at_most_once sampleRun _ eq_refl))).
Defined.

Lemma step_creationHalted (m m' : Machine) (l : Label) :
  creationHalted m -> step m l = Some m' ->
  creationHalted m'
  /\ tally (effects (surface m')) = tally (effects (surface m))
  /\ count isCreateSessionEffect (effects (surface m'))
     = count isCreateSessionEffect (effects (surface m))
  /\ count isNetwork (effects (surface m'))
     = count isNetwork (effects (surface m)).
Proof.
  intros (Hch & Hmk & Hks) Hstep.
  destruct l; cbn [step] in Hstep; rewrite ?Hch in Hstep;
    try discriminate.
  - injection Hstep as <-. unfold standard5July2016. rewrite Hmk.
    unfold creationHalted. cbn [surface chain]. repeat split; assumption.
  - destruct (nth_error (tails m) i) as [t|]; [|discriminate].
    destruct (ready t m); [|discriminate]. injection Hstep as <-.
    set (m0 := mkMachine (surface m) Settled (removeNth i (tails m))).
    destruct (runTail_quiet (t_call t) m0) as (H1 & _ & H3 & H4 & H5 & H6).
    assert (Hunset : unsetKeys (video (surface m0)) = true)
      by (unfold unsetKeys; cbn; now rewrite Hmk).
    specialize (H6 Hunset). cbn [surface chain] in *.
    assert (Hsame : count isCreateSessionEffect
                      (effects (surface (runTail (t_call t) m0)))
                    = count isCreateSessionEffect (effects (surface m))).
    { unfold runTail, addSession. cbn [surface m0].
      rewrite Hmk.
      destruct (keySystem (video (surface m))) as [k|].
      - destruct (lookupKeySystem (c_keySystems (t_call t)) k) as [cfg|];
          [|reflexivity].
        destruct (standardizeKeySystemOptions k cfg) as [o|e];
          [|reflexivity].
        destruct (pendingSessionData (video (surface m))); reflexivity.
      - destruct (pendingSessionData (video (surface m))); reflexivity. }
    unfold creationHalted. rewrite H1, H5, H6, H3, H4, Hsame.
    repeat split; assumption.
  - rewrite Hks in Hstep. destruct i; discriminate.
Qed.

Lemma run_creationHalted (ls : list Label) (m m' : Machine) :
  creationHalted m -> run m ls = Some m' ->
  creationHalted m'
  /\ tally (effects (surface m')) = tally (effects (surface m))
  /\ count isCreateSessionEffect (effects (surface m'))
     = count isCreateSessionEffect (effects (surface m))
  /\ count isNetwork (effects (surface m'))
     = count isNetwork (effects (surface m)).
Proof.
  revert m. induction ls as [|l ls IH]; intros m Hh Hrun; cbn [run] in Hrun.
  - injection Hrun as <-. split; [exact Hh | repeat split].
  - destruct (step m l) as [m1|] eqn:Hstep; [|discriminate].
    destruct (step_creationHalted m m1 l Hh Hstep) as (Hh1 & E1 & E2 & E3).
    destruct (IH m1 Hh1 Hrun) as (Hh2 & F1 & F2 & F3).
    split; [exact Hh2 | repeat split; congruence].
Qed.

(** A failed creation is final.  When the creation chain of a surface
    has ended and [video.mediaKeysObject] is still [null] (access was
    denied, the configuration was rejected, the certificate could not be
    fetched or [createMediaKeys] failed), then whatever calls and
    platform answers follow, the object stays [null], no key session is
    ever made, and no further access request, MediaKeys creation,
    certificate or licence call is made: later signals only wait in
    [video.pendingSessionData]. *)
Theorem failed_creation_is_final (ls1 ls2 : list Label) (m1 m2 : Machine) :
  run newMachine ls1 = Some m1 ->
  chain m1 = Settled ->
  mediaKeysObject (video (surface m1)) = MKNull ->
  run m1 ls2 = Some m2 ->
  chain m2 = Settled
  /\ mediaKeysObject (video (surface m2)) = MKNull
  /\ keySessions (surface m2) = []
  /\ count isCreateSessionEffect (effects (surface m2)) = 0
  /\ tally (effects (surface m2)) = tally (effects (surface m1))
  /\ count isNetwork (effects (surface m2))
     = count isNetwork (effects (surface m1))
  /\ (exists q,
        pendingSessionData (video (surface m2)) = Some q
        /\ forall c,
             surface (runTail c m2)
             = mkSurface
                 (mkVideo MKNull
                    (Some (q ++ [mkPending (c_initDataType c)
                                   (c_initData c)]))
                    (keySystem (video (surface m2))))
                 [] (effects (surface m2))
             \/ surface (runTail c m2) = surface m2).
Proof.
  intros Hrun1 Hch Hmk Hrun2.
  pose proof (run_surfaceInvariant ls1 newMachine m1 newMachine_invariant
                newMachine_surfaceInvariant Hrun1) as Hinv.
  assert (Hunset : unsetKeys (video (surface m1)) = true)
    by (unfold unsetKeys; now rewrite Hmk).
  destruct (surfaceInvariant_unset _ Hinv Hunset) as (Hks & _ & Hcount).
  assert (Hh : creationHalted m1) by (repeat split; assumption).
  destruct (run_creationHalted ls2 m1 m2 Hh Hrun2)
    as ((Hch2 & Hmk2 & Hks2) & E1 & E2 & E3).
  repeat split; try assumption; try congruence.
  assert (Hq : exists q, pendingSessionData (video (surface m2)) = Some q).
  { assert (Hrun : run newMachine (ls1 ++ ls2) = Some m2).
    { clear -Hrun1 Hrun2. revert Hrun1. generalize newMachine.
      induction ls1 as [|l ls IH]; intros m0 Hrun1; cbn [run app] in *.
      - now injection Hrun1 as ->.
      - destruct (step m0 l); [now apply IH | discriminate]. }
    assert (Hready : queueReady m2).
    { clear -Hrun. revert Hrun.
      assert (Hgen : forall ls m0 m',
                 creationInvariant m0 -> queueReady m0 ->
                 run m0 ls = Some m' -> queueReady m').
      { induction ls as [|l ls IH]; intros m0 m' Hc Hq Hrun;
          cbn [run] in Hrun.
        - now injection Hrun as <-.
        - destruct (step m0 l) as [mx|] eqn:Hstep; [|discriminate].
          apply (IH mx m'); auto.
          + eapply step_invariant; eassumption.
          + eapply step_queueReady; eassumption. }
      apply Hgen; [apply newMachine_invariant|].
      intros H. exfalso. apply H. reflexivity. }
    apply Hready. rewrite Hmk2. discriminate. }
  destruct Hq as [q Hq]. exists q. split; [exact Hq|]. intros c.
  unfold runTail, addSession. rewrite Hmk2, Hq, Hks2.
  destruct (keySystem (video (surface m2))) as [k|].
  - destruct (lookupKeySystem (c_keySystems c) k) as [cfg|]; [|now right].
    destruct (standardizeKeySystemOptions k cfg) as [o|e]; [|now right].
    left. reflexivity.
  - left. reflexivity.
Qed.

Lemma failed_creation_is_final_witness :
  exists m,
    run newMachine deniedRun = Some m
    /\ keySessions (surface m) = []
    /\ count isCreateSessionEffect (effects (surface m)) = 0
    /\ pendingSessionData (video (surface m))
       = Some [mkPending "cenc" (ArrayBuffer 1);
               mkPending "cenc" (ArrayBuffer 3)].
Proof.
  eexists. split; [reflexivity|].
  destruct (failed_creation_is_final
              [Invoke (sampleCall 1); AccessDenied]
              [RunTail 0; Invoke (sampleCall 3); RunTail 0]
              _ _ eq_refl eq_refl eq_refl eq_refl)
    as (_ & _ & Hks & Hcount & _).
  split; [exact Hks|]. split; [exact Hcount | reflexivity].
Defined.

(** ** The player: events of one source *)

(** After [setupSessions] the recorded source is the current one; running
    it again changes nothing; and while the source is the recorded one
    the player, with its registry, is left as it is, so that the entries
    of one source persist from event to event. *)
Lemma setupSessions_settles (p : Player) :
  eme_activeSrc (setupSessions p) = Some (src p)
  /\ src (setupSessions p) = src p
  /\ setupSessions (setupSessions p) = setupSessions p
  /\ (differsFrom (src p) (eme_activeSrc p) = false -> setupSessions p = p).
Proof.
  unfold setupSessions.
  destruct (differsFrom (src p) (eme_activeSrc p)) eqn:Hd.
  - cbn [eme_activeSrc src]. repeat split; [|discriminate].
    unfold differsFrom. now rewrite String.eqb_refl.
  - rewrite Hd. repeat split.
    unfold differsFrom in Hd. destruct (eme_activeSrc p) as [a|];
      [|discriminate].
    apply negb_false_iff, String.eqb_eq in Hd. now rewrite Hd.
Qed.

(** ** [initializeMediaKeys] *)

Lemma resolveInitData_withoutPssh (ks : KeySystems) (k : string)
  (v : InitData) :
  withoutPssh ks = true -> resolveInitData ks k v = v.
Proof.
  unfold resolveInitData, withoutPssh.
  induction ks as [|[k' cfg] rest IH]; simpl; [reflexivity|].
  intros H. apply andb_true_iff in H. destruct H as [Hcfg Hrest].
  destruct (String.eqb k' k); [|now apply IH].
  destruct cfg as [s|o]; [reflexivity|].
  cbn in Hcfg. apply negb_true_iff in Hcfg. now rewrite Hcfg.
Qed.

(** Without a [pssh] in the configuration [initializeMediaKeys] starts
    nothing: on an element with [setMediaKeys], on one with
    [msSetMediaKeys] and on one with neither, the registry is what
    [setupSessions] leaves, no acquisition is started and [msPrefixed]
    does not run.  With neither interface the callback is never called.
    With a [pssh] configured for the key system the platform grants, and
    no entry in the registry with the bytes of its buffer, the [pssh] is
    registered and acquired as [cenc] initialization data. *)
Theorem initializeMediaKeys_needs_pssh (supported : string -> bool)
  (h : Heap) (kind : ElementKind) (ks : KeySystems) (eventBus : nat)
  (registry : nat) (platform : MsPlatform) (p : Player) :
  let run := initializeMediaKeys supported h kind (mkEmeOptions (Some ks))
               eventBus registry platform p in
  (withoutPssh ks = true ->
   eme_sessions (fst (fst run)) = eme_sessions (setupSessions p)
   /\ snd (fst run) = None
   /\ (forall c, snd run <> CalledAfter c))
  /\ (kind = HasNeither -> snd run = NeverCalled)
  /\ (forall k o bs,
        kind = HasSetMediaKeys ->
        firstSupported supported ks = Some k ->
        lookupKeySystem ks k = Some (CfgObject o) ->
        bufferBytes h (pssh o) = Some bs ->
        ~ In bs (fingerprints h (eme_sessions (setupSessions p))) ->
        eme_sessions (fst (fst run))
        = eme_sessions (setupSessions p) ++ [mkSession false (pssh o)]
        /\ snd run
           = CalledAfter (mkCall "cenc" (pssh o) ks registry (Some eventBus))).
Proof.
  intros run. split; [|split].
  - intros Hno. unfold run, initializeMediaKeys. destruct kind.
    + unfold handleEncryptedEvent. cbn [keySystems].
      unfold getSupportedKeySystem. destruct ks as [|e rest].
      { cbn. repeat split. discriminate. }
      destruct (firstSupported supported (e :: rest)) as [k|].
      2:{ cbn. repeat split. discriminate. }
      rewrite encryptedCallback_falsy
        by (rewrite resolveInitData_withoutPssh; [reflexivity | exact Hno]).
      cbn [fst snd eme_sessions]. repeat split.
      intros c. destruct (hasSession h _ _); discriminate.
    + unfold handleMsNeedKeyEvent. cbn [keySystems].
      assert (Hp : truthy (configPssh (lookupKeySystem ks
                                         PLAYREADY_KEY_SYSTEM)) = false).
      { clear -Hno. unfold withoutPssh in Hno.
        induction ks as [|[k' cfg] rest IH]; simpl in *; [reflexivity|].
        apply andb_true_iff in Hno. destruct Hno as [Hcfg Hrest].
        destruct (String.eqb k' PLAYREADY_KEY_SYSTEM); [|now apply IH].
        now apply negb_true_iff in Hcfg. }
      destruct (truthyConfig (lookupKeySystem ks PLAYREADY_KEY_SYSTEM));
        cbn [negb]; [|cbn; repeat split; discriminate].
      destruct (anyPlayready (eme_sessions (setupSessions p)));
        [cbn; repeat split; discriminate|].
      rewrite Hp. cbn. repeat split; discriminate.
    + cbn. repeat split. discriminate.
  - intros ->. reflexivity.
  - intros k o bs -> Hk Hcfg Hbs Hfresh.
    unfold run, initializeMediaKeys, handleEncryptedEvent.
    cbn [keySystems]. unfold getSupportedKeySystem.
    destruct ks as [|e rest]; [discriminate|]. rewrite Hk.
    assert (Hv : resolveInitData (e :: rest) k (ev_initData mockEncryptedEvent)
                 = pssh o).
    { unfold resolveInitData. rewrite Hcfg.
      now rewrite (bufferBytes_Some_truthy h _ _ Hbs). }
    pose proof (encryptedCallback_cases h mockEncryptedEvent (e :: rest)
                  (Some eventBus) registry (eme_sessions (setupSessions p))
                  k bs) as Hcb.
    cbv zeta in Hcb. rewrite Hv in Hcb. specialize (Hcb Hbs).
    rewrite Hcb.
    destruct (existsb (fun fp => sameBytes fp bs)
                (fingerprints h (eme_sessions (setupSessions p)))) eqn:E.
    { apply existsb_sameBytes in E. contradiction. }
    cbn. split; reflexivity.
Qed.

(** ** The plugin glue: a source change and the callbacks in flight *)

Lemma length_setNth {A : Type} (a : nat) (x : A) (l : list A) :
  length (setNth a x l) = length l.
Proof.
  revert a. induction l as [|y rest IH]; intros [|a]; simpl; auto.
Qed.

Lemma nth_setNth_other {A : Type} (a b : nat) (x d : A) (l : list A) :
  a <> b -> nth b (setNth a x l) d = nth b l d.
Proof.
  revert a b. induction l as [|y rest IH]; intros [|a] [|b] Hne; simpl;
    auto; try congruence.
Qed.

Lemma In_setNth {A : Type} (a : nat) (x y : A) (l : list A) :
  In y (setNth a x l) -> y = x \/ In y l.
Proof.
  revert a. induction l as [|z rest IH]; intros [|a]; simpl; auto.
  - intros [<- | H]; auto.
  - intros [<- | H]; auto. destruct (IH a H); auto.
Qed.

Lemma registryAt_NoDup (h : Heap) (r : Registries) (a : nat) :
  (forall sessions, In sessions (rg_arrays r) ->
                    NoDup (fingerprints h sessions)) ->
  NoDup (fingerprints h (registryAt r a)).
Proof.
  intros H. unfold registryAt.
  destruct (Nat.lt_ge_cases a (length (rg_arrays r))) as [Hlt | Hge].
  - apply H. now apply nth_In.
  - rewrite nth_overflow by exact Hge. constructor.
Qed.

Lemma setupSessionsByName_named (currentSrc : string) (r : Registries) :
  registriesNamed r ->
  exists a,
    rg_sessions (setupSessionsByName currentSrc r) = Some a
    /\ a < length (rg_arrays (setupSessionsByName currentSrc r))
    /\ length (rg_arrays r)
       <= length (rg_arrays (setupSessionsByName currentSrc r))
    /\ (forall sessions,
          In sessions (rg_arrays (setupSessionsByName currentSrc r)) ->
          sessions = [] \/ In sessions (rg_arrays r)).
Proof.
  intros Hval. unfold setupSessionsByName.
  destruct (differsFrom currentSrc (rg_activeSrc r)) eqn:Hd.
  - exists (length (rg_arrays r)). cbn [rg_sessions rg_arrays].
    rewrite length_app. simpl. repeat split; try lia.
    intros sessions Hin. apply in_app_or in Hin.
    destruct Hin as [Hin | [<- | []]]; auto.
  - unfold registriesNamed in Hval.
    destruct (rg_sessions r) as [a|] eqn:Ea.
    + exists a. repeat split; auto.
    + rewrite Hval in Hd. discriminate.
Qed.

Lemma encryptedListener_invariant (h : Heap) (currentSrc : string)
  (event : EncryptedEvent) (options : Options) (eventBus : option nat)
  (g : Glue) :
  glueInvariant h g ->
  glueInvariant h (encryptedListener currentSrc event options eventBus g).
Proof.
  intros (Hn & Hw & Hnd & Hc).
  destruct (setupSessionsByName_named currentSrc (registries g) Hn)
    as (a & Ha & Hlt & Hle & Hin).
  assert (Hn' : registriesNamed (setupSessionsByName currentSrc (registries g)))
    by (unfold registriesNamed; now rewrite Ha).
  assert (Hnd' : forall sessions,
             In sessions
               (rg_arrays (setupSessionsByName currentSrc (registries g))) ->
             NoDup (fingerprints h sessions)).
  { intros sessions Hs. destruct (Hin sessions Hs) as [-> | Hold];
      [constructor | now apply Hnd]. }
  unfold encryptedListener. rewrite Ha.
  destruct (keySystems options) as [[|entry rest]|];
    unfold glueInvariant; cbn [registries waiting acquisitions];
    repeat split; auto.
  all: try (intros w Hin'; apply Hw in Hin'; lia).
  all: try (intros c Hin'; apply Hc in Hin'; lia).
  intros w Hin'. apply in_app_or in Hin'.
  destruct Hin' as [Hin' | [<- | []]]; [apply Hw in Hin'; lia | exact Hlt].
Qed.

Lemma accessSettles_invariant (h : Heap) (i : nat)
  (supported : string -> bool) (g : Glue) :
  glueInvariant h g -> glueInvariant h (accessSettles h i supported g).
Proof.
  intros Hinv. pose proof Hinv as (Hn & Hw & Hnd & Hc).
  unfold accessSettles.
  destruct (nth_error (waiting g) i) as [w|] eqn:Ei; [|exact Hinv].
  assert (Hrest : forall w', In w' (removeNth i (waiting g)) ->
                             In w' (waiting g)).
  { clear. generalize (waiting g). revert i.
    induction i as [|i IH]; intros [|x l] w' H; simpl in *; auto.
    destruct H as [<- | H]; auto. }
  destruct (firstSupported supported (wt_keySystems w)) as [k|].
  - destruct (encryptedCallback h (wt_event w) (wt_keySystems w)
                (wt_eventBus w) (wt_array w)
                (registryAt (registries g) (wt_array w)) k)
      as [sessions' out] eqn:Ecb.
    unfold glueInvariant, writeRegistry, registriesNamed.
    cbn [registries waiting acquisitions rg_sessions rg_arrays rg_activeSrc].
    rewrite length_setNth. repeat split.
    + exact Hn.
    + intros w' Hin. apply Hw. now apply Hrest.
    + intros sessions Hin. apply In_setNth in Hin.
      destruct Hin as [-> | Hin]; [|now apply Hnd].
      pose proof (applyOp_NoDup h (registryAt (registries g) (wt_array w))
                    (Encrypted (wt_event w) (wt_keySystems w) (wt_eventBus w)
                       (wt_array w) k)
                    (registryAt_NoDup h _ _ Hnd)) as H.
      cbn [applyOp] in H. now rewrite Ecb in H.
    + intros c Hin. apply in_app_or in Hin. destruct Hin as [Hin | Hin];
        [now apply Hc|].
      unfold encryptedCallback in Ecb.
      destruct (hasSession h _ _) as [found|e];
        [destruct (found || _)|]; injection Ecb as <- <-;
        try (destruct Hin; fail).
      destruct Hin as [<- | []]. cbn [c_removeSession].
      apply Hw. eapply nth_error_In; eassumption.
  - unfold glueInvariant. cbn [registries waiting acquisitions].
    repeat split; auto.
Qed.

Lemma sessionCloses_invariant (h : Heap) (a : nat) (v : InitData)
  (g : Glue) :
  glueInvariant h g -> glueInvariant h (sessionCloses a v g).
Proof.
  intros (Hn & Hw & Hnd & Hc).
  unfold sessionCloses, glueInvariant, writeRegistry, registriesNamed.
  cbn [registries waiting acquisitions rg_sessions rg_arrays rg_activeSrc].
  rewrite length_setNth. repeat split; auto.
  intros sessions Hin. apply In_setNth in Hin.
  destruct Hin as [-> | Hin]; [|now apply Hnd].
  apply NoDup_fingerprints_removeSession. now apply registryAt_NoDup.
Qed.

Lemma glueRun_invariant (h : Heap) (events : list GlueEvent) (g : Glue) :
  glueInvariant h g -> glueInvariant h (glueRun h g events).
Proof.
  unfold glueRun. revert g.
  induction events as [|e rest IH]; intros g Hinv; [exact Hinv|].
  cbn [fold_left]. apply IH. destruct e; cbn [glueStep].
  - now apply encryptedListener_invariant.
  - now apply accessSettles_invariant.
  - now apply sessionCloses_invariant.
Qed.

Lemma newGlue_invariant (h : Heap) : glueInvariant h newGlue.
Proof.
  unfold glueInvariant, registriesNamed. cbn.
  repeat split; intros ? [].
Qed.

Lemma currentRegistry_write_other (r : Registries) (a : nat)
  (sessions : list Session) :
  rg_sessions r <> Some a ->
  currentRegistry (writeRegistry r a sessions) = currentRegistry r.
Proof.
  intros Hne. unfold currentRegistry, writeRegistry, registryAt.
  cbn [rg_sessions rg_arrays].
  destruct (rg_sessions r) as [b|]; [|reflexivity].
  apply nth_setNth_other. congruence.
Qed.

(** A source change and what is in flight.  [setupSessions] makes a new
    array for a new source instead of emptying the old one, so in every
    state the plugin can reach, when an encrypted event arrives for a
    source other than the recorded one: the registry the event is
    checked against is empty; every callback still waiting for the
    platform's answer, and every [removeSession] of a session acquired
    before, is bound to another array; and such a callback or removal,
    whenever it runs, leaves the registry of the new source as it is.
    On the content of the registry this [setupSessions] is the one of
    the player. *)
Theorem source_change_isolates_registry (h : Heap)
  (events : list GlueEvent) (currentSrc : string) (event : EncryptedEvent)
  (options : Options) (eventBus : option nat) :
  let g := glueRun h newGlue events in
  let g1 := encryptedListener currentSrc event options eventBus g in
  differsFrom currentSrc (rg_activeSrc (registries g)) = true ->
  currentRegistry (registries g1) = []
  /\ (forall w, In w (waiting g) ->
                rg_sessions (registries g1) <> Some (wt_array w))
  /\ (forall c, In c (acquisitions g) ->
                rg_sessions (registries g1) <> Some (c_removeSession c))
  /\ (forall g' i supported w,
        nth_error (waiting g') i = Some w ->
        rg_sessions (registries g') <> Some (wt_array w) ->
        currentRegistry (registries (accessSettles h i supported g'))
        = currentRegistry (registries g'))
  /\ (forall g' a v,
        rg_sessions (registries g') <> Some a ->
        currentRegistry (registries (sessionCloses a v g'))
        = currentRegistry (registries g'))
  /\ (forall el0,
        currentRegistry (registries g1)
        = eme_sessions
            (setupSessions
               (mkPlayer currentSrc (rg_activeSrc (registries g))
                  (currentRegistry (registries g)) el0))).
Proof.
  intros g g1 Hd.
  pose proof (glueRun_invariant h events newGlue (newGlue_invariant h))
    as (Hn & Hw & Hnd & Hc).
  fold g in Hn, Hw, Hnd, Hc.
  assert (Hr : registries g1
               = mkRegistries (Some currentSrc)
                   (Some (length (rg_arrays (registries g))))
                   (rg_arrays (registries g) ++ [[]])).
  { unfold g1, encryptedListener, setupSessionsByName. rewrite Hd.
    cbn [rg_sessions]. destruct (keySystems options) as [[|entry rest]|];
      reflexivity. }
  rewrite Hr. cbn [rg_sessions].
  assert (Hempty : currentRegistry
                     (mkRegistries (Some currentSrc)
                        (Some (length (rg_arrays (registries g))))
                        (rg_arrays (registries g) ++ [[]])) = []).
  { unfold currentRegistry, registryAt. cbn [rg_sessions rg_arrays].
    rewrite app_nth2 by lia. now rewrite Nat.sub_diag. }
  repeat split.
  - exact Hempty.
  - intros w Hin E. injection E as E. apply Hw in Hin. lia.
  - intros c Hin E. injection E as E. apply Hc in Hin. lia.
  - intros g' i supported w Hi Hne. unfold accessSettles. rewrite Hi.
    destruct (firstSupported supported (wt_keySystems w)); [|reflexivity].
    destruct (encryptedCallback h _ _ _ _ _ _) as [sessions' out].
    cbn [registries]. now apply currentRegistry_write_other.
  - intros g' a v Hne. unfold sessionCloses. cbn [registries].
    now apply currentRegistry_write_other.
  - intros el0. rewrite Hempty. unfold setupSessions.
    cbn [src eme_activeSrc]. now rewrite Hd.
Qed.

Lemma source_change_isolates_registry_witness :
  currentRegistry (registries (glueRun sampleHeap newGlue sampleGlueEvents))
  = [mkSession false (ArrayBuffer 1)]
  /\ currentRegistry
       (registries
          (encryptedListener "b.mpd" (sampleEvent 2)
             (mkEmeOptions (Some sampleKeySystems)) (Some 0)
             (glueRun sampleHeap newGlue sampleGlueEvents)))
     = []
  /\ currentRegistry
       (registries
          (accessSettles sampleHeap 0 (fun _ => true)
             (encryptedListener "b.mpd" (sampleEvent 2)
                (mkEmeOptions (Some sampleKeySystems)) (Some 0)
                (glueRun sampleHeap newGlue sampleGlueEvents))))
     = [].
Proof.
  destruct (source_change_isolates_registry sampleHeap sampleGlueEvents
              "b.mpd" (sampleEvent 2) (mkEmeOptions (Some sampleKeySystems))
              (Some 0) eq_refl)
    as (H1 & _ & _ & H4 & _).
  split; [reflexivity|]. split; [exact H1|].
  rewrite (H4 _ 0 (fun _ => true)
             (mkWaiting (sampleEvent 3) sampleKeySystems 0 (Some 0))).
  - exact H1.
  - reflexivity.
  - cbn. discriminate.
Defined.

(** ** The plugin: expiry of a key session *)

Lemma nth_setNth_same {A : Type} (a : nat) (x d : A) (l : list A) :
  a < length l -> nth a (setNth a x l) d = x.
Proof.
  revert a. induction l as [|y rest IH]; intros [|a] H; simpl in *;
    try lia; [reflexivity|].
  apply IH. lia.
Qed.

Lemma registryAt_write (r : Registries) (a : nat) (sessions : list Session) :
  a < length (rg_arrays r) ->
  registryAt (writeRegistry r a sessions) a = sessions.
Proof. intros H. unfold registryAt, writeRegistry. cbn. now apply nth_setNth_same. Qed.

(** From signal to expiry and back, for a signal that is served at once.
    The callback of an encrypted event registers initialization data
    whose bytes its registry array did not hold and calls
    [standard5July2016] with [removeSession] bound to that array.  On a
    surface whose MediaKeys object is set, [addSession] makes the key
    session for this call, and the session carries that binding.  When
    the session then reports an expired key on its event bus it is
    closed, and the [removeSession] it carries takes the entry out of the
    array the callback wrote it to: the array is what it was before the
    signal, and no longer matches the initialization data, so that the
    same signal would be registered again. *)
Theorem session_expiry_allows_reacquisition (h : Heap) (g : Glue) (i : nat)
  (w : Waiting) (supported : string -> bool) (k : string) (bus : nat)
  (bs : list byte) (s : Surface) (mk : nat) (getLicenseP : option Promisified)
  (keyStatuses : list (nat * MediaKeyStatus)) :
  nth_error (waiting g) i = Some w ->
  wt_array w < length (rg_arrays (registries g)) ->
  wt_eventBus w = Some bus ->
  firstSupported supported (wt_keySystems w) = Some k ->
  bufferBytes h (resolveInitData (wt_keySystems w) k (ev_initData (wt_event w)))
  = Some bs ->
  ~ In bs (fingerprints h (registryAt (registries g) (wt_array w))) ->
  mediaKeysObject (video s) = MKObject mk ->
  existsb isExpired keyStatuses = true ->
  let before := registryAt (registries g) (wt_array w) in
  let g1 := accessSettles h i supported g in
  exists c session,
    acquisitions g1 = acquisitions g ++ [c]
    /\ c_removeSession c = wt_array w
    /\ registryAt (registries g1) (wt_array w)
       = before ++ [mkSession false (c_initData c)]
    /\ keySessions
         (fst (addSession (c_initDataType c) (c_initData c) getLicenseP
                 (c_removeSession c) (c_eventBus c) s))
       = keySessions s ++ [session]
    /\ ks_initData session = c_initData c
    /\ ks_removeSession session = wt_array w
    /\ snd (onKeyStatusesChange session keyStatuses) = true
    /\ registryAt
         (registries
            (sessionCloses (ks_removeSession session) (ks_initData session)
               g1))
         (wt_array w)
       = before
    /\ hasSession h before (c_initData c) = Ok false.
Proof.
  intros Hnth Ha Hbus Hfs Hbs Hfresh Hmk Hexp before g1.
  set (v := resolveInitData (wt_keySystems w) k (ev_initData (wt_event w)))
    in *.
  assert (Hex : existsb (fun fp => sameBytes fp bs) (fingerprints h before)
                = false).
  { destruct (existsb (fun fp => sameBytes fp bs) (fingerprints h before))
      eqn:E; [|reflexivity].
    apply existsb_sameBytes in E. contradiction. }
  assert (Hg1 : g1 = mkGlue
                       (writeRegistry (registries g) (wt_array w)
                          (before ++ [mkSession false v]))
                       (removeNth i (waiting g))
                       (acquisitions g
                          ++ [mkCall (ev_initDataType (wt_event w)) v
                                (wt_keySystems w) (wt_array w)
                                (wt_eventBus w)])).
  { unfold g1, accessSettles. rewrite Hnth, Hfs.
    rewrite (encryptedCallback_cases h (wt_event w) (wt_keySystems w)
               (wt_eventBus w) (wt_array w) _ k bs Hbs).
    fold before. rewrite Hex. reflexivity. }
  exists (mkCall (ev_initDataType (wt_event w)) v (wt_keySystems w)
            (wt_array w) (wt_eventBus w)),
    (mkKeySession mk (ev_initDataType (wt_event w)) v getLicenseP
       (wt_array w) (Some bus)).
  rewrite Hg1.
  cbn [acquisitions registries c_removeSession c_initData c_initDataType
         c_eventBus ks_initData ks_removeSession].
  split; [reflexivity|]. split; [reflexivity|].
  split; [now apply registryAt_write|].
  split.
  { unfold addSession. rewrite Hmk, Hbus. reflexivity. }
  split; [reflexivity|]. split; [reflexivity|].
  split.
  { unfold onKeyStatusesChange. cbn [ks_eventBus].
    pose proof (reportStatuses_bus bus keyStatuses false) as [Hr _].
    destruct (reportStatuses (Some bus) keyStatuses false) as [effs r].
    cbn [snd] in Hr. rewrite Hr, Hexp. reflexivity. }
  split.
  - unfold sessionCloses. cbn [registries].
    rewrite registryAt_write
      by (unfold writeRegistry; cbn; now rewrite length_setNth).
    rewrite registryAt_write by assumption.
    rewrite (removeSession_first before [] (mkSession false v) v).
    + apply app_nil_r.
    + now apply (fresh_bytes_fresh_object h before v bs).
    + reflexivity.
  - rewrite (hasSession_fingerprints h before v bs Hbs). now rewrite Hex.
Qed.

(** A signal of the playing source on a surface whose MediaKeys object
    is set: the entry is added to the registry of the source, and
    expiry of the key session made for it takes it out again. *)
Lemma session_expiry_allows_reacquisition_witness :
  let g := glueRun sampleHeap newGlue
             [EncryptedArrives "a.mpd" (sampleEvent 3)
                (mkEmeOptions (Some sampleKeySystems)) (Some 0);
              AccessSettles 0 (fun _ => true);
              EncryptedArrives "a.mpd" (sampleEvent 1)
                (mkEmeOptions (Some sampleKeySystems)) (Some 0)] in
  let s := mkSurface (mkVideo (MKObject 7) (Some [])
                        (Some "com.widevine.alpha"%string)) [] [] in
  let g1 := accessSettles sampleHeap 0 (fun _ => true) g in
  registryAt (registries g) 0 = [mkSession false (ArrayBuffer 3)]
  /\ exists c session,
       acquisitions g1 = acquisitions g ++ [c]
       /\ c_removeSession c = 0
       /\ registryAt (registries g1) 0
          = [mkSession false (ArrayBuffer 3)]
              ++ [mkSession false (c_initData c)]
       /\ keySessions
            (fst (addSession (c_initDataType c) (c_initData c) None
                    (c_removeSession c) (c_eventBus c) s))
          = keySessions s ++ [session]
       /\ ks_initData session = c_initData c
       /\ ks_removeSession session = 0
       /\ snd (onKeyStatusesChange session [(11, expired)]) = true
       /\ registryAt
            (registries
               (sessionCloses (ks_removeSession session)
                  (ks_initData session) g1))
            0
          = [mkSession false (ArrayBuffer 3)]
       /\ hasSession sampleHeap [mkSession false (ArrayBuffer 3)]
            (c_initData c)
          = Ok false.
Proof.
  intros g s g1. split; [reflexivity|].
  assert (Hfresh : ~ In [x01; x02]
                     (fingerprints sampleHeap
                        (registryAt (registries g) 0))).
  { cbn. intros [E | []]. discriminate. }
  exact (session_expiry_allows_reacquisition sampleHeap g 0
           (mkWaiting (sampleEvent 1) sampleKeySystems 0 (Some 0))
           (fun _ => true) "com.widevine.alpha" 0 [x01; x02] s 7 None
           [(11, expired)]
           eq_refl ltac:(cbn; lia) eq_refl eq_refl eq_refl Hfresh eq_refl
           eq_refl).
Defined.

(** What the draining loop of [setMediaKeys] binds: every queued pair
    gets the [removeSession], the event bus and the licence function of
    the call that started the creation, whatever call queued it. *)
Lemma setMediaKeys_drained_bindings (certificate : option (list byte))
  (mk : nat) (g : option Promisified) (r : nat) (b : option nat)
  (s : Surface) (q : list PendingData) :
  pendingSessionData (video s) = Some q ->
  keySessions (fst (setMediaKeys certificate mk g r b s))
  = keySessions s ++ map (sessionFor mk g r b) q.
Proof.
  intros Hq. unfold setMediaKeys. cbn [video pendingSessionData].
  rewrite Hq, drainPending_spec. reflexivity.
Qed.

(** C6, at the failing input.  A signal of [b.mpd] is registered in the
    registry of [b.mpd] and queued while the MediaKeys object is being
    created for a signal of [a.mpd]; [setMediaKeys] makes its key session
    with the [removeSession] of the first call, which is bound to the
    registry of [a.mpd].  When that session reports an expired key it is
    closed, and its [removeSession] runs on the registry of [a.mpd],
    where the entry is not: the registry of the playing source still
    holds the entry, and the same signal is ignored from then on. *)
Theorem expired_drained_session_stays_registered :
  let p := pluginRun sampleHeap newPlugin sourceChangeRun in
  let p' :=
    pluginStep sampleHeap p (StatusesChange 0 [(10, usable); (11, expired)]) in
  nth_error (keySessions (surface (pg_machine p))) 0
  = Some (mkKeySession 7 "cenc" (ArrayBuffer 3)
            (Some (mkPromisified
                     (Some (DefaultGetLicense
                              "https://license.example/widevine"))
                     (Some 0)))
            0 (Some 0))
  /\ rg_sessions (registries (pg_glue p)) = Some 1
  /\ currentRegistry (registries (pg_glue p))
     = [mkSession false (ArrayBuffer 3)]
  /\ skipn (length (effects (surface (pg_machine p))))
       (effects (surface (pg_machine p')))
     = [Trigger (keystatuschange 10 usable);
        Trigger (keystatuschange 11 expired); SessionClose]
  /\ registryAt (registries (pg_glue p')) 0
     = [mkSession false (ArrayBuffer 1)]
  /\ currentRegistry (registries (pg_glue p'))
     = [mkSession false (ArrayBuffer 3)]
  /\ encryptedCallback sampleHeap (sampleEvent 3) sampleKeySystems (Some 0) 1
       (currentRegistry (registries (pg_glue p'))) "com.widevine.alpha"
     = ([mkSession false (ArrayBuffer 3)], Ignored)
  /\ (forall certificate mk g r b s q,
        pendingSessionData (video s) = Some q ->
        keySessions (fst (setMediaKeys certificate mk g r b s))
        = keySessions s ++ map (sessionFor mk g r b) q).
Proof.
  repeat split. intros certificate mk g r b s q.
  apply setMediaKeys_drained_bindings.
Qed.

(** ** The machine: a licence function for every key session *)

Lemma standardizeKeySystemOptions_licence (k : string)
  (cfg : KeySystemConfig) (o : KeySystemOptions) :
  standardizeKeySystemOptions k cfg = Ok o ->
  exists f, getLicense o = Some f.
Proof.
  unfold standardizeKeySystemOptions.
  set (g := match cfg with CfgString s => urlOnly s | CfgObject o' => o' end).
  destruct (getLicense g) as [f|] eqn:Eg; cbn [isSome negb].
  - rewrite !andb_false_r. intros E. injection E as <-. now exists f.
  - rewrite !andb_true_r. destruct (truthyString (url g)); cbn [negb];
      [|discriminate].
    intros E. injection E as <-. cbn [getLicense]. eexists. reflexivity.
Qed.

Lemma addSession_licence (t : string) (v : InitData) (f : LicenseFn)
  (r : nat) (b : option nat) (s : Surface) :
  (forall ks, In ks (keySessions s) ->
              exists f', ks_getLicense ks
                         = Some (mkPromisified (Some f') (ks_eventBus ks))) ->
  forall ks,
    In ks (keySessions
             (fst (addSession t v (Some (mkPromisified (Some f) b)) r b s))) ->
    exists f', ks_getLicense ks
               = Some (mkPromisified (Some f') (ks_eventBus ks)).
Proof.
  intros H ks. unfold addSession.
  destruct (mediaKeysObject (video s)) as [| |mk];
    try (destruct (pendingSessionData (video s)); cbn [fst keySessions];
         apply H).
  cbn [fst]. unfold makeNewRequest. cbn [keySessions].
  intros Hin. apply in_app_or in Hin.
  destruct Hin as [Hin | [<- | []]]; [now apply H|].
  cbn. now exists f.
Qed.

Lemma addSession_keySystem (t : string) (v : InitData)
  (g : option Promisified) (r : nat) (b : option nat) (s : Surface) :
  keySystem (video (fst (addSession t v g r b s))) = keySystem (video s).
Proof.
  unfold addSession, makeNewRequest.
  destruct (mediaKeysObject (video s));
    try destruct (pendingSessionData (video s)); reflexivity.
Qed.

Lemma runTail_keySystem (c : Call) (m : Machine) :
  keySystem (video (surface (runTail c m))) = keySystem (video (surface m)).
Proof.
  unfold runTail.
  destruct (keySystem (video (surface m))) as [k|] eqn:Ek.
  - destruct (lookupKeySystem (c_keySystems c) k) as [cfg|]; [|exact Ek].
    destruct (standardizeKeySystemOptions k cfg) as [o|e]; [|exact Ek].
    cbn [surface]. now rewrite addSession_keySystem.
  - cbn [surface]. now rewrite addSession_keySystem.
Qed.

Lemma step_licenceInvariant (m m' : Machine) (l : Label) :
  creationInvariant m ->
  surfaceInvariant (surface m) ->
  licenceInvariant m ->
  step m l = Some m' ->
  licenceInvariant m'.
Proof.
  intros Hc Hs (Hks & Hch) Hstep. destruct l; cbn [step] in Hstep.
  - injection Hstep as <-. unfold standard5July2016.
    destruct (mediaKeysObject (video (surface m))) eqn:Hmk.
    + assert (Hunset : unsetKeys (video (surface m)) = true)
        by (unfold unsetKeys; now rewrite Hmk).
      destruct (surfaceInvariant_unset _ Hs Hunset) as (Hnil & _).
      assert (Ech : chain m = NotStarted).
      { unfold creationInvariant in Hc.
        destruct (chain m); [reflexivity|..]; exfalso.
        - destruct Hc as (_ & Hc & _). congruence.
        - destruct Hc as (_ & Hc). congruence.
        - destruct Hc as (_ & Hc). congruence.
        - destruct Hc as (_ & Hc). congruence.
        - destruct Hc as (_ & _ & _ & Hc). congruence. }
      destruct (c_keySystems c) as [|[k cfg] rest];
        unfold licenceInvariant, logError, perform; cbv zeta;
        cbn [surface chain video keySessions mediaKeysObject];
        rewrite ?Ech, Hnil; (split; [intros ks [] | intros mk E; discriminate]).
    + unfold licenceInvariant. cbv zeta. cbn [surface chain].
      rewrite Hmk. split; assumption.
    + unfold licenceInvariant. cbv zeta. cbn [surface chain].
      rewrite Hmk. split; assumption.
  - destruct (step_granted m m' k Hstep) as (c & Ech & _ & ->).
    unfold creationInvariant in Hc. rewrite Ech in Hc.
    destruct Hc as (_ & Hmk & _).
    unfold onKeySystemAccess, failChain, logError, perform.
    destruct (lookupKeySystem (c_keySystems c) k) as [cfg|].
    2:{ unfold licenceInvariant. cbn. split; [exact Hks|].
        intros mk E. congruence. }
    destruct (standardizeKeySystemOptions k cfg) as [o|e] eqn:Eo.
    2:{ unfold licenceInvariant. cbn. split; [exact Hks|].
        intros mk E. congruence. }
    destruct (standardizeKeySystemOptions_licence _ _ _ Eo) as [f Hf].
    destruct (getCertificate o); unfold licenceInvariant; cbn;
      (split; [exact Hks|]); rewrite Hf; split; [discriminate | reflexivity
                                                 | discriminate | reflexivity].
  - destruct (step_denied m m' Hstep) as (c & Ech & [(k & _ & ->)|[_ ->]]);
      unfold creationInvariant in Hc; rewrite Ech in Hc;
      destruct Hc as (_ & Hmk & _);
      unfold licenceInvariant, failChain, logError, perform; cbn;
      rewrite ?Ech; (split; [exact Hks|]); intros mk E; congruence.
  - destruct (chain m) eqn:Ech; try discriminate. injection Hstep as <-.
    unfold licenceInvariant, perform. cbn. split; [exact Hks | exact Hch].
  - destruct (chain m) eqn:Ech; try discriminate. injection Hstep as <-.
    unfold licenceInvariant, failChain, logError. cbn.
    split; [exact Hks|]. intros mk E. now destruct Hch.
  - destruct (chain m) eqn:Ech; try discriminate. injection Hstep as <-.
    destruct Hch as [Hk Hl].
    unfold creationInvariant in Hc. rewrite Ech in Hc. destruct Hc as [_ Hmk].
    assert (Hunset : unsetKeys (video (surface m)) = true)
      by (unfold unsetKeys; now rewrite Hmk).
    destruct (surfaceInvariant_unset _ Hs Hunset) as (Hnil & _).
    destruct (getLicense keySystemOptions) as [f|] eqn:Ef; [|discriminate].
    unfold onMediaKeys, setMediaKeys. cbn [video pendingSessionData].
    destruct (pendingSessionData (video (surface m))) as [q|].
    + rewrite drainPending_spec. unfold licenceInvariant.
      cbn [surface chain video keySessions keySystem]. split; [|exact Hk].
      rewrite Hnil. cbn [app]. intros ks Hin. apply in_map_iff in Hin.
      destruct Hin as (d & <- & _). cbn. rewrite Ef. now exists f.
    + unfold licenceInvariant, failChain, logError.
      cbn [surface chain video keySessions keySystem]. rewrite Hnil.
      split; [intros ks [] | intros mk _; exact Hk].
  - destruct (chain m) eqn:Ech; try discriminate. injection Hstep as <-.
    unfold licenceInvariant, failChain, logError. cbn.
    split; [exact Hks|]. intros mk E. now destruct Hch.
  - destruct (chain m) eqn:Ech; try discriminate.
    destruct ok; injection Hstep as <-;
      unfold licenceInvariant, failChain, logError; cbn;
      (split; [exact Hks | intros mk _; exact Hch]).
  - destruct (nth_error (tails m) i) as [t|]; [|discriminate].
    destruct (ready t m); [|discriminate]. injection Hstep as <-.
    assert (Hknown : forall mk,
               mediaKeysObject (video (surface m)) = MKObject mk ->
               keySystem (video (surface m)) <> None).
    { intros mk E.
      destruct (chain m);
        first [exact (Hch mk E) | exact (proj1 Hch) | exact Hch]. }
    set (m0 := mkMachine (surface m) (chain m) (removeNth i (tails m))).
    destruct (runTail_quiet (t_call t) m0) as (E1 & _ & _ & _ & E5 & _).
    assert (Hsess : forall ks,
               In ks (keySessions (surface (runTail (t_call t) m0))) ->
               exists f, ks_getLicense ks
                         = Some (mkPromisified (Some f) (ks_eventBus ks))).
    { unfold runTail. cbn [surface m0].
      destruct (keySystem (video (surface m))) as [k|] eqn:Ek.
      - destruct (lookupKeySystem (c_keySystems (t_call t)) k) as [cfg|];
          [|exact Hks].
        destruct (standardizeKeySystemOptions k cfg) as [o|e] eqn:Eo;
          [|exact Hks].
        destruct (standardizeKeySystemOptions_licence _ _ _ Eo) as [f Hf].
        rewrite Hf. cbn [surface]. now apply addSession_licence.
      - cbn [surface]. unfold addSession.
        destruct (mediaKeysObject (video (surface m))) as [| |mk] eqn:Hmk;
          try (destruct (pendingSessionData (video (surface m)));
               cbn [fst keySessions]; exact Hks).
        exfalso. now apply (Hknown mk). }
    pose proof (runTail_keySystem (t_call t) m0) as Hsys.
    cbn [surface m0] in Hsys.
    unfold licenceInvariant. split; [exact Hsess|].
    rewrite E1, E5, Hsys. cbn [chain m0 surface]. exact Hch.
  - destruct (nth_error (keySessions (surface m)) i) as [ks|];
      [|discriminate].
    injection Hstep as <-. unfold licenceInvariant. cbn.
    split; [exact Hks | exact Hch].
Qed.

(** Every key session has a licence function.  [addSession] passes
    [getLicense: null] when the key system is not yet known, which would
    make the [message] listener of a session fail; in every run of calls
    and platform answers that never reaches [makeNewRequest]: a key
    session is only made once the key system is known, either from the
    queue (with the licence function of the accepted configuration) or
    directly (with the one of the call's own configuration), so a
    [message] event always calls exactly one licence function, which
    notifies the bus the session reports to. *)
Theorem keySessions_have_licence_function (ls : list Label) (m : Machine) :
  run newMachine ls = Some m ->
  forall ks, In ks (keySessions (surface m)) ->
    exists f,
      ks_getLicense ks = Some (mkPromisified (Some f) (ks_eventBus ks))
      /\ onMessage ks = [CallGetLicense f].
Proof.
  intros Hrun.
  assert (Hgen : forall ls m0 m',
             creationInvariant m0 -> surfaceInvariant (surface m0) ->
             licenceInvariant m0 -> run m0 ls = Some m' ->
             licenceInvariant m').
  { clear. induction ls as [|l ls IH]; intros m0 m' Hc Hs Hl Hrun;
      cbn [run] in Hrun.
    - now injection Hrun as <-.
    - destruct (step m0 l) as [m1|] eqn:Hstep; [|discriminate].
      apply (IH m1 m'); auto.
      + eapply step_invariant; eassumption.
      + eapply step_surfaceInvariant; eassumption.
      + eapply step_licenceInvariant; eassumption. }
  assert (Hnew : licenceInvariant newMachine).
  { unfold licenceInvariant. cbn. split; [intros ks [] | discriminate]. }
  destruct (Hgen ls newMachine m newMachine_invariant
              newMachine_surfaceInvariant Hnew Hrun) as [Hks _].
  intros ks Hin. destruct (Hks ks Hin) as [f Hf]. exists f.
  split; [exact Hf|]. unfold onMessage. now rewrite Hf.
Qed.

Lemma keySessions_have_licence_function_witness :
  exists m,
    run newMachine sampleRun = Some m
    /\ forall ks, In ks (keySessions (surface m)) ->
         onMessage ks
         = [CallGetLicense
              (DefaultGetLicense "https://license.example/widevine")].
Proof.
  eexists. split; [reflexivity|].
  intros ks Hin.
  destruct (keySessions_have_licence_function sampleRun _ eq_refl ks Hin)
    as (f & Hf & Hm).
  rewrite Hm. cbn in Hin.
  destruct Hin as [<- | [<- | [<- | []]]]; cbn in Hf; now injection Hf as <-.
Defined.

(** ** The machine: a creation that succeeds *)

Lemma In_removeNth {A : Type} (i : nat) (l : list A) (x : A) :
  In x (removeNth i l) -> In x l.
Proof.
  revert i. induction l as [|y l IH]; intros i; [destruct i; exact id|].
  destruct i as [|i]; cbn [removeNth].
  - now right.
  - intros [->|H]; [now left | right; now apply (IH i)].
Qed.

Lemma heldSignals_eq (m m' : Machine) :
  keySessions (surface m') = keySessions (surface m) ->
  pendingSessionData (video (surface m'))
  = pendingSessionData (video (surface m)) ->
  tails m' = tails m ->
  heldSignals m' = heldSignals m.
Proof.
  intros H1 H2 H3. unfold heldSignals, queueOf. now rewrite H1, H2, H3.
Qed.

(** On a surface whose queue is an array, [addSession] holds the pair it
    is given: as a key session or in the queue. *)
Lemma addSession_serves (x : PendingData) (t : string) (v : InitData)
  (g : option Promisified) (r : nat) (b : option nat) (s : Surface) :
  (exists q, pendingSessionData (video s) = Some q) ->
  let s' := fst (addSession t v g r b s) in
  occurrences x (map sessionSignal (keySessions s') ++ queueOf (video s'))
  = occurrences x (map sessionSignal (keySessions s) ++ queueOf (video s))
    + occurrences x [mkPending t v]
  /\ mediaKeysObject (video s') = mediaKeysObject (video s)
  /\ keySystem (video s') = keySystem (video s)
  /\ (exists q, pendingSessionData (video s') = Some q)
  /\ (forall mk, mediaKeysObject (video s) = MKObject mk ->
                 pendingSessionData (video s')
                 = pendingSessionData (video s)).
Proof.
  intros [q Hq]. unfold addSession, queueOf. rewrite Hq.
  destruct (mediaKeysObject (video s)) as [| |mk] eqn:E;
    cbn [fst makeNewRequest video keySessions pendingSessionData
           mediaKeysObject keySystem];
    rewrite ?Hq, ?E, ?map_app, ?occurrences_app.
  1, 2: repeat split; eauto; try discriminate; lia.
  change (map sessionSignal [mkKeySession mk t v g r b])
    with [mkPending t v].
  repeat split; eauto. lia.
Qed.

Section Serving.

Variable allowed : Call -> Prop.
Variable grantable : string -> Prop.

Hypothesis allowed_accepted :
  forall c k, allowed c -> grantable k -> acceptedFor c k = true.

Lemma runTail_serves (x : PendingData) (c : Call) (m : Machine) :
  servingInvariant allowed grantable m ->
  allowed c ->
  reachesAddSession c (video (surface m)) = true
  /\ servingInvariant allowed grantable (runTail c m)
  /\ occurrences x (heldSignals (runTail c m))
     = occurrences x (heldSignals m) + occurrences x [signalOf c].
Proof.
  intros (Hmk & Hq & Hobj & Htails & Hkey) Hc.
  assert (Hreach : reachesAddSession c (video (surface m)) = true).
  { unfold reachesAddSession.
    destruct (keySystem (video (surface m))) as [k|] eqn:Ek; [|reflexivity].
    apply allowed_accepted; [assumption | now apply Hkey]. }
  split; [exact Hreach|].
  rewrite (proj1 (runTail_addSession c m) Hreach).
  pose proof (addSession_serves x (c_initDataType c) (c_initData c)
                (getLicenseFor c (video (surface m))) (c_removeSession c)
                (c_eventBus c) (surface m) Hq) as H.
  cbv zeta in H. destruct H as (Hocc & Hsame & Hks & Hq' & Hobj').
  split.
  - unfold servingInvariant. cbn [surface tails].
    rewrite Hsame, Hks.
    split; [assumption|]. split; [assumption|].
    split; [|split; assumption].
    intros mk E. rewrite (Hobj' mk E). exact (Hobj mk E).
  - unfold heldSignals. cbn [surface tails].
    rewrite !app_assoc, !(occurrences_app x (_ ++ _)), Hocc.
    unfold signalOf. lia.
Qed.

Lemma step_serves (x : PendingData) (m m' : Machine) (l : Label) :
  servingInvariant allowed grantable m ->
  labelAllowed allowed grantable l ->
  step m l = Some m' ->
  servingInvariant allowed grantable m'
  /\ occurrences x (heldSignals m')
     = occurrences x (heldSignals m) + occurrences x (invokedSignal l).
Proof.
  intros Hinv Hl Hstep.
  pose proof Hinv as (Hmk & Hq & Hobj & Htails & Hkey).
  destruct l; cbn [labelAllowed invokedSignal] in *;
    change (occurrences x []) with 0; rewrite ?Nat.add_0_r.
  - (* a call on a marked surface *)
    cbn [step] in Hstep. injection Hstep as <-.
    assert (E : standard5July2016 c m
                = mkMachine (surface m) (chain m)
                    (tails m ++ [mkTail c false])).
    { unfold standard5July2016.
      destruct (mediaKeysObject (video (surface m)));
        [contradiction | |]; reflexivity. }
    rewrite E. split.
    + unfold servingInvariant. cbn [surface tails].
      repeat split; try assumption.
      intros t Hin. apply in_app_or in Hin.
      destruct Hin as [Hin | [<- | []]]; [now apply Htails | exact Hl].
    + unfold heldSignals. cbn [surface tails].
      rewrite map_app, !occurrences_app. cbn [map t_call]. lia.
  - (* the pending request is granted *)
    destruct (step_granted m m' k Hstep) as (c & _ & _ & ->).
    destruct (onKeySystemAccess_video c k m) as (V1 & V2 & V3 & V4 & V5).
    split.
    + unfold servingInvariant. rewrite V1, V2, V3, V5.
      repeat split; try assumption. now intros k' [= <-].
    + f_equal. now apply heldSignals_eq.
  - (* the pending request is rejected *)
    destruct (step_denied m m' Hstep) as (c & _ & [(k & _ & ->)|[_ ->]]);
      (split; [exact Hinv | reflexivity]).
  - cbn [step] in Hstep. destruct (chain m); try discriminate.
    injection Hstep as <-. split; [exact Hinv | reflexivity].
  - cbn [step] in Hstep. destruct (chain m); try discriminate.
    injection Hstep as <-. split; [exact Hinv | reflexivity].
  - (* MediaKeys created: the queue is drained *)
    cbn [step] in Hstep. destruct (chain m); try discriminate.
    injection Hstep as <-. destruct Hq as [q Eq].
    unfold onMediaKeys, setMediaKeys. cbn [video pendingSessionData].
    rewrite Eq, drainPending_spec. split.
    + unfold servingInvariant.
      cbn [surface tails video mediaKeysObject pendingSessionData keySystem].
      repeat split; eauto. discriminate.
    + unfold heldSignals, queueOf.
      cbn [surface tails video keySessions pendingSessionData].
      rewrite Eq, map_app, sessionSignal_sessionFor, !occurrences_app.
      change (occurrences x []) with 0. lia.
  - cbn [step] in Hstep. destruct (chain m); try discriminate.
    injection Hstep as <-. split; [exact Hinv | reflexivity].
  - cbn [step] in Hstep. destruct (chain m); try discriminate.
    destruct ok; injection Hstep as <-; (split; [exact Hinv | reflexivity]).
  - (* a continuation runs *)
    cbn [step] in Hstep.
    destruct (nth_error (tails m) i) as [t|] eqn:Ei; [|discriminate].
    destruct (ready t m); [|discriminate]. injection Hstep as <-.
    assert (Hinv1 : servingInvariant allowed grantable
                      (mkMachine (surface m) (chain m)
                         (removeNth i (tails m)))).
    { unfold servingInvariant. cbn [surface tails].
      repeat split; try assumption.
      intros t' Hin. apply Htails. now apply (In_removeNth i). }
    destruct (runTail_serves x (t_call t) _ Hinv1
                (Htails t (nth_error_In _ _ Ei))) as (_ & Hinv' & Hocc).
    split; [exact Hinv'|]. rewrite Hocc.
    pose proof (occurrences_removeNth x i (tails m) t Ei) as Hrem.
    unfold heldSignals. cbn [surface tails].
    rewrite !occurrences_app. lia.
  - (* a message event *)
    cbn [step] in Hstep.
    destruct (nth_error (keySessions (surface m)) i); [|discriminate].
    injection Hstep as <-. split; [exact Hinv | reflexivity].
Qed.

Lemma run_serves (x : PendingData) (ls : list Label) (m m' : Machine) :
  servingInvariant allowed grantable m ->
  Forall (labelAllowed allowed grantable) ls ->
  run m ls = Some m' ->
  servingInvariant allowed grantable m'
  /\ occurrences x (heldSignals m')
     = occurrences x (heldSignals m) + occurrences x (invokedSignals ls).
Proof.
  revert m. induction ls as [|l ls IH]; intros m Hinv Hall Hrun;
    cbn [run] in Hrun.
  - injection Hrun as <-. split; [assumption | cbn; lia].
  - destruct (step m l) as [m1|] eqn:Hstep; [|discriminate].
    inversion Hall as [|? ? Hl Hrest]; subst.
    destruct (step_serves x m m1 l Hinv Hl Hstep) as [Hinv1 H1].
    destruct (IH m1 Hinv1 Hrest Hrun) as [Hinv' H2].
    split; [exact Hinv'|].
    unfold invokedSignals in *. cbn [flat_map].
    rewrite occurrences_app. lia.
Qed.

End Serving.

(** In a run in which no call is turned away, a marked surface keeps
    what the continuations need. *)
Lemma servable_run (ls : list Label) (m : Machine) :
  run newMachine ls = Some m ->
  servable ls = true ->
  (ls = [] /\ m = newMachine)
  \/ (servingInvariant (fun c => In (Invoke c) ls)
        (fun k => In (AccessGranted k) ls) m
      /\ forall x, occurrences x (heldSignals m)
                   = occurrences x (invokedSignals ls)).
Proof.
  intros Hrun Hserv.
  set (allowed := fun c => In (Invoke c) ls).
  set (grantable := fun k => In (AccessGranted k) ls).
  assert (Hacc : forall c k, allowed c -> grantable k ->
                             acceptedFor c k = true).
  { intros c k Hc Hk. unfold servable in Hserv.
    rewrite forallb_forall in Hserv. specialize (Hserv _ Hc).
    cbn beta iota in Hserv.
    destruct (c_keySystems c); [discriminate|].
    unfold acceptedThroughout in Hserv. rewrite forallb_forall in Hserv.
    exact (Hserv _ Hk). }
  assert (Hkeys : forall c, allowed c -> c_keySystems c <> []).
  { intros c Hc. unfold servable in Hserv.
    rewrite forallb_forall in Hserv. specialize (Hserv _ Hc).
    cbn beta iota in Hserv.
    destruct (c_keySystems c); [discriminate | discriminate]. }
  assert (Hall : Forall (labelAllowed allowed grantable) ls).
  { apply Forall_forall. intros l' Hin. destruct l'; cbn; auto. }
  clearbody allowed grantable. clear Hserv.
  destruct ls as [|l rest]; cbn [run] in Hrun.
  { left. injection Hrun as <-. now split. }
  right. apply Forall_cons_iff in Hall. destruct Hall as [Hl Hrest].
  destruct l; cbn [step newMachine chain tails surface keySessions] in Hrun;
    try discriminate; try (destruct i; discriminate).
  cbn [labelAllowed] in Hl.
  assert (Hfirst :
    servingInvariant allowed grantable
      (standard5July2016 c (mkMachine (mkSurface newVideo [] []) NotStarted []))
    /\ heldSignals
         (standard5July2016 c
            (mkMachine (mkSurface newVideo [] []) NotStarted []))
       = [signalOf c]).
  { unfold standard5July2016.
    cbn [surface video newVideo mediaKeysObject keySystem].
    destruct (c_keySystems c) as [|[k cfg] more] eqn:Ek.
    { now contradiction (Hkeys c Hl). }
    split; [|reflexivity].
    unfold servingInvariant.
    cbn [surface perform video mediaKeysObject pendingSessionData keySystem
           tails app].
    split; [discriminate|]. split; [eauto|]. split; [discriminate|].
    split; [|discriminate].
    intros t [<- | []]. exact Hl. }
  destruct Hfirst as [Hinv1 Hheld].
  split.
  - exact (proj1 (run_serves allowed grantable Hacc
                    (mkPending EmptyString Undefined) rest _ m Hinv1 Hrest
                    Hrun)).
  - intros x.
    rewrite (proj2 (run_serves allowed grantable Hacc x rest _ m Hinv1 Hrest
                      Hrun)).
    fold newMachine. unfold newMachine in Hheld |- *. rewrite Hheld.
    unfold invokedSignals. cbn [flat_map invokedSignal].
    rewrite occurrences_app. reflexivity.
Qed.

(** No signal is lost.  In a run from a new surface in which every call
    lists a key system and has, for every key system the platform grants
    in the run, a configuration that [standardizeKeySystemOptions]
    accepts: every signal is held as many times as it was passed, as a
    key session, as a pair in the queue or as a continuation that has
    not run yet; so once [video.mediaKeysObject] is set and no
    continuation is left, the queue is empty and every signal has one
    key session for each call made with it.  A continuation that is left
    can run as soon as it is ready (at once for a later call, once the
    chain is settled for the first call), and then reaches
    [addSession]. *)
Theorem creation_serves_every_signal (ls : list Label) (m : Machine) :
  run newMachine ls = Some m ->
  servable ls = true ->
  (forall x, occurrences x (heldSignals m)
             = occurrences x (invokedSignals ls))
  /\ (forall mk,
        mediaKeysObject (video (surface m)) = MKObject mk ->
        tails m = [] ->
        pendingSessionData (video (surface m)) = Some []
        /\ forall x,
             occurrences x (map sessionSignal (keySessions (surface m)))
             = occurrences x (invokedSignals ls))
  /\ (forall i t,
        nth_error (tails m) i = Some t ->
        t_afterChain t = false \/ chain m = Settled ->
        step m (RunTail i)
        = Some (runTail (t_call t)
                  (mkMachine (surface m) (chain m) (removeNth i (tails m))))
        /\ reachesAddSession (t_call t) (video (surface m)) = true).
Proof.
  intros Hrun Hserv.
  destruct (servable_run ls m Hrun Hserv) as [[-> ->] | [Hinv Hocc]].
  - split; [reflexivity|]. split; [discriminate|].
    intros i t H. destruct i; discriminate.
  - split; [exact Hocc|].
    destruct Hinv as (Hmk & Hq & Hobj & Htails & Hkey). split.
    + intros mk E Ht. split; [now apply (Hobj mk)|].
      intros x. rewrite <- Hocc. unfold heldSignals, queueOf.
      rewrite (Hobj mk E), Ht. cbn [map]. now rewrite !app_nil_r.
    + intros i t Ei Hready. split.
      * cbn [step]. rewrite Ei. unfold ready.
        destruct Hready as [-> | ->]; [reflexivity|].
        cbn [chainSettled]. now rewrite orb_true_r.
      * unfold reachesAddSession.
        destruct (keySystem (video (surface m))) as [k|] eqn:Ek;
          [|reflexivity].
        assert (Hc : In (Invoke (t_call t)) ls)
          by (apply Htails; now apply (nth_error_In _ i)).
        assert (Hk : In (AccessGranted k) ls) by now apply Hkey.
        unfold servable in Hserv. rewrite forallb_forall in Hserv.
        specialize (Hserv _ Hc). cbn beta iota in Hserv.
        destruct (c_keySystems (t_call t)) eqn:Eks; [discriminate|].
        unfold acceptedThroughout in Hserv. rewrite forallb_forall in Hserv.
        exact (Hserv _ Hk).
Qed.

(** A negotiation over two key systems, a signal queued meanwhile: each
    of the two signals has its key session when everything has run. *)
Lemma creation_serves_every_signal_witness :
  exists m,
    run newMachine negotiatedRun = Some m
    /\ servable negotiatedRun = true
    /\ tails m = []
    /\ pendingSessionData (video (surface m)) = Some []
    /\ map sessionSignal (keySessions (surface m))
       = [mkPending "cenc" (ArrayBuffer 3); mkPending "cenc" (ArrayBuffer 1)]
    /\ forall x,
         occurrences x (map sessionSignal (keySessions (surface m)))
         = occurrences x (invokedSignals negotiatedRun).
Proof.
  eexists. split; [reflexivity|]. split; [reflexivity|].
  split; [reflexivity|].
  destruct (creation_serves_every_signal negotiatedRun _ eq_refl eq_refl)
    as (_ & H & _).
  destruct (H 7 eq_refl eq_refl) as [Hq Hocc].
  split; [exact Hq|]. split; [reflexivity | exact Hocc].
Defined.


(** ** A configured [pssh] stands for every signal *)

(** With a [pssh] configured for the key system the platform grants,
    the initialization data of the events themselves is never used:
    whatever events arrive under that configuration, the first callback
    registers and acquires the [pssh], every later one is ignored, and
    the registry holds that one entry. *)
Theorem pssh_override_single_session (h : Heap) (ks : KeySystems)
  (k : string) (o : KeySystemOptions) (bs : list byte)
  (arrivals : list (EncryptedEvent * option nat * nat)) :
  lookupKeySystem ks k = Some (CfgObject o) ->
  bufferBytes h (pssh o) = Some bs ->
  applyOps h [] (callbacksFor ks k arrivals)
  = match arrivals with
    | [] => []
    | _ :: _ => [mkSession false (pssh o)]
    end
  /\ (forall event bus reg,
        encryptedCallback h event ks bus reg [] k
        = ([mkSession false (pssh o)],
           Acquire (mkCall (ev_initDataType event) (pssh o) ks reg bus)))
  /\ (forall event bus reg,
        encryptedCallback h event ks bus reg [mkSession false (pssh o)] k
        = ([mkSession false (pssh o)], Ignored)).
Proof.
  intros Hcfg Hbs.
  assert (Hv : forall v, resolveInitData ks k v = pssh o).
  { intros v. unfold resolveInitData. rewrite Hcfg.
    now rewrite (bufferBytes_Some_truthy h _ _ Hbs). }
  assert (Hfirst : forall event bus reg,
             encryptedCallback h event ks bus reg [] k
             = ([mkSession false (pssh o)],
                Acquire (mkCall (ev_initDataType event) (pssh o) ks reg bus))).
  { intros event bus reg.
    pose proof (encryptedCallback_cases h event ks bus reg [] k bs) as H.
    cbv zeta in H. rewrite Hv in H. now rewrite (H Hbs). }
  assert (Hlater : forall event bus reg,
             encryptedCallback h event ks bus reg [mkSession false (pssh o)] k
             = ([mkSession false (pssh o)], Ignored)).
  { intros event bus reg.
    pose proof (encryptedCallback_cases h event ks bus reg
                  [mkSession false (pssh o)] k bs) as H.
    cbv zeta in H. rewrite Hv in H. rewrite (H Hbs).
    cbn [fingerprints initData]. rewrite Hbs. cbn [existsb].
    now rewrite sameBytes_refl. }
  split; [|split; assumption].
  destruct arrivals as [|a rest]; [reflexivity|].
  unfold applyOps, callbacksFor. cbn [map fold_left applyOp].
  rewrite Hfirst. cbn [fst].
  induction rest as [|b rest IH]; [reflexivity|].
  cbn [map fold_left applyOp]. rewrite Hlater. exact IH.
Qed.

Lemma pssh_override_single_session_witness :
  applyOps sampleHeap []
    (callbacksFor psshKeySystems "com.widevine.alpha"
       [(sampleEvent 3, Some 0, 0); (mkEvent "cenc" Null, Some 0, 0)])
  = [mkSession false (ArrayBuffer 1)].
Proof.
  apply (pssh_override_single_session sampleHeap psshKeySystems
           "com.widevine.alpha"
           (mkOptions (Some "https://license.example/widevine"%string) None
              None None (ArrayBuffer 1) None None)
           [x01; x02]
           [(sampleEvent 3, Some 0, 0); (mkEvent "cenc" Null, Some 0, 0)]
           eq_refl eq_refl).
Defined.

(** ** Key statuses: every key is reported *)

Lemma reportStatuses_reports (bus : nat)
  (keyStatuses : list (nat * MediaKeyStatus)) (e0 : bool) :
  let effs := fst (reportStatuses (Some bus) keyStatuses e0) in
  filter isStatusReport effs = map statusReport keyStatuses
  /\ count isLogWarn effs = length (filter isInternalError keyStatuses)
  /\ forall e, In e effs -> isStatusReport e || isLogWarn e = true.
Proof.
  revert e0. induction keyStatuses as [|[keyId status] rest IH]; intros e0.
  - cbn. repeat split. intros e [].
  - cbn [reportStatuses].
    set (e1 := match status with expired => true | _ => e0 end).
    specialize (IH e1).
    destruct (reportStatuses (Some bus) rest e1) as [later r].
    cbv zeta in IH. cbn [fst] in IH. destruct IH as (Hf & Hw & Hall).
    cbv zeta. cbn [fst].
    destruct status; cbn [app filter isStatusReport map statusReport fst snd
                            isInternalError];
      unfold count in *; cbn [filter isLogWarn length];
      rewrite ?Hf, ?Hw; (repeat split; try reflexivity);
      intros e Hin; repeat (destruct Hin as [<- | Hin]; [reflexivity|]);
      now apply Hall.
Qed.

(** The [keystatuseschange] listener forwards every key status to the
    event bus exactly once, in the order of [keyStatuses], warns once
    for each key in [internal-error], and does nothing else except for
    the one [close()] it calls when a key is expired. *)
Theorem keystatuseschange_reports_every_key (ks : KeySession) (bus : nat)
  (keyStatuses : list (nat * MediaKeyStatus)) :
  ks_eventBus ks = Some bus ->
  let effs := fst (onKeyStatusesChange ks keyStatuses) in
  filter isStatusReport effs = map statusReport keyStatuses
  /\ count isLogWarn effs = length (filter isInternalError keyStatuses)
  /\ count isSessionClose effs
     = (if existsb isExpired keyStatuses then 1 else 0)
  /\ (forall e, In e effs ->
                isStatusReport e || isLogWarn e || isSessionClose e = true).
Proof.
  intros Hbus effs. unfold effs, onKeyStatusesChange. rewrite Hbus.
  pose proof (reportStatuses_reports bus keyStatuses false) as H.
  pose proof (reportStatuses_bus bus keyStatuses false) as [Hr Hc].
  destruct (reportStatuses (Some bus) keyStatuses false) as [reported r].
  cbv zeta in H. cbn [fst snd] in *. destruct H as (Hf & Hw & Hall).
  rewrite Hr. cbn [orb].
  destruct (existsb isExpired keyStatuses); cbn [fst].
  - rewrite filter_app, !count_app, Hf, Hw, Hc. cbn. rewrite app_nil_r.
    repeat split; try lia.
    intros e Hin. apply in_app_or in Hin. destruct Hin as [Hin | [<- | []]].
    + rewrite (Hall e Hin). reflexivity.
    + reflexivity.
  - repeat split; auto. intros e Hin. now rewrite (Hall e Hin).
Qed.

Lemma keystatuseschange_reports_every_key_witness :
  filter isStatusReport
    (fst (onKeyStatusesChange
            (mkKeySession 7 "cenc" (ArrayBuffer 1) None 0 (Some 0))
            [(10, internal_error); (11, expired); (12, usable)]))
  = [Trigger (keystatuschange 10 internal_error);
     Trigger (keystatuschange 11 expired);
     Trigger (keystatuschange 12 usable)].
Proof.
  apply (keystatuseschange_reports_every_key
           (mkKeySession 7 "cenc" (ArrayBuffer 1) None 0 (Some 0)) 0
           [(10, internal_error); (11, expired); (12, usable)] eq_refl).
Defined.

(** ** Examples *)

Example initializeMediaKeys_with_pssh :
  initializeMediaKeys (fun _ => true) sampleHeap HasSetMediaKeys
    (mkEmeOptions (Some psshKeySystems)) 0 0 (mkMsPlatform false None true)
    (mkPlayer "a.mpd" None [] newVideo)
  = (mkPlayer "a.mpd" (Some "a.mpd"%string)
       [mkSession false (ArrayBuffer 1)] newVideo,
     None,
     CalledAfter (mkCall "cenc" (ArrayBuffer 1) psshKeySystems 0 (Some 0))).
Proof. reflexivity. Qed.

Example initializeMediaKeys_without_pssh :
  initializeMediaKeys (fun _ => true) sampleHeap HasSetMediaKeys
    (mkEmeOptions (Some sampleKeySystems)) 0 0 (mkMsPlatform false None true)
    (mkPlayer "a.mpd" None [] newVideo)
  = (mkPlayer "a.mpd" (Some "a.mpd"%string) [] newVideo, None, CalledPlainly).
Proof. reflexivity. Qed.

Example fairplay_creates_session :
  fairplay sampleFairplayOptions sampleFairplayPlatform
    sampleFairplayInitData
  = ([FpGetCertificate (Some 1) None; FpGetContentId 2; WebKitSetMediaKeys;
      WebKitCreateSession (payloadLayout [x01; x02] [97%Z] [x03]);
      WebKitAddEventListener "webkitkeymessage";
      WebKitAddEventListener "webkitkeyadded";
      WebKitAddEventListener "webkitkeyerror"],
     AddKeyListening).
Proof. reflexivity. Qed.

Example fairplay_odd_initData :
  fairplay sampleFairplayOptions sampleFairplayPlatform
    (mkUint8View [x01] [x01])
  = ([FpGetCertificate (Some 1) None; FpGetContentId 2; WebKitSetMediaKeys;
      FpLogError (RejectedBy RangeError)],
     AddKeyRejected (RejectedBy RangeError)).
Proof. reflexivity. Qed.

Example msPrefixed_failure_is_not_retried :
  applyPlayerOps sampleHeap ([], [])
    [MsNeedKey (ArrayBuffer 1) samplePlayready
       (mkMsPlatform false (Some "denied"%string) true);
     MsNeedKey (ArrayBuffer 1) samplePlayready
       (mkMsPlatform false None true)]
  = ([mkSession true (ArrayBuffer 1)],
     [[MsLogError
         "Unable to create media keys for PlayReady key system. Error: denied"]]).
Proof. reflexivity. Qed.

Example requestPlayreadyLicense_sample :
  requestPlayreadyLicense 1000 (fun _ => sampleKeyMessage) (fun s => Ok s)
    "https://license.example/playready" []
  = Ok (mkXhrRequest "https://license.example/playready"
          [("Content-Type"%string, Some "text/xml"%string);
           ("SOAPAction"%string, Some "AcquireLicense"%string)]
          (Some "Y2hhbGxlbmdl"%string)).
Proof. reflexivity. Qed.
